(** * git-gen: the response parser, the event fold and the thinking queue

    A shallow embedding of the TypeScript sources of git-gen
    ([src/generate.ts] and its variants, [src/git.ts]) together with the
    properties its specification states about them. *)

From Stdlib Require Import List NArith Bool String Ascii Arith Lia.
Import ListNotations.

Set Implicit Arguments.

(** ** JavaScript strings

    A JavaScript string is a sequence of UTF-16 code units.  The regular
    expressions of the program carry no [u] flag, so every operation below
    works on code units. *)

Module JS.

Definition jsstring := list N.

(** An ASCII literal of the source as a string of code units. *)
Definition lit (s : string) : jsstring :=
  map N_of_ascii (list_ascii_of_string s).
Arguments lit s%_string.

Definition LF : N := 10.
Definition SP : N := 32.

(** A string is truthy exactly when it is not empty. *)
Definition truthy (s : jsstring) : bool :=
  match s with [] => false | _ :: _ => true end.

Fixpoint eqb (a b : jsstring) : bool :=
  match a, b with
  | [], [] => true
  | x :: a', y :: b' => N.eqb x y && eqb a' b'
  | _, _ => false
  end.

(** ECMAScript [WhiteSpace] and [LineTerminator] code points, the characters
    [String.prototype.trim] strips and [\s] matches. *)
Definition isWhiteSpace (c : N) : bool :=
  ((9 <=? c) && (c <=? 13)
   || (c =? 32) || (c =? 160) || (c =? 5760)
   || ((8192 <=? c) && (c <=? 8202))
   || (c =? 8232) || (c =? 8233) || (c =? 8239) || (c =? 8287)
   || (c =? 12288) || (c =? 65279))%N.

Fixpoint trimStart (s : jsstring) : jsstring :=
  match s with
  | c :: s' => if isWhiteSpace c then trimStart s' else s
  | [] => []
  end.

Definition trimEnd (s : jsstring) : jsstring := rev (trimStart (rev s)).

Definition trim (s : jsstring) : jsstring := trimEnd (trimStart s).

Fixpoint startsWith (s search : jsstring) {struct search} : bool :=
  match search, s with
  | [], _ => true
  | a :: search', b :: s' => N.eqb a b && startsWith s' search'
  | _ :: _, [] => false
  end.

(** [s.includes(search)]: [search] occurs somewhere in [s]. *)
Fixpoint includes (s search : jsstring) : bool :=
  startsWith s search
  || match s with [] => false | _ :: s' => includes s' search end.

(** [s.indexOf(search)], with [None] for the [-1] of JavaScript. *)
Fixpoint indexOf (s search : jsstring) : option nat :=
  if startsWith s search then Some 0
  else match s with
       | [] => None
       | _ :: s' => option_map S (indexOf s' search)
       end.

(** [parts.join(sep)]. *)
Fixpoint join (sep : jsstring) (parts : list jsstring) : jsstring :=
  match parts with
  | [] => []
  | [x] => x
  | x :: rest => x ++ sep ++ join sep rest
  end.

(** [s.replace(/\n/g, " ")]. *)
Definition replaceNewlines (s : jsstring) : jsstring :=
  map (fun c => if N.eqb c LF then SP else c) s.

(** [s.slice(-n)]: the last [n] code units. *)
Definition sliceLast (n : nat) (s : jsstring) : jsstring :=
  skipn (List.length s - n) s.

End JS.

Import JS.

(** ** The regular expressions of [parseResponse]

    The three patterns use literal characters, one capturing group around a
    lazy or a greedy repetition of the class [\s\S] (any code unit), and a
    positive lookahead of literal characters.
    [match_here] is a backtracking matcher for sequences of these nodes; it
    returns the text of group 1. *)

Module Regex.

Inductive node : Type :=
| Chars (cs : jsstring)        (* literal characters *)
| LazyAny                      (* group 1 around the lazy  [\s\S]*? *)
| GreedyAny                    (* group 1 around the greedy [\s\S]* *)
| Lookahead (cs : jsstring).   (* positive lookahead over literal characters *)

Definition regex := list node.

(** Group 1 of a match; [None] stands for [undefined] (the group did not
    take part). *)
Definition groups := option jsstring.

Fixpoint dropPrefix (cs s : jsstring) {struct cs} : option jsstring :=
  match cs, s with
  | [], _ => Some s
  | a :: cs', b :: s' => if N.eqb a b then dropPrefix cs' s' else None
  | _ :: _, [] => None
  end.

Definition extend (c : N) (r : option groups) : option groups :=
  match r with
  | Some (Some g) => Some (Some (c :: g))
  | other => other
  end.

Definition captured (r : option groups) : option groups :=
  match r with
  | Some _ => Some (Some [])
  | None => None
  end.

(** Match [p] at the start of [s].  A lazy group tries the shortest
    repetition first and grows it by one code unit each time the rest of the
    pattern fails; a greedy group tries the longest first. *)
Fixpoint match_here (p : regex) (s : jsstring) {struct p} : option groups :=
  match p with
  | [] => Some None
  | Chars cs :: p' =>
      match dropPrefix cs s with
      | Some s' => match_here p' s'
      | None => None
      end
  | Lookahead cs :: p' =>
      if startsWith s cs then match_here p' s else None
  | LazyAny :: p' =>
      (fix lazy (s : jsstring) : option groups :=
         match captured (match_here p' s) with
         | Some g => Some g
         | None =>
             match s with
             | [] => None
             | c :: s' => extend c (lazy s')
             end
         end) s
  | GreedyAny :: p' =>
      (fix greedy (s : jsstring) : option groups :=
         match s with
         | [] => captured (match_here p' [])
         | c :: s' =>
             match extend c (greedy s') with
             | Some g => Some g
             | None => captured (match_here p' s)
             end
         end) s
  end.

(** [text.match(re)] for a regular expression without the [g] flag: the
    match at the leftmost start position, or [null]. *)
Fixpoint exec (p : regex) (s : jsstring) : option groups :=
  match match_here p s with
  | Some g => Some g
  | None =>
      match s with
      | [] => None
      | _ :: s' => exec p s'
      end
  end.

End Regex.

Import Regex.

(** ** [parseResponse] *)

Record ParsedResponse : Type := {
  commitMessage : jsstring;
  prTitle : jsstring;
  prBody : jsstring
}.

Definition COMMIT_MESSAGE : jsstring := lit "COMMIT_MESSAGE".
Definition PR_TITLE : jsstring := lit "PR_TITLE".
Definition PR_BODY : jsstring := lit "PR_BODY".

(** The pattern of [commitMatch]: COMMIT_MESSAGE\n, the lazy group, and the
    lookahead \nPR_TITLE\n. *)
Definition commitRe : regex :=
  [Chars (COMMIT_MESSAGE ++ [LF]); LazyAny; Lookahead (LF :: PR_TITLE ++ [LF])].

(** The pattern of [prTitleMatch]: PR_TITLE\n, the lazy group, and the
    lookahead \nPR_BODY\n. *)
Definition prTitleRe : regex :=
  [Chars (PR_TITLE ++ [LF]); LazyAny; Lookahead (LF :: PR_BODY ++ [LF])].

(** The pattern of [prBodyMatch]: PR_BODY\n and the greedy group. *)
Definition prBodyRe : regex :=
  [Chars (PR_BODY ++ [LF]); GreedyAny].

(** [m?.[1]?.trim() ?? dflt] *)
Definition group1_trim_or (m : option groups) (dflt : jsstring) : jsstring :=
  match m with
  | Some (Some g) => trim g
  | _ => dflt
  end.

Definition parseResponse (text : jsstring) : ParsedResponse :=
  let commitMatch := exec commitRe text in
  let prTitleMatch := exec prTitleRe text in
  let prBodyMatch := exec prBodyRe text in
  {| commitMessage := group1_trim_or commitMatch text;
     prTitle := group1_trim_or prTitleMatch [];
     prBody := group1_trim_or prBodyMatch [] |}.

(** ** Runs of the command: terminal effects, [process.exit], exceptions *)

Module Run.

(** What a run writes to the terminal, in order. *)
Inductive Effect : Type :=
| intro (s : jsstring)            (* p.intro *)
| log_info (s : jsstring)         (* p.log.info *)
| log_step (s : jsstring)         (* p.log.step *)
| log_error (s : jsstring)        (* p.log.error *)
| cancel (s : jsstring)           (* p.cancel *)
| spinner_start (s : jsstring)    (* s.start *)
| spinner_message (s : jsstring)  (* s.message *)
| spinner_stop (s : jsstring)     (* s.stop *)
| console_log (s : jsstring)      (* console.log *)
| console_error (s : jsstring)    (* console.error *)
| stderr_write (s : jsstring)     (* process.stderr.write *)
| prompt (s : jsstring).          (* the question prompt(...) writes *)

(** How a computation leaves: it returns, calls [process.exit(code)], or an
    exception escapes it. *)
Inductive result (A : Type) : Type :=
| Returned (a : A)
| Exited (code : nat)
| Thrown (err : jsstring).
Arguments Exited {A} code.
Arguments Thrown {A} err.

Definition Run (A : Type) : Type := list Effect -> list Effect * result A.

Definition ret {A} (a : A) : Run A := fun tr => (tr, Returned a).

Definition bind {A B} (m : Run A) (k : A -> Run B) : Run B :=
  fun tr =>
    match m tr with
    | (tr', Returned a) => k a tr'
    | (tr', Exited code) => (tr', Exited code)
    | (tr', Thrown err) => (tr', Thrown err)
    end.

Definition emit (e : Effect) : Run unit := fun tr => (tr ++ [e], Returned tt).

Definition exit {A} (code : nat) : Run A := fun tr => (tr, Exited code).

Definition throw {A} (err : jsstring) : Run A := fun tr => (tr, Thrown err).

(** The run started with nothing written yet. *)
Definition run {A} (m : Run A) : list Effect * result A := m [].

End Run.

Import Run.

Declare Scope run_scope.
Delimit Scope run_scope with run.
Notation "x <- m ;; k" := (bind m (fun x => k))
  (at level 61, m at next level, right associativity) : run_scope.
Notation "m ;; k" := (bind m (fun _ => k))
  (at level 61, right associativity) : run_scope.
Open Scope run_scope.

(** ** [src/git.ts] *)

Module Git.

(** What the three git commands print, or the error a failing command
    throws. *)
Record Repository : Type := {
  git_diff_cached : jsstring + jsstring;
  git_diff : jsstring + jsstring;
  git_status_short : jsstring + jsstring
}.

Definition shell (out : jsstring + jsstring) : Run jsstring :=
  match out with
  | inl text => ret text
  | inr err => throw err
  end.

Definition getGitDiff (repo : Repository) : Run jsstring :=
  staged <- shell (git_diff_cached repo) ;;
  if truthy (trim staged) then ret staged
  else
    unstaged <- shell (git_diff repo) ;;
    ret unstaged.

Definition getChangedFiles (repo : Repository) : Run jsstring :=
  shell (git_status_short repo).

End Git.

Import Git.

(** ** The messages of the SDK stream *)

Inductive Delta : Type :=
| thinking_delta (thinking : jsstring)
| text_delta (text : jsstring)
| other_delta.

Inductive RawEvent : Type :=
| content_block_delta (delta : Delta)
| content_block_stop
| other_event.

Inductive SDKMessage : Type :=
| stream_event (event : RawEvent)
| result_message (subtype : jsstring)
| other_message.

Definition success : jsstring := lit "success".

(** ** The surroundings of one run *)

(** When [git status --short] ends, next to the two commands of
    [getGitDiff], which run beside it. *)
Inductive Moment : Type :=
| BeforeStaged       (* before [git diff --cached] has ended *)
| BeforeUnstaged     (* after that, and before [git diff] has ended *)
| AfterBoth.         (* after [getGitDiff] has come to its end *)

(** What a run reads from outside. *)
Record Env : Type := {
  cwd : jsstring;                    (* process.cwd() *)
  prompts : list jsstring;           (* getAvailablePrompts(), in scan order *)
  repo : Repository;
  status_ends : Moment;              (* when git status --short ends *)
  ticket : option jsstring;          (* the answer to the ticket question;
                                        None when it is cancelled, or when
                                        prompt(...) gives null *)
  typed : list jsstring;             (* the lines typed after it, up to the
                                        end of the input *)
  prompt_text : jsstring -> jsstring + jsstring;
                                     (* Bun.file(prompt/<file>).text() *)
  query : jsstring -> list SDKMessage
                                     (* what query(...) yields for a prompt *)
}.

(** ** Project detection *)

Definition segment (name : jsstring) : jsstring := lit "/" ++ name ++ lit "/".

Fixpoint detectCompany_loop (cwd : jsstring) (prompts : list jsstring)
  : option jsstring :=
  match prompts with
  | [] => None
  | name :: rest =>
      if includes cwd (segment name) then Some name
      else detectCompany_loop cwd rest
  end.

Definition detectCompany (env : Env) : option jsstring :=
  detectCompany_loop (cwd env) (prompts env).

(** [for await (const message of stream) { ... }] over a local state; the
    body says whether the loop goes on or breaks. *)
Inductive flow : Type := Continue | Break.

Fixpoint for_await {S : Type} (body : SDKMessage -> S -> Run (flow * S))
  (stream : list SDKMessage) (st : S) : Run S :=
  match stream with
  | [] => ret st
  | message :: rest =>
      r <- body message st ;;
      match r with
      | (Continue, st') => for_await body rest st'
      | (Break, st') => ret st'
      end
  end.

(** [Promise.all([getGitDiff(), getChangedFiles()])]: the two run side by
    side, both results are needed to go on, and the first error to arrive
    ends the wait.  Neither writes anything, so taking the outcomes in the
    order in which the commands end gives the outcome of the wait; in the
    second case the staged diff has come back, or has failed, before the
    status. *)
Definition collect (env : Env) : Run (jsstring * jsstring) :=
  match status_ends env with
  | BeforeStaged =>
      changedFiles <- getChangedFiles (repo env) ;;
      diff <- getGitDiff (repo env) ;;
      ret (diff, changedFiles)
  | BeforeUnstaged =>
      shell (git_diff_cached (repo env)) ;;
      changedFiles <- getChangedFiles (repo env) ;;
      diff <- getGitDiff (repo env) ;;
      ret (diff, changedFiles)
  | AfterBoth =>
      diff <- getGitDiff (repo env) ;;
      changedFiles <- getChangedFiles (repo env) ;;
      ret (diff, changedFiles)
  end.

(** ** [src/input.ts]: reading several lines from the terminal *)

Module Input.

(** The handler of the [line] event over the lines the terminal delivers
    before it ends: an empty line closes the reader once a line has been
    kept, any other line is kept; [lines] is what has been kept so far. *)
Fixpoint read_lines (input lines : list jsstring) : list jsstring :=
  match input with
  | [] => lines
  | line :: rest =>
      match line, lines with
      | [], _ :: _ => lines
      | _, _ => read_lines rest (lines ++ [line])
      end
  end.

Definition readMultiLine (message : jsstring) (input : list jsstring)
  : Run jsstring :=
  emit (console_error (message ++ lit " (press Enter twice to finish)")) ;;
  ret (trim (join [LF] (read_lines input []))).

End Input.

(** ** The prompt files *)

Module Prompts.

(** [file.replace(/\.md$/, "")]: the pattern is tried at every position from
    the left and matches where the rest of the name is exactly ".md". *)
Fixpoint replace_md_end (file : jsstring) : jsstring :=
  if eqb file (lit ".md") then []
  else match file with
       | [] => []
       | c :: rest => c :: replace_md_end rest
       end.

(** [getAvailablePrompts] over the file names the scan yields. *)
Definition getAvailablePrompts (scan : list jsstring) : list jsstring :=
  map replace_md_end scan.

(** The name of the file [generate] reads for a company. *)
Definition prompt_file (company : jsstring) : jsstring := company ++ lit ".md".

End Prompts.

(** [Bun.file(path).text()]: the text of the file, or the error thrown when
    it cannot be read. *)
Definition file_text (out : jsstring + jsstring) : Run jsstring :=
  match out with
  | inl text => ret text
  | inr err => throw err
  end.

(** ** The prompt sent to the service *)

Definition ticketContext (ticket summary : jsstring) : jsstring :=
  if truthy ticket then
    lit "JIRA Ticket: " ++ ticket ++ [LF] ++ lit "Ticket Summary: " ++ summary
  else if truthy summary then lit "Context: " ++ summary
  else lit "No ticket provided.".

(** The template of [userPrompt], line by line. *)
Definition userPrompt (companyPrompt diff changedFiles ticket summary : jsstring)
  : jsstring :=
  join [LF]
    [companyPrompt;
     [];
     lit "## Git Diff";
     lit "```";
     diff;
     lit "```";
     [];
     lit "## Changed Files";
     lit "```";
     changedFiles;
     lit "```";
     [];
     lit "## Ticket Info";
     ticketContext ticket summary;
     [];
     lit "## Instructions";
     lit "1. Determine the appropriate type/prefix based on the changes.";
     lit "2. Generate a commit message following the format above."
       ++ (if truthy ticket then
             lit " Include ticket " ++ ticket ++ lit " in the scope/parenthetical."
           else lit " Omit the parenthetical/scope if no ticket.");
     lit "3. The PR title should match the commit message format.";
     lit "4. The PR body should follow the template above.";
     [];
     lit "Respond in EXACTLY this format (no extra text outside the sections):";
     [];
     lit "COMMIT_MESSAGE";
     lit "<the commit message>";
     [];
     lit "PR_TITLE";
     lit "<the PR title>";
     [];
     lit "PR_BODY";
     lit "<the PR body in markdown>"].


(** ** [src/generate.ts]: the spinner front end *)

Module Generate.

(** The body of the loop over the stream; the local state is
    [responseText]. *)
Definition on_message (message : SDKMessage) (responseText : jsstring)
  : Run (flow * jsstring) :=
  match message with
  | stream_event event =>
      match event with
      | content_block_delta (thinking_delta thinking) =>
          let snippet := sliceLast 60 (replaceNewlines thinking) in
          emit (spinner_message (lit "Thinking: ..." ++ snippet)) ;;
          ret (Continue, responseText)
      | content_block_delta (text_delta text) =>
          emit (spinner_message (lit "Writing response...")) ;;
          ret (Continue, responseText ++ text)
      | _ => ret (Continue, responseText)
      end
  | result_message subtype =>
      if negb (eqb subtype success) then
        emit (spinner_stop (lit "Generation failed.")) ;;
        emit (log_error (lit "Failed: " ++ subtype)) ;;
        exit 1
      else ret (Break, responseText)
  | other_message => ret (Continue, responseText)
  end.

Definition detect (env : Env) : Run jsstring :=
  let abort : Run jsstring :=
    (match prompts env with
     | _ :: _ =>
         emit (log_error (lit "Could not detect project. Available prompts: "
                            ++ join (lit ", ") (prompts env)))
     | [] =>
         emit (log_error
                 (lit "No prompt files found in src/prompt/. Add a <name>.md file."))
     end) ;;
    exit 1 in
  match detectCompany env with
  | Some company => if truthy company then ret company else abort
  | None => abort
  end.

(** From the stream to the parsed answer. *)
Definition respond (stream : list SDKMessage) : Run ParsedResponse :=
  emit (spinner_start (lit "Generating with Claude...")) ;;
  responseText <- for_await on_message stream [] ;;
  emit (spinner_stop (lit "Generation complete.")) ;;
  (if negb (truthy (trim responseText)) then
     emit (log_error (lit "Empty response from Claude.")) ;;
     exit 1
   else ret tt) ;;
  ret (parseResponse responseText).

(** [generate] from the changes it has collected up to the parsed response
    it goes on to show. *)
Definition with_changes (env : Env) (company : jsstring)
  (changes : jsstring * jsstring) : Run ParsedResponse :=
  let '(diff, changedFiles) := changes in
  (if negb (truthy (trim diff)) && negb (truthy (trim changedFiles)) then
     emit (log_error (lit "No git changes detected. Stage or modify files first.")) ;;
     exit 1
   else ret tt) ;;
  ticket <- (match ticket env with
             | None => emit (cancel (lit "Cancelled.")) ;; exit 0
             | Some answer => ret answer
             end) ;;
  emit (log_step (lit "Paste the JIRA ticket summary (press Enter twice to finish):")) ;;
  summary <- Input.readMultiLine [] (typed env) ;;
  companyPrompt <- file_text (prompt_text env (Prompts.prompt_file company)) ;;
  respond (query env (userPrompt companyPrompt diff changedFiles ticket summary)).

Definition generate (env : Env) : Run ParsedResponse :=
  emit (intro (lit "git-gen")) ;;
  company <- detect env ;;
  emit (log_info (lit "Detected project: " ++ company)) ;;
  changes <- collect env ;;
  with_changes env company changes.

End Generate.

(** ** The plain console front end (the variant kept in [index.ts]) *)

Module GenerateConsole.

Definition DIM : jsstring := 27%N :: lit "[2m".
Definition RESET : jsstring := 27%N :: lit "[0m".

Definition on_message (message : SDKMessage) (responseText : jsstring)
  : Run (flow * jsstring) :=
  match message with
  | stream_event event =>
      match event with
      | content_block_delta (thinking_delta thinking) =>
          emit (stderr_write (DIM ++ thinking ++ RESET)) ;;
          ret (Continue, responseText)
      | content_block_delta (text_delta text) =>
          ret (Continue, responseText ++ text)
      | _ => ret (Continue, responseText)
      end
  | result_message subtype =>
      if negb (eqb subtype success) then
        emit (console_error (lit "Generation failed: " ++ subtype)) ;;
        exit 1
      else ret (Break, responseText)
  | other_message => ret (Continue, responseText)
  end.

Definition detect (env : Env) : Run jsstring :=
  let abort : Run jsstring :=
    emit (console_error (lit "Could not detect project from current directory.")) ;;
    (match prompts env with
     | _ :: _ =>
         emit (console_error (lit "Available prompts: "
                                ++ join (lit ", ") (prompts env)))
     | [] =>
         emit (console_error
                 (lit "No prompt files found in src/prompt/. Add a <name>.md file."))
     end) ;;
    exit 1 in
  match detectCompany env with
  | Some company => if truthy company then ret company else abort
  | None => abort
  end.

Definition respond (stream : list SDKMessage) : Run ParsedResponse :=
  emit (console_log (LF :: lit "Generating with Claude..." ++ [LF])) ;;
  responseText <- for_await on_message stream [] ;;
  emit (stderr_write [LF]) ;;
  (if negb (truthy (trim responseText)) then
     emit (console_error (lit "Empty response from Claude.")) ;;
     exit 1
   else ret tt) ;;
  ret (parseResponse responseText).

(** [prompt(message) ?? ""]: the question is written and a line is read;
    [None] stands for [null]. *)
Definition prompt_or_empty (message : jsstring) (answer : option jsstring)
  : Run jsstring :=
  emit (prompt message) ;;
  ret (match answer with Some line => line | None => [] end).

Definition generate (env : Env) : Run ParsedResponse :=
  company <- detect env ;;
  emit (console_log (lit "Detected project: " ++ company ++ [LF])) ;;
  changes <- collect env ;;
  let '(diff, changedFiles) := changes in
  (if negb (truthy (trim diff)) && negb (truthy (trim changedFiles)) then
     emit (console_error (lit "No git changes detected. Stage or modify files first.")) ;;
     exit 1
   else ret tt) ;;
  ticket <- prompt_or_empty (lit "JIRA ticket number (or press enter to skip):")
              (ticket env) ;;
  summary <- Input.readMultiLine (lit "Paste the JIRA ticket summary:")
               (typed env) ;;
  companyPrompt <- file_text (prompt_text env (Prompts.prompt_file company)) ;;
  respond (query env (userPrompt companyPrompt diff changedFiles ticket summary)).

End GenerateConsole.

(** ** The queue between the stream and the live view of the thinking text *)

Module ThinkingQueue.

(** What a promise returned by [next()] resolves with. *)
Inductive IteratorResult : Type :=
| Value (chunk : jsstring)     (* { value: chunk, done: false } *)
| Finished.                    (* { value: undefined, done: true } *)

(** The three variables the closures share.  [thinkingResolve] is [true]
    while it holds the resolver of a promise [next()] has handed out;
    [delivered] is the history of the results the promises of [next()] were
    resolved with, oldest first. *)
Record t : Type := {
  thinkingResolve : bool;
  thinkingQueue : list jsstring;
  thinkingDone : bool;
  delivered : list IteratorResult
}.

Definition empty : t :=
  {| thinkingResolve := false; thinkingQueue := [];
     thinkingDone := false; delivered := [] |}.

Definition pushThinking (chunk : jsstring) (q : t) : t :=
  if thinkingResolve q then
    {| thinkingResolve := false;
       thinkingQueue := thinkingQueue q;
       thinkingDone := thinkingDone q;
       delivered := delivered q ++ [Value chunk] |}
  else
    {| thinkingResolve := false;
       thinkingQueue := thinkingQueue q ++ [chunk];
       thinkingDone := thinkingDone q;
       delivered := delivered q |}.

Definition endThinking (q : t) : t :=
  if thinkingResolve q then
    {| thinkingResolve := false;
       thinkingQueue := thinkingQueue q;
       thinkingDone := true;
       delivered := delivered q ++ [Finished] |}
  else
    {| thinkingResolve := false;
       thinkingQueue := thinkingQueue q;
       thinkingDone := true;
       delivered := delivered q |}.

(** [next()] of the iterator. *)
Definition next (q : t) : t :=
  match thinkingQueue q with
  | chunk :: rest =>
      {| thinkingResolve := thinkingResolve q;
         thinkingQueue := rest;
         thinkingDone := thinkingDone q;
         delivered := delivered q ++ [Value chunk] |}
  | [] =>
      if thinkingDone q then
        {| thinkingResolve := thinkingResolve q;
           thinkingQueue := [];
           thinkingDone := true;
           delivered := delivered q ++ [Finished] |}
      else
        {| thinkingResolve := true;
           thinkingQueue := [];
           thinkingDone := false;
           delivered := delivered q |}
  end.

(** The iterator has reported done. *)
Definition reported_done (q : t) : bool :=
  existsb (fun r => match r with Finished => true | Value _ => false end)
    (delivered q).

(** One turn of the consumer, a [for await] loop over the iterable: it asks
    for the next result unless it is still waiting for the last one or has
    been told that the iteration is done. *)
Definition pull (q : t) : t :=
  if thinkingResolve q || reported_done q then q else next q.

(** The chunks among the delivered results. *)
Fixpoint chunks (rs : list IteratorResult) : list jsstring :=
  match rs with
  | [] => []
  | Value chunk :: rs' => chunk :: chunks rs'
  | Finished :: rs' => chunks rs'
  end.

(** What happens around the queue, in the order it happens. *)
Inductive op : Type :=
| Push (chunk : jsstring)    (* the stream side calls pushThinking *)
| End                        (* the stream side calls endThinking *)
| Pull.                      (* the consumer takes a turn *)

Definition apply (q : t) (o : op) : t :=
  match o with
  | Push chunk => pushThinking chunk q
  | End => endThinking q
  | Pull => pull q
  end.

Definition run_ops (ops : list op) (q : t) : t := fold_left apply ops q.

(** The chunks pushed by a sequence of operations. *)
Fixpoint pushed (ops : list op) : list jsstring :=
  match ops with
  | [] => []
  | Push chunk :: ops' => chunk :: pushed ops'
  | _ :: ops' => pushed ops'
  end.

(** The operations of the stream side alone. *)
Definition producer (ops : list op) : list op :=
  filter (fun o => match o with Pull => false | _ => true end) ops.

(** The consumer keeps taking turns until the iterator reports done. *)
Definition drain (q : t) : t :=
  Nat.iter (S (List.length (thinkingQueue q))) pull q.

End ThinkingQueue.

(** ** The front end that streams the thinking text live

    [consumeStream] and the renderer [p.stream.step(thinkingIterable)] run
    side by side and take turns at the suspension points; [generate] itself
    waits for the renderer first and for [consumeStream] second. *)

Module GenerateStreamed.

Import ThinkingQueue.

(** Where [generate] is waiting. *)
Inductive Main : Type :=
| AwaitingRenderer     (* await p.stream.step(thinkingIterable) *)
| AwaitingStream       (* s2 started; await consumeStream *)
| Resumed.             (* both awaits have returned *)

Record Session : Type := {
  incoming : list SDKMessage;     (* what the stream has still to yield *)
  responseText : jsstring;
  thinking : ThinkingQueue.t;
  thinkingStarted : bool;
  streamDone : bool;
  streamError : option jsstring;
  main : Main;
  terminal : list Effect          (* the spinner calls of [consumeStream]
                                     and [generate], oldest first *)
}.

Definition start (stream : list SDKMessage) : Session :=
  {| incoming := stream; responseText := []; thinking := ThinkingQueue.empty;
     thinkingStarted := false; streamDone := false; streamError := None;
     main := AwaitingRenderer; terminal := [] |}.

Definition set_incoming (v : list SDKMessage) (s : Session) : Session :=
  {| incoming := v; responseText := responseText s; thinking := thinking s;
     thinkingStarted := thinkingStarted s; streamDone := streamDone s;
     streamError := streamError s; main := main s; terminal := terminal s |}.

Definition set_responseText (v : jsstring) (s : Session) : Session :=
  {| incoming := incoming s; responseText := v; thinking := thinking s;
     thinkingStarted := thinkingStarted s; streamDone := streamDone s;
     streamError := streamError s; main := main s; terminal := terminal s |}.

Definition set_thinking (v : ThinkingQueue.t) (s : Session) : Session :=
  {| incoming := incoming s; responseText := responseText s; thinking := v;
     thinkingStarted := thinkingStarted s; streamDone := streamDone s;
     streamError := streamError s; main := main s; terminal := terminal s |}.

Definition set_thinkingStarted (v : bool) (s : Session) : Session :=
  {| incoming := incoming s; responseText := responseText s; thinking := thinking s;
     thinkingStarted := v; streamDone := streamDone s;
     streamError := streamError s; main := main s; terminal := terminal s |}.

Definition set_streamDone (v : bool) (s : Session) : Session :=
  {| incoming := incoming s; responseText := responseText s; thinking := thinking s;
     thinkingStarted := thinkingStarted s; streamDone := v;
     streamError := streamError s; main := main s; terminal := terminal s |}.

Definition set_streamError (v : option jsstring) (s : Session) : Session :=
  {| incoming := incoming s; responseText := responseText s; thinking := thinking s;
     thinkingStarted := thinkingStarted s; streamDone := streamDone s;
     streamError := v; main := main s; terminal := terminal s |}.

Definition set_main (v : Main) (s : Session) : Session :=
  {| incoming := incoming s; responseText := responseText s; thinking := thinking s;
     thinkingStarted := thinkingStarted s; streamDone := streamDone s;
     streamError := streamError s; main := v; terminal := terminal s |}.

Definition say (e : Effect) (s : Session) : Session :=
  {| incoming := incoming s; responseText := responseText s; thinking := thinking s;
     thinkingStarted := thinkingStarted s; streamDone := streamDone s;
     streamError := streamError s; main := main s; terminal := terminal s ++ [e] |}.

(** The body of the loop of [consumeStream]. *)
Definition on_message (message : SDKMessage) (s : Session) : flow * Session :=
  match message with
  | stream_event event =>
      match event with
      | content_block_delta (thinking_delta chunk) =>
          let s1 :=
            if negb (thinkingStarted s) then
              say (spinner_stop (lit "Claude is thinking..."))
                (set_thinkingStarted true s)
            else s in
          (Continue, set_thinking (pushThinking chunk (thinking s1)) s1)
      | content_block_delta (text_delta text) =>
          (Continue, set_responseText (responseText s ++ text) s)
      | content_block_delta other_delta => (Continue, s)
      | content_block_stop =>
          if thinkingStarted s && negb (thinkingDone (thinking s)) then
            (Continue, set_thinking (endThinking (thinking s)) s)
          else (Continue, s)
      | other_event => (Continue, s)
      end
  | result_message subtype =>
      if negb (eqb subtype success) then
        (Break, set_streamError (Some subtype) s)
      else (Break, s)
  | other_message => (Continue, s)
  end.

(** What [consumeStream] does once its loop is left. *)
Definition finish (s : Session) : Session :=
  let s1 :=
    if negb (thinkingDone (thinking s)) then
      set_thinking (endThinking (thinking s)) s
    else s in
  set_streamDone true s1.

(** One turn of [consumeStream]: it takes the next message of the stream, or
    finds the stream at its end. *)
Definition consumeStream_turn (s : Session) : Session :=
  if streamDone s then s
  else
    match incoming s with
    | [] => finish s
    | message :: rest =>
        match on_message message (set_incoming rest s) with
        | (Continue, s') => s'
        | (Break, s') => finish s'
        end
    end.

(** One turn of the renderer: [p.stream.step] asks the iterator for the next
    chunk.  What it writes for a chunk is its own affair; the chunks it is
    given are the [delivered] ones. *)
Definition render (s : Session) : Session :=
  set_thinking (pull (thinking s)) s.

(** [generate] goes on as soon as what it awaits has happened. *)
Definition resume (s : Session) : Session :=
  match main s with
  | AwaitingRenderer =>
      if reported_done (thinking s) then
        if negb (streamDone s) then
          set_main AwaitingStream (say (spinner_start (lit "Writing response...")) s)
        else set_main Resumed s
      else s
  | AwaitingStream =>
      if streamDone s then
        set_main Resumed (say (spinner_stop (lit "Generation complete.")) s)
      else s
  | Resumed => s
  end.

Inductive turn : Type := Ingest | Render.

Definition step (s : Session) (t : turn) : Session :=
  resume (match t with
          | Ingest => consumeStream_turn s
          | Render => render s
          end).

Definition run_turns (sched : list turn) (s : Session) : Session :=
  fold_left step sched s.

Definition emit_all (es : list Effect) : Run unit :=
  fun tr => (tr ++ es, Returned tt).

(** From the stream to the parsed answer, the two sides taking turns as
    [sched] says; [None] when [generate] is still waiting after these
    turns. *)
Definition respond (stream : list SDKMessage) (sched : list turn)
  : Run (option ParsedResponse) :=
  emit (spinner_start (lit "Generating with Claude...")) ;;
  let s := run_turns sched (start stream) in
  emit_all (terminal s) ;;
  match main s with
  | Resumed =>
      (match streamError s with
       | Some reason =>
           if truthy reason then
             emit (log_error (lit "Generation failed: " ++ reason)) ;;
             exit 1
           else ret tt
       | None => ret tt
       end) ;;
      (if negb (truthy (trim (responseText s))) then
         emit (log_error (lit "Empty response from Claude.")) ;;
         exit 1
       else ret tt) ;;
      ret (Some (parseResponse (responseText s)))
  | _ => ret None
  end.

Definition generate (env : Env) (sched : list turn)
  : Run (option ParsedResponse) :=
  emit (intro (lit "git-gen")) ;;
  company <- Generate.detect env ;;
  emit (log_info (lit "Detected project: " ++ company)) ;;
  changes <- collect env ;;
  let '(diff, changedFiles) := changes in
  (if negb (truthy (trim diff)) && negb (truthy (trim changedFiles)) then
     emit (log_error (lit "No git changes detected. Stage or modify files first.")) ;;
     exit 1
   else ret tt) ;;
  ticket <- (match ticket env with
             | None => emit (cancel (lit "Cancelled.")) ;; exit 0
             | Some answer => ret answer
             end) ;;
  emit (log_step (lit "Paste the JIRA ticket summary (press Enter twice to finish):")) ;;
  summary <- Input.readMultiLine [] (typed env) ;;
  companyPrompt <- file_text (prompt_text env (Prompts.prompt_file company)) ;;
  respond (query env (userPrompt companyPrompt diff changedFiles ticket summary))
    sched.

End GenerateStreamed.

(** ** What follows the parsed answer: confirming, committing, opening the PR *)

Module Act.

(** What is written or run, in order.  [ui] carries the effects of the
    front end; the last three are the commands handed to the shell. *)
Inductive Event : Type :=
| ui (e : Effect)
| note (body title : jsstring)          (* p.note *)
| confirm (message : jsstring)          (* p.confirm *)
| log_warning (s : jsstring)            (* p.log.warning *)
| outro (s : jsstring)                  (* p.outro *)
| sh (argv : list jsstring)             (* a command run through $ *)
| push_and_create_pr (title body : jsstring).

(** The answer to a [p.confirm]. *)
Inductive Answer : Type := Yes | No | Cancelled.

(** What the user answers and how the commands end: [None] when a command
    succeeds, [Some err] with the text of the error it throws.
    [gitPushAndCreatePR] is imported from [git.ts] by the front ends; only
    its outcome is taken here. *)
Record World : Type := {
  confirm_commit : Answer;
  confirm_pr : Answer;
  git_add : option jsstring;
  git_commit : jsstring -> option jsstring;
  gitPushAndCreatePR_outcome : jsstring -> jsstring -> option jsstring
}.

Definition Act (A : Type) : Type := list Event -> list Event * result A.

Definition aret {A} (a : A) : Act A := fun tr => (tr, Returned a).

Definition abind {A B} (m : Act A) (k : A -> Act B) : Act B :=
  fun tr =>
    match m tr with
    | (tr', Returned a) => k a tr'
    | (tr', Exited code) => (tr', Exited code)
    | (tr', Thrown err) => (tr', Thrown err)
    end.

Definition say (e : Event) : Act unit := fun tr => (tr ++ [e], Returned tt).

Definition leave {A} (code : nat) : Act A := fun tr => (tr, Exited code).

Definition raise {A} (err : jsstring) : Act A := fun tr => (tr, Thrown err).

(** [try { m } catch (err) { handler(String(err)) }]; [process.exit] is not
    an exception and is not caught. *)
Definition try_catch {A} (m : Act A) (handler : jsstring -> Act A) : Act A :=
  fun tr =>
    match m tr with
    | (tr', Thrown err) => handler err tr'
    | other => other
    end.

(** A computation of the front end, its effects carried over. *)
Definition lift {A} (m : Run A) : Act A :=
  fun tr => let (es, r) := m [] in (tr ++ map ui es, r).

(** One command: it is run, and throws when it fails. *)
Definition command (argv : list jsstring) (outcome : option jsstring)
  : Act unit :=
  abind (say (sh argv))
    (fun _ => match outcome with
              | None => aret tt
              | Some err => raise err
              end).

Definition gitCommit (w : World) (message : jsstring) : Act unit :=
  abind (command [lit "git"; lit "add"; lit "-A"] (git_add w))
    (fun _ =>
       command [lit "git"; lit "commit"; lit "-m"; message]
         (git_commit w message)).

Definition gitPushAndCreatePR (w : World) (title body : jsstring) : Act unit :=
  abind (say (push_and_create_pr title body))
    (fun _ => match gitPushAndCreatePR_outcome w title body with
              | None => aret tt
              | Some err => raise err
              end).

Definition show_parsed (parsed : ParsedResponse) : Act unit :=
  abind (say (note (commitMessage parsed) (lit "Commit Message")))
    (fun _ =>
       abind (say (note (prTitle parsed) (lit "PR Title")))
         (fun _ => say (note (prBody parsed) (lit "PR Body")))).

Definition ask (message : jsstring) (answer : Answer) : Act unit :=
  abind (say (confirm message))
    (fun _ => match answer with
              | Yes => aret tt
              | No | Cancelled =>
                  abind (say (outro (lit "Done!"))) (fun _ => leave 0)
              end).

Definition commit_step (w : World) (parsed : ParsedResponse) : Act unit :=
  abind (say (ui (spinner_start (lit "Committing changes..."))))
    (fun _ =>
       try_catch
         (abind (gitCommit w (commitMessage parsed))
            (fun _ => say (ui (spinner_stop (lit "Changes committed.")))))
         (fun err =>
            abind (say (ui (spinner_stop (lit "Commit failed."))))
              (fun _ => abind (say (ui (log_error err))) (fun _ => leave 1)))).

Definition pr_step (w : World) (parsed : ParsedResponse) : Act unit :=
  abind (say (ui (spinner_start (lit "Pushing and creating PR..."))))
    (fun _ =>
       try_catch
         (abind (gitPushAndCreatePR w (prTitle parsed) (prBody parsed))
            (fun _ => say (ui (spinner_stop (lit "PR created.")))))
         (fun err =>
            abind (say (ui (spinner_stop (lit "PR creation failed."))))
              (fun _ =>
                 abind (say (log_warning
                               (lit "Commit already landed. Push/PR failed:")))
                   (fun _ =>
                      abind (say (ui (log_error err))) (fun _ => leave 1))))).

(** The end of [generate] in [src/generate.ts]: one question. *)
Definition act (w : World) (parsed : ParsedResponse) : Act unit :=
  abind (show_parsed parsed)
    (fun _ =>
       abind (ask (lit "Commit and open PR?") (confirm_commit w))
         (fun _ =>
            abind (commit_step w parsed)
              (fun _ =>
                 abind (pr_step w parsed)
                   (fun _ => say (outro (lit "All done!")))))).

(** The end of [generate] in the streamed front end: two questions. *)
Definition act_streamed (w : World) (parsed : ParsedResponse) : Act unit :=
  abind (show_parsed parsed)
    (fun _ =>
       abind (ask (lit "Commit changes?") (confirm_commit w))
         (fun _ =>
            abind (commit_step w parsed)
              (fun _ =>
                 abind (ask (lit "Push and open PR?") (confirm_pr w))
                   (fun _ =>
                      abind (pr_step w parsed)
                        (fun _ => say (outro (lit "All done!"))))))).

(** The three commands of [src/git.ts] that read the repository. *)
Definition GIT_DIFF_CACHED : list jsstring := [lit "git"; lit "diff"; lit "--cached"].
Definition GIT_DIFF : list jsstring := [lit "git"; lit "diff"].
Definition GIT_STATUS_SHORT : list jsstring :=
  [lit "git"; lit "status"; lit "--short"].

(** How a command that was handed to the shell before comes back. *)
Definition outcome (out : jsstring + jsstring) : Act jsstring :=
  match out with
  | inl text => aret text
  | inr err => raise err
  end.

(** [Promise.all([getGitDiff(), getChangedFiles()])] with the commands as
    they are handed to the shell: [git diff --cached] and
    [git status --short] at once, the one after the other, and [git diff]
    when the staged diff has come back blank; the outcomes are taken in the
    order in which the commands end, and the first error ends the run. *)
Definition collect_sh (env : Env) : Act (jsstring * jsstring) :=
  abind (say (sh GIT_DIFF_CACHED))
    (fun _ =>
       abind (say (sh GIT_STATUS_SHORT))
         (fun _ =>
            match status_ends env with
            | BeforeStaged =>
                abind (outcome (git_status_short (repo env)))
                  (fun changedFiles =>
                     abind (outcome (git_diff_cached (repo env)))
                       (fun staged =>
                          if truthy (trim staged) then aret (staged, changedFiles)
                          else
                            abind (say (sh GIT_DIFF))
                              (fun _ =>
                                 abind (outcome (git_diff (repo env)))
                                   (fun unstaged => aret (unstaged, changedFiles)))))
            | BeforeUnstaged =>
                abind (outcome (git_diff_cached (repo env)))
                  (fun staged =>
                     if truthy (trim staged) then
                       abind (outcome (git_status_short (repo env)))
                         (fun changedFiles => aret (staged, changedFiles))
                     else
                       abind (say (sh GIT_DIFF))
                         (fun _ =>
                            abind (outcome (git_status_short (repo env)))
                              (fun changedFiles =>
                                 abind (outcome (git_diff (repo env)))
                                   (fun unstaged => aret (unstaged, changedFiles)))))
            | AfterBoth =>
                abind (outcome (git_diff_cached (repo env)))
                  (fun staged =>
                     if truthy (trim staged) then
                       abind (outcome (git_status_short (repo env)))
                         (fun changedFiles => aret (staged, changedFiles))
                     else
                       abind (say (sh GIT_DIFF))
                         (fun _ =>
                            abind (outcome (git_diff (repo env)))
                              (fun unstaged =>
                                 abind (outcome (git_status_short (repo env)))
                                   (fun changedFiles =>
                                      aret (unstaged, changedFiles)))))
            end)).

(** All of [generate] of [src/generate.ts], the commands it hands to the
    shell included. *)
Definition generate_and_act (env : Env) (w : World) : Act unit :=
  abind (say (ui (intro (lit "git-gen"))))
    (fun _ =>
       abind (lift (Generate.detect env))
         (fun company =>
            abind (say (ui (log_info (lit "Detected project: " ++ company))))
              (fun _ =>
                 abind (collect_sh env)
                   (fun changes =>
                      abind (lift (Generate.with_changes env company changes))
                        (act w))))).

End Act.

(** ** The front end that asks for the whole answer at once *)

Module GenerateOneShot.

(** What [unstable_v2_prompt] resolves with. *)
Record PromptResult : Type := {
  subtype : jsstring;
  result_text : jsstring      (* the field [result] *)
}.

Definition respond (r : PromptResult) : Run ParsedResponse :=
  emit (console_log (LF :: lit "Generating with Claude..." ++ [LF])) ;;
  (if negb (eqb (subtype r) success) then
     emit (console_error (lit "Generation failed: " ++ subtype r)) ;;
     exit 1
   else ret tt) ;;
  ret (parseResponse (result_text r)).

(** [unstable_v2_prompt] is what the service answers a prompt with; the
    summary is the one line the second [prompt(...)] reads. *)
Definition generate (env : Env) (unstable_v2_prompt : jsstring -> PromptResult)
  : Run ParsedResponse :=
  company <- GenerateConsole.detect env ;;
  emit (console_log (lit "Detected project: " ++ company ++ [LF])) ;;
  changes <- collect env ;;
  let '(diff, changedFiles) := changes in
  (if negb (truthy (trim diff)) && negb (truthy (trim changedFiles)) then
     emit (console_error (lit "No git changes detected. Stage or modify files first.")) ;;
     exit 1
   else ret tt) ;;
  ticket <- GenerateConsole.prompt_or_empty
              (lit "JIRA ticket number (or press enter to skip):") (ticket env) ;;
  summary <- GenerateConsole.prompt_or_empty
               (lit "Paste the JIRA ticket summary:") (hd_error (typed env)) ;;
  companyPrompt <- file_text (prompt_text env (Prompts.prompt_file company)) ;;
  respond
    (unstable_v2_prompt
       (userPrompt companyPrompt diff changedFiles ticket summary)).

End GenerateOneShot.

(** ** [index.ts]: the command line *)

Module Cli.

Definition usage : list Effect :=
  [console_log (lit "git-gen cli v0.0.1");
   console_log (LF :: lit "Usage: git-gen <command>" ++ [LF]);
   console_log (lit "Commands:");
   console_log
     (lit "  generate  Analyze git changes and generate commit/PR messages (default)");
   console_log (lit "  help      Show this help message")].

Definition emit_each (es : list Effect) : Run unit :=
  fun tr => (tr ++ es, Returned tt).

(** [args] is [process.argv.slice(2)]; [generate] is what the command
    [generate] runs. *)
Definition main {A} (args : list jsstring) (generate : Run A)
  : Run (option A) :=
  let command := hd_error args in
  (match command with
   | Some c =>
       if eqb c (lit "help") then emit_each usage ;; exit 0 else ret tt
   | None => ret tt
   end) ;;
  match command with
  | None => a <- generate ;; ret (Some a)
  | Some c =>
      if negb (truthy c) || eqb c (lit "generate") then
        a <- generate ;; ret (Some a)
      else
        emit (console_log (lit "Unknown command: " ++ c)) ;;
        exit 1
  end.

End Cli.

(** * Properties *)

(** ** Occurrences of a literal in a string *)

Section Occurrences.

(** [search] occurs in [s]. *)
Definition Occurs (search s : jsstring) : Prop :=
  exists pre post, s = pre ++ search ++ post.

Lemma startsWith_true (s search : jsstring) :
  startsWith s search = true <-> exists post, s = search ++ post.
Proof.
  revert s; induction search as [|a search IH]; intros s; simpl.
  - split; [intros _; now exists s | reflexivity].
  - destruct s as [|b s].
    + split; [discriminate | intros [post H]; discriminate].
    + rewrite andb_true_iff, N.eqb_eq, IH. split.
      * intros [-> [post ->]]. now exists post.
      * intros [post H]. injection H as -> ->. split; [reflexivity | now exists post].
Qed.

Lemma startsWith_app (search post : jsstring) :
  startsWith (search ++ post) search = true.
Proof. apply startsWith_true. now exists post. Qed.

Lemma indexOf_Some (s search : jsstring) (i : nat) :
  indexOf s search = Some i ->
  skipn i s = search ++ skipn (i + List.length search) s
  /\ i + List.length search <= List.length s.
Proof.
  revert i; induction s as [|c s IH]; intros i; simpl.
  - destruct search; simpl; [|discriminate].
    intros [= <-]. simpl. split; [reflexivity | lia].
  - destruct (startsWith (c :: s) search) eqn:E.
    + intros [= <-]. apply startsWith_true in E as [post E].
      assert (L := f_equal (@List.length N) E). rewrite length_app in L.
      simpl in L. cbn [skipn Nat.add]. rewrite E.
      rewrite skipn_app, skipn_all, Nat.sub_diag. simpl.
      split; [reflexivity | lia].
    + destruct (indexOf s search) as [j|] eqn:Ej; [|discriminate].
      intros [= <-]. destruct (IH j eq_refl) as [H1 H2]. simpl. split; [exact H1 | lia].
Qed.

Lemma indexOf_None (s search : jsstring) :
  indexOf s search = None <-> ~ Occurs search s.
Proof.
  induction s as [|c s IH]; simpl.
  - destruct search as [|a search]; simpl.
    + split; [discriminate | intros H; exfalso; apply H; now exists [], []].
    + split; [|reflexivity]. intros _ [pre [post H]].
      destruct pre; discriminate.
  - destruct (startsWith (c :: s) search) eqn:E.
    + split; [discriminate|]. intros H; exfalso; apply H.
      apply startsWith_true in E as [post E]. now exists [], post.
    + destruct (indexOf s search) as [j|]; simpl.
      * split; [discriminate|]. intros H; exfalso; apply H.
        destruct (proj1 (not_iff_compat IH)) as [].
        -- discriminate.
        -- intros [pre [post H']]. apply H. exists (c :: pre), post. now rewrite H'.
      * split; [|reflexivity]. intros _ [pre [post H]].
        destruct pre as [|d pre].
        -- simpl in H. rewrite H, startsWith_app in E. discriminate.
        -- injection H as _ H. apply (proj1 IH eq_refl). now exists pre, post.
Qed.

Lemma Occurs_prefix (m extra s : jsstring) :
  Occurs (m ++ extra) s -> Occurs m s.
Proof.
  intros [pre [post ->]]. exists pre, (extra ++ post). now rewrite <- app_assoc.
Qed.

Lemma Occurs_skipn (search s : jsstring) (n : nat) :
  Occurs search (skipn n s) -> Occurs search s.
Proof.
  intros [pre [post H]]. exists (firstn n s ++ pre), post.
  rewrite <- app_assoc, <- H. symmetry; apply firstn_skipn.
Qed.

Lemma includes_true (s search : jsstring) :
  includes s search = true <-> Occurs search s.
Proof.
  induction s as [|c s IH]; simpl.
  - rewrite orb_false_r, startsWith_true. split.
    + intros [post H]. now exists [], post.
    + intros [pre [post H]]. destruct pre; [now exists post|discriminate].
  - rewrite orb_true_iff, startsWith_true, IH. split.
    + intros [[post H] | [pre [post H]]].
      * now exists [], post.
      * exists (c :: pre), post. now rewrite H.
    + intros [pre [post H]]. destruct pre as [|d pre].
      * left. now exists post.
      * right. injection H as _ H. now exists pre, post.
Qed.

End Occurrences.

(** ** What the three patterns compute

    [section_between] and [section_to_end] say with [indexOf] what the
    backtracking matcher finds for the patterns of [parseResponse]. *)

Section Sections.

(** The text after the leftmost [opener] up to the first [closer] behind
    it; nothing when either is missing. *)
Definition section_between (text opener closer : jsstring) : option jsstring :=
  match indexOf text opener with
  | None => None
  | Some i =>
      let rest := skipn (i + List.length opener) text in
      match indexOf rest closer with
      | None => None
      | Some k => Some (firstn k rest)
      end
  end.

(** The text after the leftmost [opener] up to the end. *)
Definition section_to_end (text opener : jsstring) : option jsstring :=
  match indexOf text opener with
  | None => None
  | Some i => Some (skipn (i + List.length opener) text)
  end.

Lemma dropPrefix_spec (cs s : jsstring) :
  dropPrefix cs s =
  if startsWith s cs then Some (skipn (List.length cs) s) else None.
Proof.
  revert s; induction cs as [|a cs IH]; intros [|b s]; simpl; try reflexivity.
  destruct (N.eqb a b); simpl; [apply IH | reflexivity].
Qed.

Lemma match_here_lazy (closer s : jsstring) :
  match_here [LazyAny; Lookahead closer] s =
  option_map (fun k => Some (firstn k s)) (indexOf s closer).
Proof.
  induction s as [|c s IH].
  - simpl. destruct (startsWith [] closer); reflexivity.
  - cbn [match_here] in IH |- *. cbn [indexOf].
    destruct (startsWith (c :: s) closer); [reflexivity|].
    cbn [captured]. rewrite IH.
    destruct (indexOf s closer); reflexivity.
Qed.

Lemma match_here_greedy (s : jsstring) :
  match_here [GreedyAny] s = Some (Some s).
Proof.
  induction s as [|c s IH]; [reflexivity|].
  cbn [match_here] in IH |- *. rewrite IH. reflexivity.
Qed.

Lemma indexOf_skipn_None (s search : jsstring) (n : nat) :
  indexOf s search = None -> indexOf (skipn n s) search = None.
Proof.
  rewrite !indexOf_None. intros H H'. apply H. eapply Occurs_skipn, H'.
Qed.

Lemma match_here_Chars (cs : jsstring) (p : regex) (s : jsstring) :
  match_here (Chars cs :: p) s =
  if startsWith s cs then match_here p (skipn (List.length cs) s) else None.
Proof.
  change (match_here (Chars cs :: p) s)
    with (match dropPrefix cs s with
          | Some s' => match_here p s'
          | None => None
          end).
  rewrite dropPrefix_spec. destruct (startsWith s cs); reflexivity.
Qed.

Lemma exec_unfold (p : regex) (s : jsstring) :
  exec p s =
  match match_here p s with
  | Some g => Some g
  | None => match s with [] => None | _ :: s' => exec p s' end
  end.
Proof. destruct s; reflexivity. Qed.

Lemma exec_between (opener closer text : jsstring) :
  exec [Chars opener; LazyAny; Lookahead closer] text =
  option_map Some (section_between text opener closer).
Proof.
  unfold section_between.
  induction text as [|c text IH];
    rewrite exec_unfold, match_here_Chars, match_here_lazy; cbn [indexOf].
  - destruct (startsWith [] opener); [|reflexivity].
    cbn [Nat.add]. destruct (indexOf _ closer); reflexivity.
  - destruct (startsWith (c :: text) opener).
    + cbn [Nat.add].
      destruct (indexOf (skipn (List.length opener) (c :: text)) closer)
        as [k|] eqn:Ek; [reflexivity|].
      cbn [option_map]. rewrite IH.
      destruct (indexOf text opener) as [i|]; [|reflexivity].
      cbn [option_map].
      replace (skipn (i + List.length opener) text)
        with (skipn (S i) (skipn (List.length opener) (c :: text))).
      * rewrite (indexOf_skipn_None _ _ (S i) Ek). reflexivity.
      * rewrite skipn_skipn.
        replace (S i + List.length opener) with (S (i + List.length opener)) by lia.
        reflexivity.
    + rewrite IH. destruct (indexOf text opener) as [i|]; reflexivity.
Qed.

Lemma exec_to_end (opener text : jsstring) :
  exec [Chars opener; GreedyAny] text =
  option_map Some (section_to_end text opener).
Proof.
  unfold section_to_end.
  induction text as [|c text IH];
    rewrite exec_unfold, match_here_Chars, match_here_greedy; cbn [indexOf].
  - destruct (startsWith [] opener); reflexivity.
  - destruct (startsWith (c :: text) opener); [reflexivity|].
    rewrite IH. destruct (indexOf text opener); reflexivity.
Qed.

(** [parseResponse] in terms of leftmost occurrences. *)
Lemma parseResponse_sections (text : jsstring) :
  parseResponse text =
  {| commitMessage :=
       match section_between text (COMMIT_MESSAGE ++ [LF]) (LF :: PR_TITLE ++ [LF]) with
       | Some g => trim g
       | None => text
       end;
     prTitle :=
       match section_between text (PR_TITLE ++ [LF]) (LF :: PR_BODY ++ [LF]) with
       | Some g => trim g
       | None => []
       end;
     prBody :=
       match section_to_end text (PR_BODY ++ [LF]) with
       | Some g => trim g
       | None => []
       end |}.
Proof.
  unfold parseResponse, commitRe, prTitleRe, prBodyRe.
  rewrite !exec_between, exec_to_end.
  destruct (section_between text (COMMIT_MESSAGE ++ [LF]) _),
    (section_between text (PR_TITLE ++ [LF]) _),
    (section_to_end text _); reflexivity.
Qed.

End Sections.

(** ** The response parser *)

Section Parser.

(** The answer with the first two markers and no [PR_BODY]. *)
Definition partial_answer : jsstring :=
  COMMIT_MESSAGE ++ [LF] ++ lit "fix bug" ++ [LF; LF]
    ++ PR_TITLE ++ [LF] ++ lit "Fix bug".

(** The answer built from three contents and the three marker lines. *)
Definition answer_of (A B C : jsstring) : jsstring :=
  COMMIT_MESSAGE ++ [LF] ++ A ++ [LF; LF]
    ++ PR_TITLE ++ [LF] ++ B ++ [LF; LF]
    ++ PR_BODY ++ [LF] ++ C.

(** [search] occurs in [s] at the start of a line: at the very start of [s]
    when [at_start] holds, or right behind a line feed. *)
Fixpoint occurs_at_line_start (search s : jsstring) (at_start : bool) : bool :=
  (at_start && startsWith s search)
  || match s with
     | [] => false
     | c :: s' => occurs_at_line_start search s' (N.eqb c LF)
     end.

(** C5, as stated, fails: with no [PR_BODY] marker behind it the title
    pattern finds nothing, so [prTitle] is not "Fix bug". *)
Lemma partial_markers_title_not_found :
  ~ (prTitle (parseResponse partial_answer) = lit "Fix bug"
     /\ prBody (parseResponse partial_answer) = []).
Proof. vm_compute. intros [H _]. discriminate H. Qed.

(** C5, amended: parsing the answer with [COMMIT_MESSAGE] and [PR_TITLE] but
    no [PR_BODY] yields the commit message "fix bug", an empty [prTitle] and
    an empty [prBody]. *)
Theorem partial_markers_parse :
  parseResponse partial_answer =
  {| commitMessage := lit "fix bug"; prTitle := []; prBody := [] |}.
Proof. vm_compute. reflexivity. Qed.

(** Without the opener there is no section. *)
Lemma section_between_absent (text opener closer : jsstring) :
  ~ Occurs opener text -> section_between text opener closer = None.
Proof.
  intros H. unfold section_between.
  now rewrite (proj2 (indexOf_None text opener) H).
Qed.

Lemma section_to_end_absent (text opener : jsstring) :
  ~ Occurs opener text -> section_to_end text opener = None.
Proof.
  intros H. unfold section_to_end.
  now rewrite (proj2 (indexOf_None text opener) H).
Qed.

(** C6, as stated, fails: the fallback is the input as it is, not the
    trimmed input. *)
Lemma fallback_is_not_trimmed :
  ~ Occurs COMMIT_MESSAGE (lit " just some text ")
  /\ commitMessage (parseResponse (lit " just some text "))
     <> trim (lit " just some text ").
Proof.
  split.
  - intros H. apply includes_true in H. vm_compute in H. discriminate H.
  - vm_compute. discriminate.
Qed.

(** C6, amended: when the [COMMIT_MESSAGE] marker is absent, [commitMessage]
    is the whole input, unchanged (not trimmed); an absent [PR_TITLE] marker
    gives an empty [prTitle] and an absent [PR_BODY] marker an empty
    [prBody]. *)
Theorem missing_marker_fallback (text : jsstring) :
  (~ Occurs COMMIT_MESSAGE text -> commitMessage (parseResponse text) = text)
  /\ (~ Occurs PR_TITLE text -> prTitle (parseResponse text) = [])
  /\ (~ Occurs PR_BODY text -> prBody (parseResponse text) = []).
Proof.
  rewrite parseResponse_sections. cbn [commitMessage prTitle prBody].
  repeat split; intros H.
  - rewrite section_between_absent; [reflexivity|].
    intros H'. apply H. eapply Occurs_prefix, H'.
  - rewrite section_between_absent; [reflexivity|].
    intros H'. apply H. eapply Occurs_prefix, H'.
  - rewrite section_to_end_absent; [reflexivity|].
    intros H'. apply H. eapply Occurs_prefix, H'.
Qed.

Lemma missing_marker_fallback_witness :
  commitMessage (parseResponse (lit "just some text")) = lit "just some text"
  /\ prTitle (parseResponse (lit "just some text")) = []
  /\ prBody (parseResponse (lit "just some text")) = [].
Proof.
  set (text := lit "just some text").
  assert (No : forall m, includes text m = false -> ~ Occurs m text).
  { intros m E H. apply includes_true in H. rewrite H in E. discriminate E. }
  destruct (missing_marker_fallback text) as [H1 [H2 H3]].
  split; [|split].
  - apply H1, No. vm_compute. reflexivity.
  - apply H2, No. vm_compute. reflexivity.
  - apply H3, No. vm_compute. reflexivity.
Defined.

(** The leftmost occurrence of a literal that ends in [c]: it is where the
    text says when the literal does not occur earlier. *)
Lemma indexOf_at (pre m0 post : jsstring) (c : N) :
  ~ Occurs (m0 ++ [c]) (pre ++ m0) ->
  indexOf (pre ++ (m0 ++ [c]) ++ post) (m0 ++ [c]) = Some (List.length pre).
Proof.
  induction pre as [|d pre IH]; intros No.
  - cbn [app indexOf List.length].
    destruct ((m0 ++ [c]) ++ post) eqn:E.
    + destruct m0; discriminate E.
    + cbn [indexOf]. rewrite <- E, startsWith_app. reflexivity.
  - cbn [app indexOf List.length].
    destruct (startsWith (d :: pre ++ (m0 ++ [c]) ++ post) (m0 ++ [c])) eqn:E.
    + exfalso. apply No. apply startsWith_true in E as [x E].
      assert (E' : ((d :: pre) ++ m0) ++ ([c] ++ post) = (m0 ++ [c]) ++ x).
      { rewrite <- E. cbn [app]. now rewrite <- !app_assoc. }
      apply app_eq_app in E' as [l [[E1 E2] | [E1 E2]]].
      * exists [], l. exact E1.
      * assert (L := f_equal (@List.length N) E1).
        rewrite !length_app in L. cbn [List.length] in L.
        destruct l as [|e l]; [|cbn [List.length] in L; lia].
        rewrite app_nil_r in E1. exists [], []. cbn [app].
        rewrite app_nil_r. symmetry. exact E1.
    + rewrite IH; [reflexivity|].
      intros [a [b H]]. apply No. exists (d :: a), b. cbn [app]. now rewrite H.
Qed.

Lemma section_to_end_at (pre m0 post : jsstring) (c : N) :
  ~ Occurs (m0 ++ [c]) (pre ++ m0) ->
  section_to_end (pre ++ (m0 ++ [c]) ++ post) (m0 ++ [c]) = Some post.
Proof.
  intros No. unfold section_to_end. rewrite indexOf_at by exact No.
  rewrite <- length_app, (app_assoc pre (m0 ++ [c]) post).
  rewrite skipn_app, skipn_all, Nat.sub_diag. reflexivity.
Qed.

Lemma section_between_at (pre m0 body n0 post : jsstring) (c d : N) :
  ~ Occurs (m0 ++ [c]) (pre ++ m0) ->
  ~ Occurs (n0 ++ [d]) (body ++ n0) ->
  section_between (pre ++ (m0 ++ [c]) ++ body ++ (n0 ++ [d]) ++ post)
    (m0 ++ [c]) (n0 ++ [d]) = Some body.
Proof.
  intros No1 No2. unfold section_between. rewrite indexOf_at by exact No1.
  rewrite <- length_app, (app_assoc pre (m0 ++ [c]) _).
  rewrite skipn_app, skipn_all, Nat.sub_diag.
  cbn [skipn app]. rewrite indexOf_at by exact No2.
  rewrite firstn_app, firstn_all, Nat.sub_diag. cbn [firstn].
  now rewrite app_nil_r.
Qed.

Lemma Occurs_length (search s : jsstring) :
  Occurs search s -> List.length search <= List.length s.
Proof. intros [pre [post ->]]. rewrite !length_app. lia. Qed.

Lemma trimStart_snoc (s : jsstring) (c : N) :
  isWhiteSpace c = true ->
  (trimStart (s ++ [c]) = [] /\ trimStart s = [])
  \/ trimStart (s ++ [c]) = trimStart s ++ [c].
Proof.
  intros Hc. induction s as [|x s IH]; cbn [app trimStart].
  - rewrite Hc. now left.
  - destruct (isWhiteSpace x); [exact IH | now right].
Qed.

(** White space at the end does not change the trimmed text. *)
Lemma trim_snoc (s : jsstring) (c : N) :
  isWhiteSpace c = true -> trim (s ++ [c]) = trim s.
Proof.
  intros Hc. unfold trim, trimEnd.
  destruct (@trimStart_snoc s c Hc) as [[E1 E2] | E].
  - now rewrite E1, E2.
  - rewrite E, rev_app_distr. cbn [rev app trimStart]. now rewrite Hc.
Qed.

(** C7: parsing the answer built as COMMIT_MESSAGE, A, a blank line,
    PR_TITLE, B, a blank line, PR_BODY, C gives back exactly A, B and C; and
    for all contents, as long as each marker line of the construction is the
    first of its kind in the text, every field is what stands between its
    marker line and the next one (or the end), trimmed. *)
Theorem parser_round_trip :
  parseResponse (answer_of (lit "A") (lit "B") (lit "C"))
  = {| commitMessage := lit "A"; prTitle := lit "B"; prBody := lit "C" |}
  /\ forall A B C : jsstring,
       ~ Occurs (LF :: PR_TITLE ++ [LF]) (A ++ [LF; LF] ++ PR_TITLE) ->
       ~ Occurs (PR_TITLE ++ [LF])
           (COMMIT_MESSAGE ++ [LF] ++ A ++ [LF; LF] ++ PR_TITLE) ->
       ~ Occurs (LF :: PR_BODY ++ [LF]) (B ++ [LF; LF] ++ PR_BODY) ->
       ~ Occurs (PR_BODY ++ [LF])
           (COMMIT_MESSAGE ++ [LF] ++ A ++ [LF; LF]
              ++ PR_TITLE ++ [LF] ++ B ++ [LF; LF] ++ PR_BODY) ->
       parseResponse (answer_of A B C)
       = {| commitMessage := trim A; prTitle := trim B; prBody := trim C |}.
Proof.
  split; [vm_compute; reflexivity|].
  intros A B C H1 H2 H3 H4.
  assert (WS : isWhiteSpace LF = true) by reflexivity.
  rewrite parseResponse_sections. f_equal.
  - replace (answer_of A B C)
      with ([] ++ (COMMIT_MESSAGE ++ [LF]) ++ (A ++ [LF])
              ++ ((LF :: PR_TITLE) ++ [LF])
              ++ (B ++ [LF; LF] ++ PR_BODY ++ [LF] ++ C))
      by (unfold answer_of; rewrite <- ?app_assoc; reflexivity).
    change (LF :: PR_TITLE ++ [LF]) with ((LF :: PR_TITLE) ++ [LF]).
    rewrite section_between_at.
    + now apply trim_snoc.
    + intros H. apply Occurs_length in H. rewrite length_app in H.
      cbn [app List.length] in H. lia.
    + intros H. apply H1. now rewrite <- app_assoc in H.
  - replace (answer_of A B C)
      with ((COMMIT_MESSAGE ++ [LF] ++ A ++ [LF; LF]) ++ (PR_TITLE ++ [LF])
              ++ (B ++ [LF]) ++ ((LF :: PR_BODY) ++ [LF]) ++ C)
      by (unfold answer_of; rewrite <- ?app_assoc; reflexivity).
    change (LF :: PR_BODY ++ [LF]) with ((LF :: PR_BODY) ++ [LF]).
    rewrite section_between_at.
    + now apply trim_snoc.
    + intros H. apply H2. now rewrite <- ?app_assoc in H.
    + intros H. apply H3. now rewrite <- app_assoc in H.
  - replace (answer_of A B C)
      with ((COMMIT_MESSAGE ++ [LF] ++ A ++ [LF; LF]
               ++ PR_TITLE ++ [LF] ++ B ++ [LF; LF]) ++ (PR_BODY ++ [LF]) ++ C)
      by (unfold answer_of; rewrite <- ?app_assoc; reflexivity).
    rewrite section_to_end_at; [reflexivity|].
    intros H. apply H4. now rewrite <- ?app_assoc in H.
Qed.

Lemma parser_round_trip_witness :
  parseResponse
    (answer_of (lit "fix: a bug") (lit "Fix a bug")
       (lit "## Summary" ++ [LF] ++ lit "- x"))
  = {| commitMessage := lit "fix: a bug";
       prTitle := lit "Fix a bug";
       prBody := lit "## Summary" ++ [LF] ++ lit "- x" |}.
Proof.
  assert (No : forall m s, includes s m = false -> ~ Occurs m s).
  { intros m s E H. apply includes_true in H. rewrite H in E. discriminate E. }
  destruct parser_round_trip as [_ H].
  apply (H (lit "fix: a bug") (lit "Fix a bug")
           (lit "## Summary" ++ [LF] ++ lit "- x"));
    apply No; vm_compute; reflexivity.
Defined.

(** An answer that names [PR_BODY] in the middle of its first line. *)
Definition midline_answer : jsstring :=
  lit "see " ++ PR_BODY ++ [LF] ++ lit "hello".

(** C8, as stated, fails: [PR_BODY] occurs in the answer, never at the start
    of a line, and is taken for the marker all the same. *)
Lemma midline_marker_is_matched :
  occurs_at_line_start PR_BODY midline_answer true = false
  /\ prBody (parseResponse midline_answer) = lit "hello".
Proof. split; vm_compute; reflexivity. Qed.

(** C8, amended: a marker is matched literally and case-sensitively as the
    marker text followed by a line feed, at its leftmost such occurrence,
    whatever stands before it on its line ([pre] is any text, so an
    occurrence in the middle of a line is a section marker too); the section
    then runs up to the first closing marker, which has a line feed before
    and behind it, or for [PR_BODY] to the end, and is trimmed. *)
Theorem markers_match_anywhere (pre body post : jsstring) :
  (~ Occurs (COMMIT_MESSAGE ++ [LF]) (pre ++ COMMIT_MESSAGE) ->
   ~ Occurs (LF :: PR_TITLE ++ [LF]) (body ++ LF :: PR_TITLE) ->
   commitMessage
     (parseResponse
        (pre ++ (COMMIT_MESSAGE ++ [LF]) ++ body ++ (LF :: PR_TITLE ++ [LF]) ++ post))
   = trim body)
  /\ (~ Occurs (PR_TITLE ++ [LF]) (pre ++ PR_TITLE) ->
      ~ Occurs (LF :: PR_BODY ++ [LF]) (body ++ LF :: PR_BODY) ->
      prTitle
        (parseResponse
           (pre ++ (PR_TITLE ++ [LF]) ++ body ++ (LF :: PR_BODY ++ [LF]) ++ post))
      = trim body)
  /\ (~ Occurs (PR_BODY ++ [LF]) (pre ++ PR_BODY) ->
      prBody (parseResponse (pre ++ (PR_BODY ++ [LF]) ++ post)) = trim post).
Proof.
  rewrite !parseResponse_sections. cbn [commitMessage prTitle prBody].
  repeat split.
  - intros No1 No2.
    change (LF :: PR_TITLE ++ [LF]) with ((LF :: PR_TITLE) ++ [LF]).
    now rewrite section_between_at.
  - intros No1 No2.
    change (LF :: PR_BODY ++ [LF]) with ((LF :: PR_BODY) ++ [LF]).
    now rewrite section_between_at.
  - intros No. now rewrite section_to_end_at.
Qed.

Lemma markers_match_anywhere_witness :
  commitMessage
    (parseResponse
       (lit "ok " ++ (COMMIT_MESSAGE ++ [LF]) ++ lit "a"
          ++ (LF :: PR_TITLE ++ [LF]) ++ lit "b"))
  = lit "a"
  /\ prTitle
       (parseResponse
          (lit "ok " ++ (PR_TITLE ++ [LF]) ++ lit "a"
             ++ (LF :: PR_BODY ++ [LF]) ++ lit "b"))
     = lit "a"
  /\ prBody (parseResponse (lit "ok " ++ (PR_BODY ++ [LF]) ++ lit "b")) = lit "b".
Proof.
  assert (No : forall m s, includes s m = false -> ~ Occurs m s).
  { intros m s E H. apply includes_true in H. rewrite H in E. discriminate E. }
  destruct (markers_match_anywhere (lit "ok ") (lit "a") (lit "b")) as [H1 [H2 H3]].
  split; [|split].
  - apply H1; apply No; vm_compute; reflexivity.
  - apply H2; apply No; vm_compute; reflexivity.
  - apply H3; apply No; vm_compute; reflexivity.
Defined.

End Parser.

(** ** The change collector *)

Section ChangeCollector.

(** A repository whose staged diff is a lone line feed. *)
Definition blank_staged : Repository :=
  {| git_diff_cached := inl [LF];
     git_diff := inl (lit "diff --git a/x b/x");
     git_status_short := inl (lit " M x") |}.

(** C9, as stated, fails: a staged diff that is not empty but holds only
    white space is passed over for the unstaged diff. *)
Lemma blank_staged_diff_is_skipped :
  git_diff_cached blank_staged = inl [LF]
  /\ [LF] <> []
  /\ run (getGitDiff blank_staged) <> ([], Returned [LF]).
Proof. repeat split; vm_compute; discriminate. Qed.

(** C9, amended: [getGitDiff] returns the staged diff whenever the staged
    diff is not empty after trimming (it holds a character that is not white
    space), and otherwise returns the unstaged diff. *)
Theorem getGitDiff_staged_else_unstaged
  (repo : Repository) (staged : jsstring) (tr : list Effect) :
  git_diff_cached repo = inl staged ->
  (trim staged <> [] -> getGitDiff repo tr = (tr, Returned staged))
  /\ (trim staged = [] ->
      forall unstaged, git_diff repo = inl unstaged ->
      getGitDiff repo tr = (tr, Returned unstaged)).
Proof.
  intros Hs. unfold getGitDiff, bind. rewrite Hs. cbn [shell ret].
  split.
  - intros Ht. destruct (trim staged); [contradiction | reflexivity].
  - intros Ht unstaged Hu. rewrite Ht, Hu. reflexivity.
Qed.

Lemma getGitDiff_staged_else_unstaged_witness :
  getGitDiff
    {| git_diff_cached := inl (lit "diff --git a/y b/y");
       git_diff := inl []; git_status_short := inl [] |} []
  = ([], Returned (lit "diff --git a/y b/y"))
  /\ getGitDiff blank_staged [] = ([], Returned (lit "diff --git a/x b/x")).
Proof.
  split.
  - destruct (@getGitDiff_staged_else_unstaged
                {| git_diff_cached := inl (lit "diff --git a/y b/y");
                   git_diff := inl []; git_status_short := inl [] |}
                (lit "diff --git a/y b/y") [] eq_refl) as [H _].
    apply H. vm_compute. discriminate.
  - destruct (@getGitDiff_staged_else_unstaged blank_staged [LF] [] eq_refl)
      as [_ H].
    apply H; reflexivity.
Defined.

End ChangeCollector.

(** ** Project detection *)

Section ProjectDetection.

Definition SLASH : N := 47.

(** The last path segment plays no part in the test for a profile. *)
Lemma final_segment_irrelevant (dir final name : jsstring) :
  ~ In SLASH final ->
  includes (dir ++ lit "/" ++ final) (segment name)
  = includes (dir ++ lit "/") (segment name).
Proof.
  intros NoSlash. apply eq_iff_eq_true. rewrite !includes_true. split.
  - intros [pre [post H]].
    rewrite (app_assoc dir), (app_assoc pre) in H.
    apply app_eq_app in H as [l [[E1 E2] | [E1 E2]]].
    + exists pre, l. now rewrite app_assoc.
    + destruct l as [|x l _] using rev_ind.
      * exists pre, []. rewrite !app_nil_r in *. now symmetry.
      * exfalso. apply NoSlash. rewrite E2.
        unfold segment in E1. rewrite !app_assoc in E1.
        apply app_inj_tail in E1 as [_ E1]. cbn in E1. subst x.
        rewrite <- app_assoc. apply in_or_app. right. now left.
  - intros [pre [post H]]. exists pre, (post ++ final).
    rewrite (app_assoc dir), H. now rewrite <- !app_assoc.
Qed.

Lemma detectCompany_loop_final (dir final : jsstring) (names : list jsstring) :
  ~ In SLASH final ->
  detectCompany_loop (dir ++ lit "/" ++ final) names
  = detectCompany_loop (dir ++ lit "/") names.
Proof.
  intros NoSlash. induction names as [|name names IH]; [reflexivity|].
  cbn [detectCompany_loop]. now rewrite final_segment_irrelevant, IH.
Qed.

Lemma detectCompany_loop_none (dir : jsstring) (names : list jsstring) :
  (forall name, In name names -> ~ Occurs (segment name) dir) ->
  detectCompany_loop dir names = None.
Proof.
  induction names as [|name names IH]; intros No; [reflexivity|].
  cbn [detectCompany_loop].
  destruct (includes dir (segment name)) eqn:E.
  - apply includes_true in E. exfalso. apply (No name); [now left | exact E].
  - apply IH. intros n Hn. apply No. now right.
Qed.

(** A directory named like the profile inside a directory named like the
    profile. *)
Definition nested : Env :=
  {| cwd := lit "/acme" ++ lit "/" ++ lit "acme";
     prompts := [lit "acme"];
     repo := blank_staged;
     status_ends := AfterBoth;
     ticket := Some [];
     typed := [];
     prompt_text := fun _ => inl (lit "# Commit format");
     query := fun _ => [] |}.

(** C10, as stated, fails: a working directory whose last segment is the id
    is resolved when the id is an inner segment of it too. *)
Lemma final_segment_with_inner_match :
  cwd nested = lit "/acme" ++ lit "/" ++ lit "acme"
  /\ detectCompany nested = Some (lit "acme").
Proof. split; vm_compute; reflexivity. Qed.

(** C10, amended: resolution tests for "/id/" with a slash on both sides, so
    the last segment of the working directory never makes a match: for every
    working directory that ends in "/id" and has no profile id as an inner
    segment, resolution returns none and the run ends with exit status 1. *)
Theorem final_segment_is_not_matched (env : Env) (dir id : jsstring) :
  cwd env = dir ++ lit "/" ++ id ->
  ~ In SLASH id ->
  (forall name, In name (prompts env) -> ~ Occurs (segment name) (dir ++ lit "/")) ->
  detectCompany env = None
  /\ (exists tr, run (Generate.generate env) = (tr, Exited 1))
  /\ (exists tr, run (GenerateConsole.generate env) = (tr, Exited 1))
  /\ (forall sched, exists tr,
        run (GenerateStreamed.generate env sched) = (tr, Exited 1)).
Proof.
  intros Hcwd NoSlash NoInner.
  assert (D : detectCompany env = None).
  { unfold detectCompany. rewrite Hcwd, detectCompany_loop_final by exact NoSlash.
    now apply detectCompany_loop_none. }
  split; [exact D|].
  unfold run, Generate.generate, GenerateConsole.generate,
    GenerateStreamed.generate, Generate.detect, GenerateConsole.detect.
  rewrite D. repeat split; [| |intros sched];
    destruct (prompts env); eexists; reflexivity.
Qed.

(** The directory of the project itself. *)
Definition in_project_root : Env :=
  {| cwd := lit "/home/u/work" ++ lit "/" ++ lit "acme";
     prompts := [lit "acme"; lit "other"];
     repo := blank_staged;
     status_ends := AfterBoth;
     ticket := Some [];
     typed := [];
     prompt_text := fun _ => inl (lit "# Commit format");
     query := fun _ => [] |}.

Lemma final_segment_is_not_matched_witness :
  detectCompany in_project_root = None
  /\ (exists tr, run (Generate.generate in_project_root) = (tr, Exited 1))
  /\ (exists tr, run (GenerateConsole.generate in_project_root) = (tr, Exited 1))
  /\ (exists tr,
        run (GenerateStreamed.generate in_project_root
               [GenerateStreamed.Ingest; GenerateStreamed.Render])
        = (tr, Exited 1)).
Proof.
  destruct (@final_segment_is_not_matched in_project_root
              (lit "/home/u/work") (lit "acme")) as [H1 [H2 [H3 H4]]].
  - reflexivity.
  - vm_compute. intuition discriminate.
  - intros name Hn H. apply includes_true in H.
    destruct Hn as [<- | [<- | []]]; vm_compute in H; discriminate H.
  - split; [exact H1 | split; [exact H2 | split; [exact H3 | apply H4]]].
Defined.

(** The example of the specification: an inner segment is matched. *)
Example profile_detection :
  detectCompany_loop (lit "/home/u/work/acme/app") [lit "acme"; lit "other"]
  = Some (lit "acme").
Proof. vm_compute. reflexivity. Qed.

End ProjectDetection.

(** ** Folding the stream *)

Section Folding.

Definition is_result (message : SDKMessage) : bool :=
  match message with
  | result_message _ => true
  | _ => false
  end.

(** The payloads of the [text_delta] events of a stretch of the stream, in
    the order they arrive. *)
Fixpoint answer_payloads (msgs : list SDKMessage) : list jsstring :=
  match msgs with
  | [] => []
  | stream_event (content_block_delta (text_delta text)) :: rest =>
      text :: answer_payloads rest
  | _ :: rest => answer_payloads rest
  end.

Definition answer_text (msgs : list SDKMessage) : jsstring :=
  List.concat (answer_payloads msgs).

Lemma answer_text_cons (m : SDKMessage) (msgs : list SDKMessage) :
  answer_text (m :: msgs) = answer_text [m] ++ answer_text msgs.
Proof.
  unfold answer_text.
  destruct m as [[[chunk|text|]| |]|sub|]; cbn [answer_payloads List.concat app];
    try reflexivity.
  now rewrite app_nil_r.
Qed.

Lemma answer_text_app (xs ys : list SDKMessage) :
  answer_text (xs ++ ys) = answer_text xs ++ answer_text ys.
Proof.
  induction xs as [|m xs IH]; [reflexivity|].
  cbn [app]. rewrite answer_text_cons, (answer_text_cons m xs), IH.
  now rewrite app_assoc.
Qed.

Lemma eqb_eq (a b : jsstring) : eqb a b = true <-> a = b.
Proof.
  revert b; induction a as [|x a IH]; intros [|y b]; cbn [eqb];
    try (split; [discriminate | intros H; discriminate H]).
  - split; reflexivity.
  - rewrite andb_true_iff, N.eqb_eq, IH. split.
    + now intros [-> ->].
    + intros [= -> ->]. now split.
Qed.

Lemma eqb_neq (a b : jsstring) : a <> b -> eqb a b = false.
Proof.
  intros H. destruct (eqb a b) eqn:E; [|reflexivity].
  apply eqb_eq in E. contradiction.
Qed.

(** A loop body that goes on at every message but a result and appends the
    payload of a [text_delta] and nothing else. *)
Section Loop.

Variable body : SDKMessage -> jsstring -> Run (flow * jsstring).

Hypothesis body_appends :
  forall message text tr, is_result message = false ->
    exists tr',
      body message text tr
      = (tr', Returned (Continue, text ++ answer_text [message])).

Lemma for_await_prefix (msgs : list SDKMessage) :
  existsb is_result msgs = false ->
  forall text tr, exists tr', forall tail,
    for_await body (msgs ++ tail) text tr
    = for_await body tail (text ++ answer_text msgs) tr'.
Proof.
  induction msgs as [|m msgs IH]; intros NoResult text tr.
  - exists tr. intros tail. cbn [app]. unfold answer_text. cbn.
    now rewrite app_nil_r.
  - cbn [existsb] in NoResult. apply orb_false_iff in NoResult as [Hm Hms].
    destruct (body_appends m text tr Hm) as [tr1 E1].
    destruct (IH Hms (text ++ answer_text [m]) tr1) as [tr2 E2].
    exists tr2. intros tail.
    cbn [app for_await]. unfold bind at 1. rewrite E1.
    rewrite E2, (answer_text_cons m msgs). now rewrite app_assoc.
Qed.

End Loop.

Lemma Generate_body_appends (message : SDKMessage) (text : jsstring)
  (tr : list Effect) :
  is_result message = false ->
  exists tr',
    Generate.on_message message text tr
    = (tr', Returned (Continue, text ++ answer_text [message])).
Proof.
  intros Hm. unfold answer_text.
  destruct message as [[[chunk|answer|]| |]|sub|];
    try discriminate Hm; cbn; rewrite ?app_nil_r; eexists; reflexivity.
Qed.

Lemma GenerateConsole_body_appends (message : SDKMessage) (text : jsstring)
  (tr : list Effect) :
  is_result message = false ->
  exists tr',
    GenerateConsole.on_message message text tr
    = (tr', Returned (Continue, text ++ answer_text [message])).
Proof.
  intros Hm. unfold answer_text.
  destruct message as [[[chunk|answer|]| |]|sub|];
    try discriminate Hm; cbn; rewrite ?app_nil_r; eexists; reflexivity.
Qed.

End Folding.

(** ** The streamed front end: what the turns keep true *)

Import ThinkingQueue GenerateStreamed.

Section StreamedFacts.

Lemma on_message_appends (message : SDKMessage) (s : Session) :
  is_result message = false ->
  exists s',
    GenerateStreamed.on_message message s = (Continue, s')
    /\ responseText s' = responseText s ++ answer_text [message]
    /\ streamDone s' = streamDone s
    /\ streamError s' = streamError s
    /\ incoming s' = incoming s
    /\ main s' = main s.
Proof.
  intros Hm. unfold answer_text.
  destruct message as [[[chunk|answer|]| |]|sub|]; try discriminate Hm;
    cbn [GenerateStreamed.on_message answer_payloads List.concat];
    rewrite ?app_nil_r.
  - eexists. split; [reflexivity|]. destruct (thinkingStarted s); cbn; auto.
  - eexists. split; [reflexivity|]. cbn. rewrite ?app_nil_r. auto.
  - eexists. split; [reflexivity|]. auto.
  - destruct (thinkingStarted s && negb (thinkingDone (thinking s)));
      eexists; (split; [reflexivity|]); cbn; auto.
  - eexists. split; [reflexivity|]. auto.
  - eexists. split; [reflexivity|]. auto.
Qed.

Lemma finish_fields (s : Session) :
  streamDone (finish s) = true
  /\ responseText (finish s) = responseText s
  /\ streamError (finish s) = streamError s
  /\ main (finish s) = main s.
Proof.
  unfold finish. destruct (negb (thinkingDone (thinking s))); cbn; auto.
Qed.

Lemma resume_fields (s : Session) :
  streamDone (resume s) = streamDone s
  /\ responseText (resume s) = responseText s
  /\ streamError (resume s) = streamError s
  /\ incoming (resume s) = incoming s
  /\ thinking (resume s) = thinking s.
Proof.
  unfold resume.
  destruct (main s), (reported_done (thinking s));
    destruct (streamDone s) eqn:Ed; cbn; auto.
Qed.

Lemma ingest_main (s : Session) : main (consumeStream_turn s) = main s.
Proof.
  unfold consumeStream_turn. destruct (streamDone s); [reflexivity|].
  destruct (incoming s) as [|m rest].
  - apply (finish_fields s).
  - destruct m as [ev|sub|].
    + destruct (@on_message_appends (stream_event ev) (set_incoming rest s) eq_refl)
        as [s' [E [_ [_ [_ [_ Hm]]]]]].
      rewrite E. exact Hm.
    + cbn [GenerateStreamed.on_message].
      destruct (negb (eqb sub success)).
      * now rewrite (proj2 (proj2 (proj2 (finish_fields _)))).
      * now rewrite (proj2 (proj2 (proj2 (finish_fields _)))).
    + reflexivity.
Qed.

(** [generate] only goes on past both awaits once [consumeStream] is
    through. *)
Lemma resumed_after_stream (sched : list turn) (s : Session) :
  (main s = Resumed -> streamDone s = true) ->
  main (run_turns sched s) = Resumed -> streamDone (run_turns sched s) = true.
Proof.
  revert s. induction sched as [|t sched IH]; intros s Hs; [exact Hs|].
  cbn [run_turns fold_left]. apply IH. clear IH.
  assert (Inner : forall s', main s' = main s ->
            (streamDone s = true -> streamDone s' = true) ->
            main (resume s') = Resumed -> streamDone (resume s') = true).
  { intros s' Hmain Hdone. unfold resume. rewrite Hmain.
    destruct (main s) eqn:Em.
    - destruct (reported_done (thinking s')); [|cbn; congruence].
      destruct (streamDone s') eqn:Ed; cbn; [auto | discriminate].
    - destruct (streamDone s') eqn:Ed; cbn; [auto | congruence].
    - intros _. apply Hdone, Hs. reflexivity. }
  unfold step. destruct t.
  - apply Inner; [apply ingest_main|].
    unfold consumeStream_turn. intros Hd. now rewrite Hd.
  - apply Inner; [reflexivity | auto].
Qed.

Variables (msgs rest : list SDKMessage) (subtype : jsstring).
Hypothesis no_result : existsb is_result msgs = false.

(** How far the fold has come: either [consumeStream] is still in its loop,
    has taken a first part of [msgs] and holds the text of that part, or it
    is through, holds the text of all of [msgs], and has noted the
    subtype of the result unless that is "success". *)
Definition Folded (s : Session) : Prop :=
  (streamDone s = false
   /\ streamError s = None
   /\ exists taken ahead,
        msgs = taken ++ ahead
        /\ incoming s = ahead ++ result_message subtype :: rest
        /\ responseText s = answer_text taken)
  \/ (streamDone s = true
      /\ responseText s = answer_text msgs
      /\ streamError s
         = if eqb subtype success then None else Some subtype).

Lemma Folded_start :
  Folded (start (msgs ++ result_message subtype :: rest)).
Proof.
  left. cbn. repeat split. exists [], msgs. auto.
Qed.

Lemma Folded_ingest (s : Session) : Folded s -> Folded (consumeStream_turn s).
Proof.
  intros [[Hd [He [taken [ahead [Hm [Hi Hr]]]]]] | H]; unfold consumeStream_turn.
  2: { destruct H as [Hd H]. rewrite Hd. right. auto. }
  rewrite Hd, Hi. destruct ahead as [|m ahead]; cbn [app].
  - right. rewrite app_nil_r in Hm. subst taken.
    cbn [GenerateStreamed.on_message].
    destruct (eqb subtype success); cbn [negb];
      destruct (finish_fields (set_incoming rest s)) as [F1 [F2 [F3 _]]];
      destruct (finish_fields (set_streamError (Some subtype) (set_incoming rest s)))
        as [G1 [G2 [G3 _]]]; repeat split; try assumption.
    + now rewrite F2.
    + now rewrite F3.
    + now rewrite G2.
  - assert (Hres : is_result m = false).
    { rewrite Hm, existsb_app in no_result. cbn [existsb] in no_result.
      apply orb_false_iff in no_result as [_ H].
      now apply orb_false_iff in H as [H _]. }
    destruct (@on_message_appends m
                (set_incoming (ahead ++ result_message subtype :: rest) s) Hres)
      as [s' [E [R [D [Er [I _]]]]]].
    rewrite E. left. repeat split.
    + now rewrite D.
    + now rewrite Er.
    + exists (taken ++ [m]), ahead. repeat split.
      * now rewrite <- app_assoc.
      * now rewrite I.
      * rewrite R, answer_text_app. cbn [responseText set_incoming]. now rewrite Hr.
Qed.

Lemma Folded_step (s : Session) (t : turn) : Folded s -> Folded (step s t).
Proof.
  intros H. unfold step.
  assert (Keep : forall s', Folded s' -> Folded (resume s')).
  { intros s' H'. destruct (resume_fields s') as [R1 [R2 [R3 [R4 _]]]].
    unfold Folded. rewrite R1, R2, R3, R4. exact H'. }
  apply Keep. destruct t; [now apply Folded_ingest | exact H].
Qed.

Lemma Folded_run (sched : list turn) (s : Session) :
  Folded s -> Folded (run_turns sched s).
Proof.
  revert s. induction sched as [|t sched IH]; intros s H; [exact H|].
  cbn [run_turns fold_left]. apply IH, Folded_step, H.
Qed.

(** Once [consumeStream] is through, the text and the noted error are those
    of the whole stretch before the result. *)
Lemma folded_when_done (sched : list turn) :
  let s := run_turns sched (start (msgs ++ result_message subtype :: rest)) in
  streamDone s = true ->
  responseText s = answer_text msgs
  /\ streamError s = if eqb subtype success then None else Some subtype.
Proof.
  intros s Hd.
  destruct (Folded_run sched Folded_start) as [[Hd' _] | [_ H]]; [|exact H].
  fold s in Hd'. congruence.
Qed.

End StreamedFacts.

(** ** The thinking queue: what every operation keeps true *)

Section QueueFacts.

Lemma chunks_app (xs ys : list IteratorResult) :
  chunks (xs ++ ys) = chunks xs ++ chunks ys.
Proof.
  induction xs as [|[chunk|] xs IH]; cbn [app chunks]; [reflexivity| |exact IH].
  now rewrite IH.
Qed.

Definition is_Finished (r : IteratorResult) : bool :=
  match r with Finished => true | Value _ => false end.

Lemma reported_done_snoc (q : ThinkingQueue.t) (rs : list IteratorResult)
  (r : IteratorResult) :
  delivered q = rs ++ [r] ->
  reported_done q = existsb is_Finished rs || is_Finished r.
Proof.
  intros E. unfold reported_done. fold is_Finished. rewrite E, existsb_app.
  cbn [existsb]. now rewrite orb_false_r.
Qed.

(** The shape every reachable queue has: a consumer that waits has an empty
    queue before it that is not yet closed; done is only reported once the
    queue is closed; and done, once reported, is the last result. *)
Record WF (q : ThinkingQueue.t) : Prop := {
  wf_waiting :
    thinkingResolve q = true ->
    thinkingQueue q = [] /\ thinkingDone q = false /\ reported_done q = false;
  wf_reported : reported_done q = true -> thinkingDone q = true;
  wf_delivered :
    delivered q
    = map Value (chunks (delivered q))
        ++ (if reported_done q then [Finished] else [])
}.

Lemma WF_empty : WF ThinkingQueue.empty.
Proof. split; cbn; try discriminate; reflexivity. Qed.

Lemma wf_values (q : ThinkingQueue.t) :
  WF q -> reported_done q = false ->
  delivered q = map Value (chunks (delivered q)).
Proof.
  intros W R. destruct W as [_ _ D]. rewrite R, app_nil_r in D. exact D.
Qed.

Lemma WF_pushThinking (chunk : jsstring) (q : ThinkingQueue.t) :
  WF q -> WF (pushThinking chunk q).
Proof.
  intros W. unfold pushThinking.
  destruct (thinkingResolve q) eqn:Ew.
  - destruct (wf_waiting W Ew) as [Hq [Hd Hr]].
    assert (R : reported_done
                  {| thinkingResolve := false; thinkingQueue := thinkingQueue q;
                     thinkingDone := thinkingDone q;
                     delivered := delivered q ++ [Value chunk] |} = false).
    { erewrite reported_done_snoc by reflexivity.
      unfold reported_done in Hr. fold is_Finished in Hr. now rewrite Hr. }
    split; rewrite ?R; cbn [thinkingResolve thinkingDone delivered];
      try discriminate.
    rewrite chunks_app, map_app, app_nil_r. cbn [chunks map].
    now rewrite <- (wf_values W Hr).
  - split; cbn [thinkingResolve]; [discriminate| |].
    + exact (wf_reported W).
    + exact (wf_delivered W).
Qed.

Lemma WF_endThinking (q : ThinkingQueue.t) : WF q -> WF (endThinking q).
Proof.
  intros W. unfold endThinking.
  destruct (thinkingResolve q) eqn:Ew.
  - destruct (wf_waiting W Ew) as [Hq [Hd Hr]].
    assert (R : reported_done
                  {| thinkingResolve := false; thinkingQueue := thinkingQueue q;
                     thinkingDone := true;
                     delivered := delivered q ++ [Finished] |} = true).
    { erewrite reported_done_snoc by reflexivity. apply orb_true_r. }
    split; rewrite ?R; cbn [thinkingResolve thinkingDone delivered];
      try discriminate; [reflexivity|].
    rewrite chunks_app. cbn [chunks]. rewrite app_nil_r.
    now rewrite <- (wf_values W Hr).
  - split; cbn [thinkingResolve thinkingDone]; [discriminate|reflexivity|].
    exact (wf_delivered W).
Qed.

Lemma WF_pull (q : ThinkingQueue.t) : WF q -> WF (pull q).
Proof.
  intros W. unfold pull.
  destruct (thinkingResolve q) eqn:Ew; [exact W|].
  destruct (reported_done q) eqn:Er; [exact W|]. cbn [orb].
  unfold next. destruct (thinkingQueue q) as [|chunk rest] eqn:Eq.
  - destruct (thinkingDone q) eqn:Ed.
    + assert (R : reported_done
                    {| thinkingResolve := thinkingResolve q; thinkingQueue := [];
                       thinkingDone := true;
                       delivered := delivered q ++ [Finished] |} = true).
      { erewrite reported_done_snoc by reflexivity. apply orb_true_r. }
      split; rewrite ?R; cbn [thinkingResolve thinkingDone delivered];
        [rewrite Ew; discriminate | reflexivity |].
      rewrite chunks_app. cbn [chunks]. rewrite app_nil_r.
      now rewrite <- (wf_values W Er).
    + split; cbn [thinkingResolve thinkingQueue thinkingDone delivered];
        unfold reported_done; cbn [delivered]; fold (reported_done q);
        rewrite ?Er; auto; try discriminate.
      now rewrite app_nil_r, <- (wf_values W Er).
  - assert (R : reported_done
                  {| thinkingResolve := thinkingResolve q; thinkingQueue := rest;
                     thinkingDone := thinkingDone q;
                     delivered := delivered q ++ [Value chunk] |} = false).
    { erewrite reported_done_snoc by reflexivity.
      unfold reported_done in Er. fold is_Finished in Er. now rewrite Er. }
    split; rewrite ?R; cbn [thinkingResolve thinkingDone delivered];
      try discriminate; [rewrite Ew; discriminate|].
    rewrite chunks_app, map_app, app_nil_r. cbn [chunks map].
    now rewrite <- (wf_values W Er).
Qed.

Lemma WF_apply (q : ThinkingQueue.t) (o : op) : WF q -> WF (apply q o).
Proof.
  destruct o; cbn [apply];
    [apply WF_pushThinking | apply WF_endThinking | apply WF_pull].
Qed.

Lemma WF_run_ops (ops : list op) (q : ThinkingQueue.t) :
  WF q -> WF (run_ops ops q).
Proof.
  revert q. induction ops as [|o ops IH]; intros q W; [exact W|].
  cbn [run_ops fold_left]. apply IH, WF_apply, W.
Qed.

(** Nothing is lost and nothing is doubled: an operation leaves the chunks
    delivered so far followed by the chunks in the queue as they were, with
    the pushed chunk, if any, at the end. *)
Lemma accounted_apply (q : ThinkingQueue.t) (o : op) :
  WF q ->
  chunks (delivered (apply q o)) ++ thinkingQueue (apply q o)
  = chunks (delivered q) ++ thinkingQueue q ++ pushed [o].
Proof.
  intros W. destruct o as [chunk| |]; cbn [apply pushed].
  - unfold pushThinking. destruct (thinkingResolve q) eqn:Ew;
      cbn [delivered thinkingQueue].
    + destruct (wf_waiting W Ew) as [Hq _]. rewrite Hq, chunks_app.
      cbn [chunks app]. now rewrite app_nil_r.
    + reflexivity.
  - rewrite app_nil_r. unfold endThinking.
    destruct (thinkingResolve q); cbn [delivered thinkingQueue]; [|reflexivity].
    rewrite chunks_app. cbn [chunks]. now rewrite app_nil_r.
  - rewrite app_nil_r. unfold pull.
    destruct (thinkingResolve q || reported_done q); [reflexivity|].
    unfold next. destruct (thinkingQueue q) as [|chunk rest].
    + destruct (thinkingDone q); cbn [delivered thinkingQueue]; [|reflexivity].
      rewrite chunks_app. cbn [chunks]. now rewrite app_nil_r.
    + cbn [delivered thinkingQueue]. rewrite chunks_app, <- app_assoc.
      reflexivity.
Qed.

Lemma pushed_app (xs ys : list op) : pushed (xs ++ ys) = pushed xs ++ pushed ys.
Proof.
  induction xs as [|[chunk| |] xs IH]; cbn [app pushed]; [reflexivity| |exact IH..].
  now rewrite IH.
Qed.

Lemma accounted_run (ops : list op) (q : ThinkingQueue.t) :
  WF q ->
  chunks (delivered (run_ops ops q)) ++ thinkingQueue (run_ops ops q)
  = chunks (delivered q) ++ thinkingQueue q ++ pushed ops.
Proof.
  revert q. induction ops as [|o ops IH]; intros q W.
  - cbn. now rewrite !app_nil_r.
  - cbn [run_ops fold_left]. fold (run_ops ops (apply q o)).
    rewrite (IH _ (WF_apply o W)).
    change (o :: ops) with ([o] ++ ops).
    rewrite pushed_app, app_assoc, (accounted_apply o W).
    now rewrite <- !app_assoc.
Qed.

(** What the consumer will have been given once it has run to the end of
    a closed queue. *)
Definition outstanding (q : ThinkingQueue.t) : list IteratorResult :=
  if reported_done q then delivered q
  else delivered q ++ map Value (thinkingQueue q) ++ [Finished].

Lemma pull_outstanding (q : ThinkingQueue.t) :
  WF q -> thinkingDone q = true ->
  outstanding (pull q) = outstanding q
  /\ thinkingDone (pull q) = true
  /\ (reported_done q = false ->
      match thinkingQueue q with
      | [] => reported_done (pull q) = true
      | _ :: rest => thinkingQueue (pull q) = rest /\ reported_done (pull q) = false
      end).
Proof.
  intros W Hd. unfold pull.
  destruct (thinkingResolve q) eqn:Ew.
  { destruct (wf_waiting W Ew) as [_ [Hd' _]]. congruence. }
  destruct (reported_done q) eqn:Er; cbn [orb].
  { repeat split; [exact Hd | discriminate]. }
  unfold next, outstanding. rewrite Er.
  destruct (thinkingQueue q) as [|chunk rest] eqn:Eq.
  - rewrite Hd.
    assert (R : reported_done
                  {| thinkingResolve := thinkingResolve q; thinkingQueue := [];
                     thinkingDone := true;
                     delivered := delivered q ++ [Finished] |} = true).
    { erewrite reported_done_snoc by reflexivity. apply orb_true_r. }
    rewrite R. cbn [delivered map app thinkingDone]. auto.
  - assert (R : reported_done
                  {| thinkingResolve := thinkingResolve q; thinkingQueue := rest;
                     thinkingDone := thinkingDone q;
                     delivered := delivered q ++ [Value chunk] |} = false).
    { erewrite reported_done_snoc by reflexivity.
      unfold reported_done in Er. fold is_Finished in Er. now rewrite Er. }
    rewrite R. cbn [delivered thinkingQueue thinkingDone map].
    rewrite <- app_assoc. cbn [app]. auto.
Qed.

Lemma pull_when_reported (q : ThinkingQueue.t) :
  reported_done q = true -> pull q = q.
Proof. intros R. unfold pull. now rewrite R, orb_true_r. Qed.

Lemma pulls_deliver (n : nat) (q : ThinkingQueue.t) :
  WF q -> thinkingDone q = true ->
  List.length (thinkingQueue q) < n ->
  delivered (Nat.iter n pull q) = outstanding q
  /\ reported_done (Nat.iter n pull q) = true.
Proof.
  revert q. induction n as [|n IH]; intros q W Hd Hn; [lia|].
  rewrite Nat.iter_succ_r.
  destruct (pull_outstanding W Hd) as [Ho [Hd' Hq]].
  destruct (reported_done q) eqn:Er.
  - rewrite (pull_when_reported q Er).
    clear IH Ho Hd' Hq Hn. induction n as [|n IHn].
    + cbn. unfold outstanding. now rewrite Er.
    + rewrite Nat.iter_succ_r, (pull_when_reported q Er). exact IHn.
  - specialize (Hq eq_refl). destruct (thinkingQueue q) as [|chunk rest] eqn:Eq.
    + clear IH Hn. rewrite <- Ho.
      assert (Fix : forall k, Nat.iter k pull (pull q) = pull q).
      { induction k as [|k IHk]; [reflexivity|].
        now rewrite Nat.iter_succ_r, (pull_when_reported _ Hq). }
      rewrite Fix. unfold outstanding. now rewrite Hq.
    + destruct Hq as [Hq Hr]. rewrite <- Ho.
      apply IH; [apply WF_pull, W | exact Hd' |].
      rewrite Hq. cbn [List.length] in Hn. lia.
Qed.

Lemma drain_delivers (q : ThinkingQueue.t) :
  WF q -> thinkingDone q = true ->
  delivered (drain q) = outstanding q /\ reported_done (drain q) = true.
Proof.
  intros W Hd. unfold drain. apply pulls_deliver; auto.
Qed.

End QueueFacts.

(** ** The streamed front end: every run with enough turns comes to an end *)

Section StreamedProgress.

Definition ingests (sched : list turn) : nat :=
  List.length (filter (fun t => match t with Ingest => true | Render => false end) sched).

Definition renders (sched : list turn) : nat :=
  List.length (filter (fun t => match t with Render => true | Ingest => false end) sched).

(** What holds of every session reached from [start stream], [bound] being
    the length of [stream]. *)
Record Sane (bound : nat) (s : Session) : Prop := {
  sane_queue : WF (thinking s);
  sane_closed : streamDone s = true -> thinkingDone (thinking s) = true;
  sane_bound :
    List.length (thinkingQueue (thinking s)) + List.length (incoming s) <= bound
}.

Lemma Sane_start (stream : list SDKMessage) :
  Sane (List.length stream) (start stream).
Proof. split; cbn; [apply WF_empty | discriminate | lia]. Qed.

Lemma pushThinking_length (chunk : jsstring) (q : ThinkingQueue.t) :
  List.length (thinkingQueue (pushThinking chunk q))
  <= S (List.length (thinkingQueue q)).
Proof.
  unfold pushThinking. destruct (thinkingResolve q); cbn [thinkingQueue];
    rewrite ?length_app; cbn [List.length]; lia.
Qed.

Lemma endThinking_fields (q : ThinkingQueue.t) :
  thinkingQueue (endThinking q) = thinkingQueue q
  /\ thinkingDone (endThinking q) = true.
Proof. unfold endThinking. destruct (thinkingResolve q); cbn; auto. Qed.

Lemma pull_length (q : ThinkingQueue.t) :
  List.length (thinkingQueue (pull q)) <= List.length (thinkingQueue q).
Proof.
  unfold pull. destruct (thinkingResolve q || reported_done q); [lia|].
  unfold next. destruct (thinkingQueue q) eqn:E.
  - destruct (thinkingDone q); cbn; lia.
  - cbn. lia.
Qed.

Lemma Sane_finish (bound : nat) (s : Session) :
  Sane bound s -> Sane bound (finish s).
Proof.
  intros [W C B]. unfold finish.
  destruct (thinkingDone (thinking s)) eqn:Ed; cbn [negb].
  - split; cbn; auto.
  - destruct (endThinking_fields (thinking s)) as [Eq Ed'].
    split; cbn [thinking set_streamDone set_thinking incoming streamDone].
    + now apply WF_endThinking.
    + intros _. exact Ed'.
    + now rewrite Eq.
Qed.

Lemma Sane_ingest (bound : nat) (s : Session) :
  Sane bound s -> Sane bound (consumeStream_turn s).
Proof.
  intros S0. unfold consumeStream_turn. destruct (streamDone s) eqn:Ed; [exact S0|].
  destruct (incoming s) as [|m rest] eqn:Ei; [now apply Sane_finish|].
  destruct S0 as [W C B]. rewrite Ei in B. cbn [List.length] in B.
  assert (S1 : Sane bound (set_incoming rest s)).
  { split; cbn; auto; lia. }
  pose proof (endThinking_fields (thinking s)) as [Eq Ed'].
  destruct m as [[[chunk|answer|]| |]|sub|]; cbn [GenerateStreamed.on_message];
    try exact S1.
  - pose proof (pushThinking_length chunk (thinking s)) as L.
    cbn [thinkingStarted set_incoming].
    destruct (thinkingStarted s); cbn [negb]; split; cbn; rewrite ?Ed;
      try discriminate; try lia; now apply WF_pushThinking.
  - split; cbn; rewrite ?Ed; auto; try discriminate; lia.
  - cbn [thinkingStarted thinking set_incoming].
    destruct (thinkingStarted s && negb (thinkingDone (thinking s)));
      [|exact S1].
    split; cbn; rewrite ?Eq, ?Ed; try discriminate; try lia.
    now apply WF_endThinking.
  - destruct (negb (eqb sub success)); apply Sane_finish; [|exact S1].
    split; cbn; rewrite ?Ed; auto; try discriminate; lia.
Qed.

Lemma Sane_resume (bound : nat) (s : Session) :
  Sane bound s -> Sane bound (resume s).
Proof.
  intros [W C B]. destruct (resume_fields s) as [R1 [_ [_ [R4 R5]]]].
  split; rewrite ?R1, ?R4, ?R5; assumption.
Qed.

Lemma Sane_step (bound : nat) (s : Session) (t : turn) :
  Sane bound s -> Sane bound (step s t).
Proof.
  intros S0. unfold step. apply Sane_resume. destruct t.
  - now apply Sane_ingest.
  - destruct S0 as [W C B]. split; cbn; auto.
    + now apply WF_pull.
    + intros Hd. apply (pull_outstanding W (C Hd)).
    + pose proof (pull_length (thinking s)). lia.
Qed.

Lemma Sane_run (bound : nat) (sched : list turn) (s : Session) :
  Sane bound s -> Sane bound (run_turns sched s).
Proof.
  revert s. induction sched as [|t sched IH]; intros s S0; [exact S0|].
  cbn [run_turns fold_left]. apply IH, Sane_step, S0.
Qed.

(** How many turns [consumeStream] still needs. *)
Definition to_ingest (s : Session) : nat :=
  if streamDone s then 0 else S (List.length (incoming s)).

Lemma to_ingest_step (s : Session) (t : turn) :
  to_ingest (step s t)
  = match t with Ingest => Nat.pred (to_ingest s) | Render => to_ingest s end
  \/ to_ingest (step s t) = 0.
Proof.
  unfold step, to_ingest.
  destruct (resume_fields
              (match t with
               | Ingest => consumeStream_turn s
               | Render => render s
               end))
    as [R1 [_ [_ [R4 _]]]].
  rewrite R1, R4. destruct t; [|left; reflexivity].
  unfold consumeStream_turn. destruct (streamDone s) eqn:Ed; [left; now rewrite Ed|].
  destruct (incoming s) as [|m rest] eqn:Ei.
  { right. now rewrite (proj1 (finish_fields s)). }
  destruct m as [ev|sub|].
  - destruct (@on_message_appends (stream_event ev) (set_incoming rest s) eq_refl)
      as [s' [E [_ [D [_ [I _]]]]]].
    rewrite E, D, I. cbn. rewrite Ed. left. reflexivity.
  - right. cbn [GenerateStreamed.on_message].
    destruct (negb (eqb sub success)); now rewrite (proj1 (finish_fields _)).
  - cbn. rewrite Ed. left. reflexivity.
Qed.

Lemma to_ingest_run (sched : list turn) (s : Session) :
  to_ingest (run_turns sched s) <= to_ingest s - ingests sched.
Proof.
  revert s. induction sched as [|t sched IH]; intros s.
  - cbn. lia.
  - cbn [run_turns fold_left]. fold (run_turns sched (step s t)).
    specialize (IH (step s t)).
    destruct (to_ingest_step s t) as [E | E]; rewrite E in IH;
      destruct t; unfold ingests in *; cbn [filter List.length] in *; lia.
Qed.

(** How many turns the renderer still needs once the queue is closed. *)
Definition to_render (s : Session) : nat :=
  if reported_done (thinking s) then 0
  else S (List.length (thinkingQueue (thinking s))).

Lemma ingest_when_done (s : Session) : streamDone s = true -> consumeStream_turn s = s.
Proof. intros Hd. unfold consumeStream_turn. now rewrite Hd. Qed.

Lemma to_render_step (bound : nat) (s : Session) (t : turn) :
  Sane bound s -> streamDone s = true ->
  streamDone (step s t) = true
  /\ to_render (step s t)
     = match t with Render => Nat.pred (to_render s) | Ingest => to_render s end.
Proof.
  intros [W C B] Hd. unfold step, to_render.
  destruct (resume_fields
              (match t with
               | Ingest => consumeStream_turn s
               | Render => render s
               end))
    as [R1 [_ [_ [_ R5]]]].
  rewrite R1, R5. destruct t.
  - rewrite (ingest_when_done s Hd). auto.
  - cbn [render streamDone thinking set_thinking]. split; [exact Hd|].
    destruct (pull_outstanding W (C Hd)) as [_ [_ Hq]].
    destruct (reported_done (thinking s)) eqn:Er.
    + now rewrite (pull_when_reported _ Er), Er.
    + specialize (Hq eq_refl).
      destruct (thinkingQueue (thinking s)) as [|chunk rest0].
      * now rewrite Hq.
      * destruct Hq as [Hq Hr]. now rewrite Hr, Hq.
Qed.

Lemma to_render_run (bound : nat) (sched : list turn) (s : Session) :
  Sane bound s -> streamDone s = true ->
  streamDone (run_turns sched s) = true
  /\ to_render (run_turns sched s) <= to_render s - renders sched.
Proof.
  revert s. induction sched as [|t sched IH]; intros s S0 Hd.
  - cbn. split; [exact Hd | lia].
  - cbn [run_turns fold_left]. fold (run_turns sched (step s t)).
    destruct (to_render_step t S0 Hd) as [Hd' E].
    destruct (IH (step s t) (Sane_step t S0) Hd') as [H1 H2].
    split; [exact H1|]. rewrite E in H2.
    destruct t; unfold renders in *; cbn [filter List.length] in *; lia.
Qed.

Lemma resumed_at_once (s : Session) (t : turn) :
  streamDone (step s t) = true ->
  reported_done (thinking (step s t)) = true ->
  main (step s t) = Resumed.
Proof.
  unfold step.
  set (x := match t with
            | Ingest => consumeStream_turn s
            | Render => render s
            end).
  destruct (resume_fields x) as [R1 [_ [_ [_ R5]]]]. rewrite R1, R5.
  intros Hd Hr. unfold resume. rewrite Hd, Hr.
  destruct (main x) eqn:Em; cbn; auto.
Qed.

(** With more turns than the stream has messages [consumeStream] is
    through. *)
Lemma enough_ingests (stream : list SDKMessage) (sched : list turn) :
  List.length stream < ingests sched ->
  streamDone (run_turns sched (start stream)) = true.
Proof.
  intros H. pose proof (to_ingest_run sched (start stream)) as L.
  unfold to_ingest in L. cbn [streamDone incoming start] in L.
  destruct (streamDone (run_turns sched (start stream))); [reflexivity | lia].
Qed.

(** With more turns of [consumeStream] than the stream has messages, and
    then more turns of the renderer than that, both awaits of [generate]
    return. *)
Lemma enough_turns (stream : list SDKMessage) (sched1 sched2 : list turn) :
  List.length stream < ingests sched1 ->
  List.length stream < renders sched2 ->
  main (run_turns (sched1 ++ sched2) (start stream)) = Resumed.
Proof.
  intros H1 H2. unfold run_turns. rewrite fold_left_app.
  fold (run_turns sched1 (start stream)).
  assert (D1 := enough_ingests stream sched1 H1).
  set (s1 := run_turns sched1 (start stream)) in *.
  assert (S1 : Sane (List.length stream) s1) by apply Sane_run, Sane_start.
  destruct sched2 as [|t0 sched2] using rev_ind; [cbn in H2; lia|]. clear IHsched2.
  rewrite fold_left_app. cbn [fold_left].
  fold (run_turns sched2 s1).
  destruct (to_render_run (sched2 ++ [t0]) S1 D1) as [D2 L].
  unfold run_turns in D2, L. rewrite fold_left_app in D2, L.
  cbn [fold_left] in D2, L. fold (run_turns sched2 s1) in D2, L.
  apply resumed_at_once; [exact D2|].
  unfold to_render in L.
  destruct (reported_done (thinking (step (run_turns sched2 s1) t0)));
    [reflexivity|].
  destruct S1 as [_ _ B].
  destruct (reported_done (thinking s1)); lia.
Qed.

End StreamedProgress.

(** ** The generation session *)

Section GenerationSession.

Lemma Generate_loop (msgs rest : list SDKMessage) (subtype : jsstring)
  (tr : list Effect) :
  existsb is_result msgs = false ->
  exists tr',
    for_await Generate.on_message (msgs ++ result_message subtype :: rest) [] tr
    = if eqb subtype success then (tr', Returned (answer_text msgs))
      else (tr' ++ [spinner_stop (lit "Generation failed.");
                    log_error (lit "Failed: " ++ subtype)], Exited 1).
Proof.
  intros NoResult.
  destruct (for_await_prefix Generate.on_message Generate_body_appends
              msgs NoResult [] tr) as [tr' E].
  exists tr'. rewrite E. cbn [app for_await Generate.on_message].
  unfold bind. destruct (eqb subtype success); cbn [negb].
  - reflexivity.
  - unfold emit, exit. now rewrite <- app_assoc.
Qed.

Lemma GenerateConsole_loop (msgs rest : list SDKMessage) (subtype : jsstring)
  (tr : list Effect) :
  existsb is_result msgs = false ->
  exists tr',
    for_await GenerateConsole.on_message
      (msgs ++ result_message subtype :: rest) [] tr
    = if eqb subtype success then (tr', Returned (answer_text msgs))
      else (tr' ++ [console_error (lit "Generation failed: " ++ subtype)],
            Exited 1).
Proof.
  intros NoResult.
  destruct (for_await_prefix GenerateConsole.on_message
              GenerateConsole_body_appends msgs NoResult [] tr) as [tr' E].
  exists tr'. rewrite E. cbn [app for_await GenerateConsole.on_message].
  unfold bind. destruct (eqb subtype success); reflexivity.
Qed.

(** C1: for every stream of messages that holds no result, however its
    [thinking_delta] and [text_delta] events are interleaved, followed by the
    result "success", the text the session ends with is the concatenation of
    the [text_delta] payloads alone, in the order they came; this holds in
    the two plain loops and, whatever turns the renderer takes, in
    [consumeStream], which is through after more turns than the stream has
    messages. *)
Theorem answer_is_text_deltas_only (msgs rest : list SDKMessage) :
  existsb is_result msgs = false ->
  (forall tr, exists tr',
     for_await Generate.on_message
       (msgs ++ result_message success :: rest) [] tr
     = (tr', Returned (answer_text msgs)))
  /\ (forall tr, exists tr',
        for_await GenerateConsole.on_message
          (msgs ++ result_message success :: rest) [] tr
        = (tr', Returned (answer_text msgs)))
  /\ (forall sched,
        streamDone
          (run_turns sched (start (msgs ++ result_message success :: rest)))
        = true ->
        responseText
          (run_turns sched (start (msgs ++ result_message success :: rest)))
        = answer_text msgs)
  /\ (forall sched,
        List.length (msgs ++ result_message success :: rest) < ingests sched ->
        streamDone
          (run_turns sched (start (msgs ++ result_message success :: rest)))
        = true).
Proof.
  intros NoResult. split; [|split; [|split]].
  - intros tr. destruct (@Generate_loop msgs rest success tr NoResult) as [tr' E].
    exists tr'. exact E.
  - intros tr. destruct (@GenerateConsole_loop msgs rest success tr NoResult) as [tr' E].
    exists tr'. exact E.
  - intros sched Hd. now apply (@folded_when_done msgs rest success NoResult sched).
  - intros sched. apply enough_ingests.
Qed.

(** A thought, an answer in two parts around another thought, and the
    result. *)
Definition interleaved : list SDKMessage :=
  [stream_event (content_block_delta (thinking_delta (lit "hm")));
   stream_event (content_block_delta (text_delta (lit "COMMIT_")));
   stream_event (content_block_delta (thinking_delta (lit "so")));
   stream_event (content_block_delta (text_delta (lit "MESSAGE")))].

Lemma answer_is_text_deltas_only_witness :
  (exists tr',
     for_await Generate.on_message
       (interleaved ++ result_message success :: []) [] []
     = (tr', Returned (lit "COMMIT_MESSAGE")))
  /\ (exists tr',
        for_await GenerateConsole.on_message
          (interleaved ++ result_message success :: []) [] []
        = (tr', Returned (lit "COMMIT_MESSAGE")))
  /\ responseText
       (run_turns [Ingest; Render; Ingest; Ingest; Render; Ingest; Ingest;
                   Ingest]
          (start (interleaved ++ result_message success :: [])))
     = lit "COMMIT_MESSAGE".
Proof.
  destruct (@answer_is_text_deltas_only interleaved [] eq_refl)
    as [H1 [H2 [H3 H4]]].
  split; [apply H1 | split; [apply H2 | apply H3]].
  apply H4. vm_compute. lia.
Defined.

(** What [respond] of the streamed front end comes to once [generate] has
    got past both awaits. *)
Lemma Streamed_respond (msgs rest : list SDKMessage) (subtype : jsstring)
  (sched : list turn) :
  existsb is_result msgs = false ->
  main (run_turns sched (start (msgs ++ result_message subtype :: rest)))
  = Resumed ->
  exists tr,
    run (respond (msgs ++ result_message subtype :: rest) sched)
    = if negb (eqb subtype success) && truthy subtype then
        (tr ++ [log_error (lit "Generation failed: " ++ subtype)], Exited 1)
      else if negb (truthy (trim (answer_text msgs))) then
        (tr ++ [log_error (lit "Empty response from Claude.")], Exited 1)
      else (tr, Returned (Some (parseResponse (answer_text msgs)))).
Proof.
  intros NoResult Hmain.
  assert (Hd := Hmain). apply resumed_after_stream in Hd; [|discriminate].
  destruct (@folded_when_done msgs rest subtype NoResult sched Hd) as [Ht He].
  unfold run, respond, bind, emit, emit_all.
  rewrite Hmain, He, Ht. cbn [app].
  exists (spinner_start (lit "Generating with Claude...")
            :: terminal (run_turns sched
                           (start (msgs ++ result_message subtype :: rest)))).
  destruct (eqb subtype success); cbn [negb andb].
  - destruct (truthy (trim (answer_text msgs))); reflexivity.
  - destruct (truthy subtype); [reflexivity|].
    destruct (truthy (trim (answer_text msgs))); reflexivity.
Qed.

(** An answer, then a result whose subtype is the empty string. *)
Definition nameless_failure : list SDKMessage :=
  [stream_event (content_block_delta (text_delta (lit "x")));
   result_message []].

(** Outside the subtypes the SDK declares for a result, all of them words
    that are not empty: the streamed front end keeps the subtype in
    [streamError] and tests it for truthiness, so a result whose subtype
    were the empty string would let the run go on to the parsed answer.
    This is why the statement about failures below asks for a reason that
    is not empty there. *)
Lemma empty_subtype_is_not_a_failure :
  [] <> success
  /\ exists tr parsed,
       run (respond nameless_failure [Ingest; Ingest; Render])
       = (tr, Returned (Some parsed)).
Proof.
  split; [discriminate|]. eexists. eexists. vm_compute. reflexivity.
Qed.

(** C2: for every stream whose first result has a subtype other than
    "success", whatever came before it, the fold stops at that result (what
    follows it plays no part), the subtype is reported, and the run ends
    there with exit status 1.  The reason of a failure is one of the
    subtypes the SDK declares, none of them empty; the streamed front end
    needs that much, and there [generate] gets to its checks after more
    turns of each side than the stream has messages. *)
Theorem failure_is_fatal (msgs rest : list SDKMessage) (reason : jsstring) :
  existsb is_result msgs = false ->
  reason <> success ->
  (exists tr,
     run (Generate.respond (msgs ++ result_message reason :: rest))
     = (tr ++ [spinner_stop (lit "Generation failed.");
               log_error (lit "Failed: " ++ reason)], Exited 1))
  /\ (exists tr,
        run (GenerateConsole.respond (msgs ++ result_message reason :: rest))
        = (tr ++ [console_error (lit "Generation failed: " ++ reason)],
           Exited 1))
  /\ (reason <> [] ->
      forall sched,
        main (run_turns sched (start (msgs ++ result_message reason :: rest)))
        = Resumed ->
        exists tr,
          run (respond (msgs ++ result_message reason :: rest) sched)
          = (tr ++ [log_error (lit "Generation failed: " ++ reason)],
             Exited 1))
  /\ (forall sched1 sched2,
        List.length (msgs ++ result_message reason :: rest) < ingests sched1 ->
        List.length (msgs ++ result_message reason :: rest) < renders sched2 ->
        main (run_turns (sched1 ++ sched2)
                (start (msgs ++ result_message reason :: rest)))
        = Resumed).
Proof.
  intros NoResult NotSuccess. apply eqb_neq in NotSuccess.
  split; [|split; [|split]].
  - destruct (@Generate_loop msgs rest reason
                [spinner_start (lit "Generating with Claude...")] NoResult)
      as [tr' E].
    rewrite NotSuccess in E. exists tr'.
    unfold run, Generate.respond, bind, emit. cbn [app]. now rewrite E.
  - destruct (@GenerateConsole_loop msgs rest reason
                [console_log (LF :: lit "Generating with Claude..." ++ [LF])]
                NoResult) as [tr' E].
    rewrite NotSuccess in E. exists tr'.
    unfold run, GenerateConsole.respond, bind, emit. cbn [app]. now rewrite E.
  - intros NotEmpty sched Hmain.
    destruct (@Streamed_respond msgs rest reason sched NoResult Hmain) as [tr E].
    exists tr. rewrite E, NotSuccess.
    destruct reason; [contradiction | reflexivity].
  - intros sched1 sched2. apply enough_turns.
Qed.

(** An answer that has begun, then the result "error_max_turns". *)
Definition cut_short : list SDKMessage :=
  [stream_event (content_block_delta (text_delta (lit "COMMIT_MESSAGE")))].

Lemma failure_is_fatal_witness :
  (exists tr,
     run (Generate.respond
            (cut_short ++ result_message (lit "error_max_turns") :: []))
     = (tr ++ [spinner_stop (lit "Generation failed.");
               log_error (lit "Failed: " ++ lit "error_max_turns")], Exited 1))
  /\ (exists tr,
        run (GenerateConsole.respond
               (cut_short ++ result_message (lit "error_max_turns") :: []))
        = (tr ++ [console_error
                    (lit "Generation failed: " ++ lit "error_max_turns")],
           Exited 1))
  /\ (exists tr,
        run (respond (cut_short ++ result_message (lit "error_max_turns") :: [])
               ([Render; Ingest; Ingest; Ingest] ++ [Render; Render; Render]))
        = (tr ++ [log_error (lit "Generation failed: " ++ lit "error_max_turns")],
           Exited 1)).
Proof.
  destruct (@failure_is_fatal cut_short [] (lit "error_max_turns") eq_refl)
    as [H1 [H2 [H3 H4]]].
  - vm_compute. discriminate.
  - split; [exact H1 | split; [exact H2|]].
    apply H3; [vm_compute; discriminate|].
    apply (H4 [Render; Ingest; Ingest; Ingest] [Render; Render; Render]);
      vm_compute; lia.
Defined.

(** C3: for every stream with no [text_delta] in it that ends in the result
    "success", the run reports "Empty response from Claude." (not a failure
    of the service) and ends with exit status 1 instead of showing an empty
    answer; the streamed front end gets to that check after more turns of
    each side than the stream has messages. *)
Theorem empty_success_is_an_error (msgs rest : list SDKMessage) :
  existsb is_result msgs = false ->
  answer_payloads msgs = [] ->
  (exists tr,
     run (Generate.respond (msgs ++ result_message success :: rest))
     = (tr ++ [spinner_stop (lit "Generation complete.");
               log_error (lit "Empty response from Claude.")], Exited 1))
  /\ (exists tr,
        run (GenerateConsole.respond (msgs ++ result_message success :: rest))
        = (tr ++ [stderr_write [LF];
                  console_error (lit "Empty response from Claude.")], Exited 1))
  /\ (forall sched,
        main (run_turns sched (start (msgs ++ result_message success :: rest)))
        = Resumed ->
        exists tr,
          run (respond (msgs ++ result_message success :: rest) sched)
          = (tr ++ [log_error (lit "Empty response from Claude.")], Exited 1))
  /\ (forall sched1 sched2,
        List.length (msgs ++ result_message success :: rest) < ingests sched1 ->
        List.length (msgs ++ result_message success :: rest) < renders sched2 ->
        main (run_turns (sched1 ++ sched2)
                (start (msgs ++ result_message success :: rest)))
        = Resumed).
Proof.
  intros NoResult NoAnswer.
  assert (Empty : answer_text msgs = []).
  { unfold answer_text. now rewrite NoAnswer. }
  split; [|split; [|split]].
  - destruct (@Generate_loop msgs rest success
                [spinner_start (lit "Generating with Claude...")] NoResult)
      as [tr' E].
    change (eqb success success) with true in E. cbv iota in E.
    exists tr'. unfold run, Generate.respond, bind, emit. cbn [app].
    rewrite E, Empty. cbn. now rewrite <- app_assoc.
  - destruct (@GenerateConsole_loop msgs rest success
                [console_log (LF :: lit "Generating with Claude..." ++ [LF])]
                NoResult) as [tr' E].
    change (eqb success success) with true in E. cbv iota in E.
    exists tr'. unfold run, GenerateConsole.respond, bind, emit. cbn [app].
    rewrite E, Empty. cbn. now rewrite <- app_assoc.
  - intros sched Hmain.
    destruct (@Streamed_respond msgs rest success sched NoResult Hmain) as [tr E].
    exists tr. rewrite E, Empty. reflexivity.
  - intros sched1 sched2. apply enough_turns.
Qed.

(** Thinking only, then the result "success". *)
Definition thinking_only : list SDKMessage :=
  [stream_event (content_block_delta (thinking_delta (lit "hm")));
   stream_event content_block_stop].

Lemma empty_success_is_an_error_witness :
  (exists tr,
     run (Generate.respond (thinking_only ++ result_message success :: []))
     = (tr ++ [spinner_stop (lit "Generation complete.");
               log_error (lit "Empty response from Claude.")], Exited 1))
  /\ (exists tr,
        run (GenerateConsole.respond
               (thinking_only ++ result_message success :: []))
        = (tr ++ [stderr_write [LF];
                  console_error (lit "Empty response from Claude.")], Exited 1))
  /\ (exists tr,
        run (respond (thinking_only ++ result_message success :: [])
               ([Render; Ingest; Render; Ingest; Ingest; Ingest]
                  ++ [Render; Render; Render; Render]))
        = (tr ++ [log_error (lit "Empty response from Claude.")], Exited 1)).
Proof.
  destruct (@empty_success_is_an_error thinking_only [] eq_refl eq_refl)
    as [H1 [H2 [H3 H4]]].
  split; [exact H1 | split; [exact H2|]].
  apply H3, H4; vm_compute; lia.
Defined.

End GenerationSession.

(** ** The thinking queue: order and loss *)

Section QueueOrder.

Lemma producer_split (ops : list op) (cs : list jsstring) :
  producer ops = map Push cs ++ [End] ->
  exists before after,
    ops = before ++ End :: after
    /\ producer before = map Push cs
    /\ producer after = [].
Proof.
  revert cs. induction ops as [|o ops IH]; intros cs H.
  - destruct cs; discriminate H.
  - destruct o as [chunk| |]; cbn [producer filter] in H.
    + destruct cs as [|c cs]; cbn [map app] in H; [discriminate H|].
      injection H as -> H. destruct (IH cs H) as [before [after [E [P1 P2]]]].
      exists (Push c :: before), after. cbn [producer filter app].
      fold (producer before). rewrite P1, E. auto.
    + destruct cs as [|c cs]; cbn [map app] in H; [|discriminate H].
      injection H as H. exists [], ops. auto.
    + destruct (IH cs H) as [before [after [E [P1 P2]]]].
      exists (Pull :: before), after. cbn [producer filter app].
      fold (producer before). rewrite E. auto.
Qed.

(** While the stream side only pushes, the queue stays open and holds, with
    what was delivered, exactly the chunks pushed. *)
Lemma pushes_only (ops : list op) (cs : list jsstring) (q : ThinkingQueue.t) :
  producer ops = map Push cs ->
  thinkingDone q = false ->
  thinkingDone (run_ops ops q) = false /\ pushed ops = cs.
Proof.
  revert cs q. induction ops as [|o ops IH]; intros cs q H Hd.
  - destruct cs; [auto | discriminate H].
  - cbn [run_ops fold_left]. fold (run_ops ops (apply q o)).
    destruct o as [chunk| |]; cbn [producer filter] in H; cbn [pushed apply].
    + destruct cs as [|c cs]; [discriminate H|]. injection H as -> H.
      destruct (IH cs (pushThinking c q) H) as [H1 H2].
      * unfold pushThinking. now destruct (thinkingResolve q).
      * split; [exact H1 | now rewrite H2].
    + destruct cs; discriminate H.
    + apply IH; [exact H|].
      unfold pull. destruct (thinkingResolve q || reported_done q); [exact Hd|].
      unfold next. destruct (thinkingQueue q); [|exact Hd].
      now rewrite Hd.
Qed.

(** Turns of the consumer alone leave what it will have been given in the
    end as it was. *)
Lemma pulls_only (ops : list op) (q : ThinkingQueue.t) :
  producer ops = [] ->
  WF q -> thinkingDone q = true ->
  outstanding (run_ops ops q) = outstanding q
  /\ thinkingDone (run_ops ops q) = true.
Proof.
  revert q. induction ops as [|o ops IH]; intros q H W Hd; [auto|].
  destruct o; cbn [producer filter] in H; try discriminate H.
  cbn [run_ops fold_left apply]. fold (run_ops ops (pull q)).
  destruct (pull_outstanding W Hd) as [Ho [Hd' _]].
  destruct (IH (pull q) H (WF_pull W) Hd') as [H1 H2].
  split; [now rewrite H1 | exact H2].
Qed.

Lemma outstanding_endThinking (q : ThinkingQueue.t) :
  WF q -> thinkingDone q = false ->
  outstanding (endThinking q)
  = map Value (chunks (delivered q) ++ thinkingQueue q) ++ [Finished].
Proof.
  intros W Hd.
  assert (Hr : reported_done q = false).
  { destruct (reported_done q) eqn:Er; [|reflexivity].
    rewrite (wf_reported W Er) in Hd. discriminate Hd. }
  unfold outstanding, endThinking.
  destruct (thinkingResolve q) eqn:Ew.
  - destruct (wf_waiting W Ew) as [Hq _].
    erewrite reported_done_snoc by reflexivity. rewrite orb_true_r.
    cbn [delivered]. rewrite Hq, app_nil_r. now rewrite <- (wf_values W Hr).
  - unfold reported_done. cbn [delivered thinkingQueue].
    fold (reported_done q). rewrite Hr, map_app, <- app_assoc.
    now rewrite <- (wf_values W Hr).
Qed.

(** Two thoughts with the end of a block between them. *)
Definition two_thoughts : list SDKMessage :=
  [stream_event (content_block_delta (thinking_delta (lit "a")));
   stream_event content_block_stop;
   stream_event (content_block_delta (thinking_delta (lit "b")));
   result_message success].

(** C4: the code loses a chunk on [two_thoughts] when the renderer keeps
    up with the stream.  The consumer asks, gets "a", asks again;
    [endThinking], called at the end of the block, answers with done; "b" is
    then pushed into the queue, [pushThinking] having no guard on
    [thinkingDone], and stays there: the consumer has been given "a" and
    done, and [generate] goes on. *)
Lemma chunk_after_done_is_not_delivered :
  pushed [Pull; Push (lit "a"); Pull; End; Push (lit "b")] = [lit "a"; lit "b"]
  /\ delivered
       (drain (run_ops [Pull; Push (lit "a"); Pull; End; Push (lit "b")]
                 ThinkingQueue.empty))
     = [Value (lit "a"); Finished]
  /\ main (run_turns [Render; Ingest; Render; Ingest; Ingest; Ingest]
             (start two_thoughts)) = Resumed
  /\ delivered
       (drain
          (thinking
             (run_turns [Render; Ingest; Render; Ingest; Ingest; Ingest]
                (start two_thoughts))))
     = [Value (lit "a"); Finished]
  /\ thinkingQueue
       (drain
          (thinking
             (run_turns [Render; Ingest; Render; Ingest; Ingest; Ingest]
                (start two_thoughts))))
     = [lit "b"].
Proof. repeat split; vm_compute; reflexivity. Qed.

(** The same stream with the renderer behind: it has not been told done
    when "b" is pushed, and is given both chunks.  Whether the late chunk is
    shown depends on the order of the turns. *)
Example late_chunk_reaches_a_renderer_that_is_behind :
  delivered
    (thinking
       (run_turns [Ingest; Ingest; Ingest; Ingest; Render; Render; Render]
          (start two_thoughts)))
  = [Value (lit "a"); Value (lit "b"); Finished].
Proof. vm_compute. reflexivity. Qed.

(** X28: what the queue does keep.  After any operations the chunks pushed
    are the chunks delivered followed by the chunks still queued, in push
    order; [pushThinking] takes a chunk at once in every state, whatever
    the consumer does; once the queue is closed and done has not been
    reported, a consumer that goes on asking is given the chunks still
    queued, in order, and then done; so when the stream side pushes and then
    calls [endThinking], and pushes nothing after that, every chunk is
    delivered exactly once, in push order, before done, under every
    interleaving of the consumer's turns. *)
Theorem thinking_queue_ordered_lossless (ops : list op) :
  let q := run_ops ops ThinkingQueue.empty in
  pushed ops = chunks (delivered q) ++ thinkingQueue q
  /\ (forall chunk,
        chunks (delivered (pushThinking chunk q))
          ++ thinkingQueue (pushThinking chunk q)
        = pushed ops ++ [chunk])
  /\ (thinkingDone q = true -> reported_done q = false ->
      delivered (drain q)
      = delivered q ++ map Value (thinkingQueue q) ++ [Finished])
  /\ (forall cs, producer ops = map Push cs ++ [End] ->
      delivered (drain q) = map Value cs ++ [Finished]).
Proof.
  intros q.
  assert (W : WF q) by apply WF_run_ops, WF_empty.
  assert (A : pushed ops = chunks (delivered q) ++ thinkingQueue q).
  { symmetry. apply (accounted_run ops WF_empty). }
  split; [exact A|]. split; [|split].
  - intros chunk. rewrite A, <- app_assoc.
    apply (accounted_apply (Push chunk) W).
  - intros Hd Hr. destruct (drain_delivers W Hd) as [E _].
    rewrite E. unfold outstanding. now rewrite Hr.
  - intros cs H. destruct (@producer_split ops cs H) as [before [after [E [P1 P2]]]].
    subst q. rewrite E. unfold run_ops. rewrite fold_left_app.
    cbn [fold_left apply].
    fold (run_ops before ThinkingQueue.empty).
    set (q1 := run_ops before ThinkingQueue.empty).
    fold (run_ops after (endThinking q1)).
    assert (W1 : WF q1) by apply WF_run_ops, WF_empty.
    destruct (@pushes_only before cs ThinkingQueue.empty P1 eq_refl) as [D1 Pu].
    fold q1 in D1.
    assert (A1 : chunks (delivered q1) ++ thinkingQueue q1 = cs).
    { unfold q1. rewrite (accounted_run before WF_empty). now rewrite Pu. }
    destruct (@pulls_only after (endThinking q1) P2 (WF_endThinking W1)
                (proj2 (endThinking_fields q1))) as [O D].
    destruct (drain_delivers
                (WF_run_ops after (WF_endThinking W1)) D) as [Dr _].
    now rewrite Dr, O, (outstanding_endThinking W1 D1), A1.
Qed.

Lemma thinking_queue_ordered_lossless_witness :
  delivered
    (drain (run_ops [Push (lit "a"); Pull; Pull; Push (lit "b");
                     Push (lit "c"); Pull; End]
              ThinkingQueue.empty))
  = [Value (lit "a"); Value (lit "b"); Value (lit "c"); Finished]
  /\ delivered
       (drain (run_ops [Push (lit "a"); End] ThinkingQueue.empty))
     = [Value (lit "a"); Finished].
Proof.
  split.
  - destruct (thinking_queue_ordered_lossless
                [Push (lit "a"); Pull; Pull; Push (lit "b"); Push (lit "c");
                 Pull; End]) as [_ [_ [_ H]]].
    apply (H [lit "a"; lit "b"; lit "c"]). reflexivity.
  - destruct (thinking_queue_ordered_lossless [Push (lit "a"); End])
      as [_ [_ [H _]]].
    apply H; reflexivity.
Defined.

End QueueOrder.

(** * Further properties of the code *)

(** ** White space and [trim] *)

Section Trim.

(** Nothing but white space. *)
Definition blank (s : jsstring) : bool := forallb isWhiteSpace s.

(** No white space at the start. *)
Definition clean_start (s : jsstring) : Prop :=
  match s with
  | [] => True
  | c :: _ => isWhiteSpace c = false
  end.

Lemma trimStart_split (s : jsstring) :
  exists w, s = w ++ trimStart s /\ blank w = true /\ clean_start (trimStart s).
Proof.
  induction s as [|c s [w [E [B C]]]].
  - exists []. cbn. auto.
  - cbn [trimStart]. destruct (isWhiteSpace c) eqn:Ec.
    + exists (c :: w). cbn [app blank forallb]. rewrite Ec. fold (blank w).
      repeat split; [now rewrite <- E | exact B | exact C].
    + exists []. cbn. auto.
Qed.

Lemma trimStart_clean (s : jsstring) : clean_start s -> trimStart s = s.
Proof. destruct s as [|c s]; cbn; [reflexivity|]. now intros ->. Qed.

Lemma blank_app (a b : jsstring) : blank (a ++ b) = blank a && blank b.
Proof. apply forallb_app. Qed.

Lemma blank_rev (s : jsstring) : blank (rev s) = blank s.
Proof.
  induction s as [|c s IH]; [reflexivity|].
  cbn [rev]. rewrite blank_app, IH. cbn. rewrite andb_true_r. apply andb_comm.
Qed.

Lemma clean_blank_nil (s : jsstring) : clean_start s -> blank s = true -> s = [].
Proof.
  destruct s as [|c s]; [reflexivity|]. cbn. intros ->. discriminate.
Qed.

(** The trimmed text with the white space cut off on both sides. *)
Lemma trim_split (s : jsstring) :
  exists w1 w2,
    s = w1 ++ trim s ++ w2
    /\ blank w1 = true /\ blank w2 = true
    /\ clean_start (trim s) /\ clean_start (rev (trim s)).
Proof.
  unfold trim, trimEnd.
  destruct (trimStart_split s) as [w1 [E1 [B1 C1]]].
  destruct (trimStart_split (rev (trimStart s))) as [w2 [E2 [B2 C2]]].
  set (u := trimStart s) in *. set (v := trimStart (rev u)) in *.
  assert (Eu : u = rev v ++ rev w2).
  { rewrite <- rev_app_distr, <- E2. symmetry. apply rev_involutive. }
  exists w1, (rev w2). repeat split.
  - now rewrite <- Eu.
  - exact B1.
  - now rewrite blank_rev.
  - destruct (rev v) as [|c r] eqn:Er; [exact I|].
    rewrite Eu in C1. exact C1.
  - now rewrite rev_involutive.
Qed.

Lemma trim_idempotent (s : jsstring) : trim (trim s) = trim s.
Proof.
  destruct (trim_split s) as [_ [_ [_ [_ [_ [C1 C2]]]]]].
  set (t := trim s) in *. unfold trim, trimEnd.
  rewrite (trimStart_clean t C1), (trimStart_clean (rev t) C2).
  apply rev_involutive.
Qed.

Lemma trimStart_blank (s : jsstring) : blank s = true -> trimStart s = [].
Proof.
  induction s as [|c s IH]; [reflexivity|]. cbn.
  intros H. apply andb_true_iff in H as [-> H]. now apply IH.
Qed.

(** [!s.trim()] holds exactly of the texts that are nothing but white
    space. *)
Lemma trim_empty_iff (s : jsstring) : trim s = [] <-> blank s = true.
Proof.
  split.
  - intros E. destruct (trim_split s) as [w1 [w2 [Es [B1 [B2 _]]]]].
    rewrite E in Es. cbn [app] in Es. rewrite Es, blank_app, B1, B2. reflexivity.
  - intros B. unfold trim, trimEnd. now rewrite (trimStart_blank s B).
Qed.

Lemma truthy_trim (s : jsstring) : truthy (trim s) = negb (blank s).
Proof.
  destruct (blank s) eqn:B.
  - apply trim_empty_iff in B. now rewrite B.
  - destruct (trim s) eqn:E; [|reflexivity].
    apply trim_empty_iff in E. congruence.
Qed.

End Trim.

(** ** Reading several lines *)

Section MultiLine.

Lemma read_lines_kept (more rest lines : list jsstring) :
  lines <> [] ->
  Forall (fun line => line <> []) more ->
  Input.read_lines (more ++ [] :: rest) lines = lines ++ more
  /\ Input.read_lines more lines = lines ++ more.
Proof.
  revert lines. induction more as [|line more IH]; intros lines Hl Hm.
  - cbn. destruct lines; [contradiction|]. now rewrite app_nil_r.
  - inversion Hm as [|? ? Hline Hmore]; subst.
    destruct line as [|c line]; [contradiction|].
    cbn [app Input.read_lines].
    destruct (IH (lines ++ [c :: line])) as [H1 H2]; [|exact Hmore|].
    + destruct lines; discriminate.
    + split; [etransitivity; [exact H1|] | etransitivity; [exact H2|]];
        now rewrite <- app_assoc.
Qed.

(** X1: [readMultiLine] reads up to the first empty line that comes after
    the first line, or up to the end of the input, and returns the lines
    before it joined by line feeds and trimmed; what follows the empty line
    is not read, and the first line is kept even when it is empty. *)
Theorem readMultiLine_until_empty_line
  (message first : jsstring) (more rest : list jsstring) (tr : list Effect) :
  Forall (fun line => line <> []) more ->
  Input.readMultiLine message (first :: more ++ [] :: rest) tr
  = (tr ++ [console_error (message ++ lit " (press Enter twice to finish)")],
     Returned (trim (join [LF] (first :: more))))
  /\ Input.readMultiLine message (first :: more) tr
     = (tr ++ [console_error (message ++ lit " (press Enter twice to finish)")],
        Returned (trim (join [LF] (first :: more)))).
Proof.
  intros Hm. unfold Input.readMultiLine, bind, emit, ret.
  assert (E : forall input,
            Input.read_lines (first :: input) []
            = Input.read_lines input [first]).
  { intros input. cbn. now destruct first. }
  rewrite (E (more ++ [] :: rest)), (E more).
  destruct (@read_lines_kept more rest [first]) as [H1 H2];
    [discriminate | exact Hm |].
  now rewrite H1, H2.
Qed.

Lemma readMultiLine_until_empty_line_witness :
  Input.readMultiLine (lit "Summary:")
    ([] :: [lit "fix login"; lit " more"] ++ [] :: [lit "ignored"]) []
  = ([console_error (lit "Summary: (press Enter twice to finish)")],
     Returned (lit "fix login" ++ [LF] ++ lit " more")).
Proof.
  destruct (@readMultiLine_until_empty_line (lit "Summary:") []
              [lit "fix login"; lit " more"] [lit "ignored"] []) as [H _].
  - repeat constructor; discriminate.
  - exact H.
Defined.

(** X2: whatever is typed, the text [readMultiLine] returns has no white
    space at its start and none at its end. *)
Theorem readMultiLine_is_trimmed
  (message : jsstring) (input : list jsstring) (tr : list Effect) :
  exists text,
    Input.readMultiLine message input tr
    = (tr ++ [console_error (message ++ lit " (press Enter twice to finish)")],
       Returned text)
    /\ clean_start text /\ clean_start (rev text) /\ trim text = text.
Proof.
  eexists. split; [reflexivity|].
  destruct (trim_split (join [LF] (Input.read_lines input [])))
    as [_ [_ [_ [_ [_ [C1 C2]]]]]].
  repeat split; [exact C1 | exact C2 | apply trim_idempotent].
Qed.

End MultiLine.

(** ** The prompt files *)

Section PromptFiles.

Lemma replace_md_end_file (name : jsstring) :
  Prompts.replace_md_end (Prompts.prompt_file name) = name.
Proof.
  unfold Prompts.prompt_file.
  induction name as [|c name IH]; [reflexivity|].
  cbn [app Prompts.replace_md_end].
  rewrite eqb_neq, IH; [reflexivity|].
  intros E. apply (f_equal (@List.length N)) in E.
  cbn [List.length] in E. rewrite length_app in E. cbn in E. lia.
Qed.

(** X3: the names [getAvailablePrompts] gives for the scanned files
    "name.md" are the names themselves, in scan order, also for a name that
    itself ends in ".md"; and when every scanned file ends in ".md", the
    file [generate] reads for any of these names is one of the scanned
    files. *)
Theorem prompt_names_round_trip (names : list jsstring) :
  Prompts.getAvailablePrompts (map Prompts.prompt_file names) = names
  /\ forall scan company,
       (forall file, In file scan -> exists name, file = Prompts.prompt_file name) ->
       In company (Prompts.getAvailablePrompts scan) ->
       In (Prompts.prompt_file company) scan.
Proof.
  split.
  - unfold Prompts.getAvailablePrompts. rewrite map_map.
    induction names as [|n names IH]; [reflexivity|].
    cbn [map]. now rewrite replace_md_end_file, IH.
  - intros scan company Hscan Hin. unfold Prompts.getAvailablePrompts in Hin.
    apply in_map_iff in Hin as [file [E Hf]].
    destruct (Hscan file Hf) as [name ->].
    rewrite replace_md_end_file in E. now subst.
Qed.

Lemma prompt_names_round_trip_witness :
  In (Prompts.prompt_file (lit "notes.md"))
    [lit "acme.md"; lit "notes.md.md"].
Proof.
  destruct (prompt_names_round_trip []) as [_ H].
  apply (H [lit "acme.md"; lit "notes.md.md"] (lit "notes.md")).
  - intros file [<- | [<- | []]];
      [exists (lit "acme") | exists (lit "notes.md")]; reflexivity.
  - vm_compute. auto.
Defined.

(** X4: [detectCompany] returns the first name, in scan order, that occurs
    in the working directory with a slash on both sides, and nothing exactly
    when no name does. *)
Theorem detectCompany_first_match (dir : jsstring) (names : list jsstring) :
  match detectCompany_loop dir names with
  | Some name =>
      exists before after,
        names = before ++ name :: after
        /\ Occurs (segment name) dir
        /\ forall n, In n before -> ~ Occurs (segment n) dir
  | None => forall n, In n names -> ~ Occurs (segment n) dir
  end.
Proof.
  induction names as [|name names IH]; cbn [detectCompany_loop].
  - intros n [].
  - destruct (includes dir (segment name)) eqn:E.
    + exists [], names. repeat split; [now apply includes_true | intros n []].
    + assert (No : ~ Occurs (segment name) dir).
      { intros H. apply includes_true in H. congruence. }
      destruct (detectCompany_loop dir names) as [found|].
      * destruct IH as [before [after [-> [Ho Hb]]]].
        exists (name :: before), after. repeat split; [exact Ho|].
        intros n [<- | Hn]; [exact No | now apply Hb].
      * intros n [<- | Hn]; [exact No | now apply IH].
Qed.

End PromptFiles.

(** ** Before the service is asked *)

Section Preflight.

Definition no_changes : jsstring :=
  lit "No git changes detected. Stage or modify files first.".

(** The summary [readMultiLine] makes of the lines typed. *)
Definition summary_of (env : Env) : jsstring :=
  trim (join [LF] (Input.read_lines (typed env) [])).

Definition press_enter_twice : jsstring := lit " (press Enter twice to finish)".

Lemma collect_ok (env : Env) (staged unstaged status : jsstring)
  (tr : list Effect) :
  git_diff_cached (repo env) = inl staged ->
  (blank staged = true -> git_diff (repo env) = inl unstaged) ->
  git_status_short (repo env) = inl status ->
  collect env tr
  = (tr, Returned (if blank staged then unstaged else staged, status)).
Proof.
  intros Hs Hu Ht.
  unfold collect, getGitDiff, getChangedFiles, bind.
  rewrite Hs, Ht. cbn [shell ret]. rewrite truthy_trim.
  destruct (status_ends env), (blank staged); cbn [negb];
    try reflexivity; now rewrite (Hu eq_refl).
Qed.

(** What [generate] does from the ticket question on. *)
Definition Generate_asks (env : Env) (company diff status : jsstring)
  (before : list Effect) : list Effect * result ParsedResponse :=
  match ticket env with
  | None => (before ++ [cancel (lit "Cancelled.")], Exited 0)
  | Some answer =>
      let tr :=
        before
          ++ [log_step
                (lit "Paste the JIRA ticket summary (press Enter twice to finish):");
              console_error press_enter_twice] in
      match prompt_text env (Prompts.prompt_file company) with
      | inl text =>
          Generate.respond
            (query env (userPrompt text diff status answer (summary_of env))) tr
      | inr err => (tr, Thrown err)
      end
  end.

Definition GenerateStreamed_asks (env : Env) (company diff status : jsstring)
  (sched : list turn) (before : list Effect)
  : list Effect * result (option ParsedResponse) :=
  match ticket env with
  | None => (before ++ [cancel (lit "Cancelled.")], Exited 0)
  | Some answer =>
      let tr :=
        before
          ++ [log_step
                (lit "Paste the JIRA ticket summary (press Enter twice to finish):");
              console_error press_enter_twice] in
      match prompt_text env (Prompts.prompt_file company) with
      | inl text =>
          GenerateStreamed.respond
            (query env (userPrompt text diff status answer (summary_of env)))
            sched tr
      | inr err => (tr, Thrown err)
      end
  end.

Definition GenerateConsole_asks (env : Env) (company diff status : jsstring)
  (before : list Effect) : list Effect * result ParsedResponse :=
  let answer := match ticket env with Some line => line | None => [] end in
  let tr :=
    before
      ++ [prompt (lit "JIRA ticket number (or press enter to skip):");
          console_error (lit "Paste the JIRA ticket summary:" ++ press_enter_twice)] in
  match prompt_text env (Prompts.prompt_file company) with
  | inl text =>
      GenerateConsole.respond
        (query env (userPrompt text diff status answer (summary_of env))) tr
  | inr err => (tr, Thrown err)
  end.

(** The checks of [generate] in the order they are made, when the project
    is detected and the git commands succeed. *)
Lemma Generate_checks (env : Env) (company staged unstaged status : jsstring) :
  detectCompany env = Some company -> company <> [] ->
  git_diff_cached (repo env) = inl staged ->
  (blank staged = true -> git_diff (repo env) = inl unstaged) ->
  git_status_short (repo env) = inl status ->
  Generate.generate env []
  = if blank (if blank staged then unstaged else staged) && blank status then
      ([intro (lit "git-gen"); log_info (lit "Detected project: " ++ company);
        log_error no_changes], Exited 1)
    else
      Generate_asks env company (if blank staged then unstaged else staged)
        status
        [intro (lit "git-gen"); log_info (lit "Detected project: " ++ company)].
Proof.
  intros Hd Hc Hs Hu Ht.
  unfold Generate.generate, Generate.with_changes, Generate.detect, Generate_asks.
  rewrite Hd. destruct company as [|c company]; [contradiction|].
  cbn [truthy]. unfold bind, emit, ret. cbn [app].
  rewrite (@collect_ok env staged unstaged status _ Hs Hu Ht).
  rewrite !truthy_trim, !negb_involutive.
  destruct (blank (if blank staged then unstaged else staged) && blank status);
    [reflexivity|].
  destruct (ticket env); [|reflexivity].
  unfold Input.readMultiLine, file_text, bind, emit, ret, throw. cbn [app].
  destruct (prompt_text env (Prompts.prompt_file (c :: company))); reflexivity.
Qed.

Lemma GenerateStreamed_checks (env : Env)
  (company staged unstaged status : jsstring) (sched : list turn) :
  detectCompany env = Some company -> company <> [] ->
  git_diff_cached (repo env) = inl staged ->
  (blank staged = true -> git_diff (repo env) = inl unstaged) ->
  git_status_short (repo env) = inl status ->
  GenerateStreamed.generate env sched []
  = if blank (if blank staged then unstaged else staged) && blank status then
      ([intro (lit "git-gen"); log_info (lit "Detected project: " ++ company);
        log_error no_changes], Exited 1)
    else
      GenerateStreamed_asks env company
        (if blank staged then unstaged else staged) status sched
        [intro (lit "git-gen"); log_info (lit "Detected project: " ++ company)].
Proof.
  intros Hd Hc Hs Hu Ht.
  unfold GenerateStreamed.generate, Generate.detect, GenerateStreamed_asks.
  rewrite Hd. destruct company as [|c company]; [contradiction|].
  cbn [truthy]. unfold bind, emit, ret. cbn [app].
  rewrite (@collect_ok env staged unstaged status _ Hs Hu Ht).
  rewrite !truthy_trim, !negb_involutive.
  destruct (blank (if blank staged then unstaged else staged) && blank status);
    [reflexivity|].
  destruct (ticket env); [|reflexivity].
  unfold Input.readMultiLine, file_text, bind, emit, ret, throw. cbn [app].
  destruct (prompt_text env (Prompts.prompt_file (c :: company))); reflexivity.
Qed.

Lemma GenerateConsole_checks (env : Env)
  (company staged unstaged status : jsstring) :
  detectCompany env = Some company -> company <> [] ->
  git_diff_cached (repo env) = inl staged ->
  (blank staged = true -> git_diff (repo env) = inl unstaged) ->
  git_status_short (repo env) = inl status ->
  GenerateConsole.generate env []
  = if blank (if blank staged then unstaged else staged) && blank status then
      ([console_log (lit "Detected project: " ++ company ++ [LF]);
        console_error no_changes], Exited 1)
    else
      GenerateConsole_asks env company
        (if blank staged then unstaged else staged) status
        [console_log (lit "Detected project: " ++ company ++ [LF])].
Proof.
  intros Hd Hc Hs Hu Ht.
  unfold GenerateConsole.generate, GenerateConsole.detect, GenerateConsole_asks.
  rewrite Hd. destruct company as [|c company]; [contradiction|].
  cbn [truthy]. unfold bind, emit, ret. cbn [app].
  rewrite (@collect_ok env staged unstaged status _ Hs Hu Ht).
  rewrite !truthy_trim, !negb_involutive.
  destruct (blank (if blank staged then unstaged else staged) && blank status);
    [reflexivity|].
  unfold GenerateConsole.prompt_or_empty, Input.readMultiLine, file_text,
    bind, emit, ret, throw. cbn [app].
  destruct (prompt_text env (Prompts.prompt_file (c :: company))); reflexivity.
Qed.

End Preflight.

Section PreflightOutcomes.

(** X5: when the project is detected and the staged diff, the unstaged diff
    and the short status are all empty or white space, every front end
    reports that there are no changes and ends with exit status 1; the
    ticket is not asked for and the service is not contacted (the outcome
    does not depend on either). *)
Theorem nothing_to_do_aborts (env : Env)
  (company staged unstaged status : jsstring) (sched : list turn) :
  detectCompany env = Some company -> company <> [] ->
  git_diff_cached (repo env) = inl staged ->
  git_diff (repo env) = inl unstaged ->
  git_status_short (repo env) = inl status ->
  blank staged = true -> blank unstaged = true -> blank status = true ->
  run (Generate.generate env)
  = ([intro (lit "git-gen"); log_info (lit "Detected project: " ++ company);
      log_error no_changes], Exited 1)
  /\ run (GenerateConsole.generate env)
     = ([console_log (lit "Detected project: " ++ company ++ [LF]);
         console_error no_changes], Exited 1)
  /\ run (GenerateStreamed.generate env sched)
     = ([intro (lit "git-gen"); log_info (lit "Detected project: " ++ company);
         log_error no_changes], Exited 1).
Proof.
  intros Hd Hc Hs Hu Ht Bs Bu Bt. unfold run.
  rewrite (@Generate_checks env company staged unstaged status Hd Hc Hs
             (fun _ => Hu) Ht).
  rewrite (@GenerateConsole_checks env company staged unstaged status Hd Hc Hs
             (fun _ => Hu) Ht).
  rewrite (@GenerateStreamed_checks env company staged unstaged status sched
             Hd Hc Hs (fun _ => Hu) Ht).
  rewrite Bs, Bu, Bt. auto.
Qed.

(** A clean work tree inside the project. *)
Definition clean_tree : Env :=
  {| cwd := lit "/home/u/acme/app";
     prompts := [lit "acme"];
     repo := {| git_diff_cached := inl []; git_diff := inl [LF];
                git_status_short := inl [] |};
     status_ends := AfterBoth;
     ticket := Some (lit "PROJ-1");
     typed := [];
     prompt_text := fun _ => inl (lit "# Commit format");
     query := fun _ => [result_message success] |}.

Lemma nothing_to_do_aborts_witness :
  run (Generate.generate clean_tree)
  = ([intro (lit "git-gen"); log_info (lit "Detected project: " ++ lit "acme");
      log_error no_changes], Exited 1)
  /\ run (GenerateConsole.generate clean_tree)
     = ([console_log (lit "Detected project: " ++ lit "acme" ++ [LF]);
         console_error no_changes], Exited 1)
  /\ run (GenerateStreamed.generate clean_tree [Ingest; Render])
     = ([intro (lit "git-gen"); log_info (lit "Detected project: " ++ lit "acme");
         log_error no_changes], Exited 1).
Proof.
  apply (@nothing_to_do_aborts clean_tree (lit "acme") [] [LF] []
           [Ingest; Render]); try reflexivity.
  discriminate.
Defined.










(** X8: a git command that fails is not caught: when [git diff --cached]
    fails, or the staged diff is blank and [git diff] fails, [generate] ends
    with that error right after naming the project, without logging anything
    and without asking the service. *)
Theorem git_failure_escapes (env : Env) (company err status : jsstring)
  (sched : list turn) :
  detectCompany env = Some company -> company <> [] ->
  git_status_short (repo env) = inl status ->
  git_diff_cached (repo env) = inr err
  \/ (exists staged,
        git_diff_cached (repo env) = inl staged
        /\ blank staged = true /\ git_diff (repo env) = inr err) ->
  run (Generate.generate env)
  = ([intro (lit "git-gen"); log_info (lit "Detected project: " ++ company)],
     Thrown err)
  /\ run (GenerateConsole.generate env)
     = ([console_log (lit "Detected project: " ++ company ++ [LF])], Thrown err)
  /\ run (GenerateStreamed.generate env sched)
     = ([intro (lit "git-gen"); log_info (lit "Detected project: " ++ company)],
        Thrown err).
Proof.
  intros Hd Hc Ht Hfail.
  assert (C : forall tr, collect env tr = (tr, Thrown err)).
  { intros tr. unfold collect, getGitDiff, getChangedFiles, bind.
    rewrite Ht. cbn [shell ret].
    destruct Hfail as [Hs | [staged [Hs [Bs Hu]]]]; rewrite Hs; cbn [shell];
      [destruct (status_ends env); reflexivity|].
    unfold ret. rewrite truthy_trim, Bs, Hu.
    destruct (status_ends env); reflexivity. }
  unfold run, Generate.generate, GenerateConsole.generate,
    GenerateStreamed.generate, Generate.detect, GenerateConsole.detect.
  rewrite Hd. destruct company as [|c company]; [contradiction|].
  cbn [truthy]. unfold bind, emit, ret. cbn [app]. rewrite !C. auto.
Qed.

(** The index cannot be read. *)
Definition unreadable_index : Env :=
  {| cwd := lit "/home/u/acme/app";
     prompts := [lit "acme"];
     repo := {| git_diff_cached := inr (lit "ShellError: exit code 129");
                git_diff := inr (lit "ShellError: exit code 129");
                git_status_short := inl [] |};
     status_ends := AfterBoth;
     ticket := Some [];
     typed := [];
     prompt_text := fun _ => inl (lit "# Commit format");
     query := fun _ => [] |}.

Lemma git_failure_escapes_witness :
  run (Generate.generate unreadable_index)
  = ([intro (lit "git-gen"); log_info (lit "Detected project: " ++ lit "acme")],
     Thrown (lit "ShellError: exit code 129")).
Proof.
  apply (@git_failure_escapes unreadable_index (lit "acme")
           (lit "ShellError: exit code 129") [] []);
    try reflexivity; [discriminate | now left].
Defined.

End PreflightOutcomes.

(** ** What the loops make of a stream *)

Section Streams.

(** X9: an answer that is nothing but white space counts as no answer: for
    every stream without a result before its "success" whose [text_delta]
    payloads together are blank, every streaming front end reports the empty
    response and ends with exit status 1. *)
Theorem blank_answer_is_refused (msgs rest : list SDKMessage) :
  existsb is_result msgs = false ->
  blank (answer_text msgs) = true ->
  (exists tr,
     run (Generate.respond (msgs ++ result_message success :: rest))
     = (tr ++ [spinner_stop (lit "Generation complete.");
               log_error (lit "Empty response from Claude.")], Exited 1))
  /\ (exists tr,
        run (GenerateConsole.respond (msgs ++ result_message success :: rest))
        = (tr ++ [stderr_write [LF];
                  console_error (lit "Empty response from Claude.")], Exited 1))
  /\ (forall sched,
        main (run_turns sched (start (msgs ++ result_message success :: rest)))
        = Resumed ->
        exists tr,
          run (respond (msgs ++ result_message success :: rest) sched)
          = (tr ++ [log_error (lit "Empty response from Claude.")], Exited 1))
  /\ (forall sched1 sched2,
        List.length (msgs ++ result_message success :: rest) < ingests sched1 ->
        List.length (msgs ++ result_message success :: rest) < renders sched2 ->
        main (run_turns (sched1 ++ sched2)
                (start (msgs ++ result_message success :: rest)))
        = Resumed).
Proof.
  intros NoResult Blank.
  assert (T : truthy (trim (answer_text msgs)) = false).
  { now rewrite truthy_trim, Blank. }
  split; [|split; [|split]].
  - destruct (@Generate_loop msgs rest success
                [spinner_start (lit "Generating with Claude...")] NoResult)
      as [tr' E].
    change (eqb success success) with true in E. cbv iota in E.
    exists tr'. unfold run, Generate.respond, bind, emit. cbn [app].
    rewrite E, T. cbn. now rewrite <- app_assoc.
  - destruct (@GenerateConsole_loop msgs rest success
                [console_log (LF :: lit "Generating with Claude..." ++ [LF])]
                NoResult) as [tr' E].
    change (eqb success success) with true in E. cbv iota in E.
    exists tr'. unfold run, GenerateConsole.respond, bind, emit. cbn [app].
    rewrite E, T. cbn. now rewrite <- app_assoc.
  - intros sched Hmain.
    destruct (@Streamed_respond msgs rest success sched NoResult Hmain) as [tr E].
    exists tr. rewrite E, T. reflexivity.
  - intros sched1 sched2. apply enough_turns.
Qed.

(** An answer of a line feed and a space. *)
Definition blank_reply : list SDKMessage :=
  [stream_event (content_block_delta (text_delta [LF]));
   stream_event (content_block_delta (text_delta (lit " ")))].

Lemma blank_answer_is_refused_witness :
  (exists tr,
     run (Generate.respond (blank_reply ++ result_message success :: []))
     = (tr ++ [spinner_stop (lit "Generation complete.");
               log_error (lit "Empty response from Claude.")], Exited 1))
  /\ (exists tr,
        run (respond (blank_reply ++ result_message success :: [])
               ([Ingest; Ingest; Ingest; Ingest]
                  ++ [Render; Render; Render; Render]))
        = (tr ++ [log_error (lit "Empty response from Claude.")], Exited 1)).
Proof.
  destruct (@blank_answer_is_refused blank_reply [] eq_refl eq_refl)
    as [H1 [_ [H3 H4]]].
  split; [exact H1|]. apply H3, H4; vm_compute; lia.
Defined.

(** X10: an answer with a character that is not white space is handed to
    the parser as it arrived, untrimmed: for every stream without a result
    before its "success", every streaming front end returns
    [parseResponse] of the concatenated [text_delta] payloads. *)
Theorem answer_is_parsed_as_it_came (msgs rest : list SDKMessage) :
  existsb is_result msgs = false ->
  blank (answer_text msgs) = false ->
  (exists tr,
     run (Generate.respond (msgs ++ result_message success :: rest))
     = (tr, Returned (parseResponse (answer_text msgs))))
  /\ (exists tr,
        run (GenerateConsole.respond (msgs ++ result_message success :: rest))
        = (tr, Returned (parseResponse (answer_text msgs))))
  /\ (forall sched,
        main (run_turns sched (start (msgs ++ result_message success :: rest)))
        = Resumed ->
        exists tr,
          run (respond (msgs ++ result_message success :: rest) sched)
          = (tr, Returned (Some (parseResponse (answer_text msgs)))))
  /\ (forall sched1 sched2,
        List.length (msgs ++ result_message success :: rest) < ingests sched1 ->
        List.length (msgs ++ result_message success :: rest) < renders sched2 ->
        main (run_turns (sched1 ++ sched2)
                (start (msgs ++ result_message success :: rest)))
        = Resumed).
Proof.
  intros NoResult Blank.
  assert (T : truthy (trim (answer_text msgs)) = true).
  { now rewrite truthy_trim, Blank. }
  split; [|split; [|split]].
  - destruct (@Generate_loop msgs rest success
                [spinner_start (lit "Generating with Claude...")] NoResult)
      as [tr' E].
    change (eqb success success) with true in E. cbv iota in E.
    eexists. unfold run, Generate.respond, bind, emit. cbn [app].
    rewrite E, T. reflexivity.
  - destruct (@GenerateConsole_loop msgs rest success
                [console_log (LF :: lit "Generating with Claude..." ++ [LF])]
                NoResult) as [tr' E].
    change (eqb success success) with true in E. cbv iota in E.
    eexists. unfold run, GenerateConsole.respond, bind, emit. cbn [app].
    rewrite E, T. reflexivity.
  - intros sched Hmain.
    destruct (@Streamed_respond msgs rest success sched NoResult Hmain) as [tr E].
    exists tr. rewrite E, T. reflexivity.
  - intros sched1 sched2. apply enough_turns.
Qed.

Lemma answer_is_parsed_as_it_came_witness :
  (exists tr,
     run (Generate.respond (interleaved ++ result_message success :: []))
     = (tr, Returned (parseResponse (lit "COMMIT_MESSAGE"))))
  /\ (exists tr,
        run (respond (interleaved ++ result_message success :: [])
               ([Ingest; Render; Ingest; Ingest; Ingest; Ingest; Ingest]
                  ++ [Render; Render; Render; Render; Render; Render]))
        = (tr, Returned (Some (parseResponse (lit "COMMIT_MESSAGE"))))).
Proof.
  destruct (@answer_is_parsed_as_it_came interleaved [] eq_refl eq_refl)
    as [H1 [_ [H3 H4]]].
  split; [exact H1|]. apply H3, H4; vm_compute; lia.
Defined.

Lemma first_result (msgs : list SDKMessage) :
  existsb is_result msgs = false
  \/ exists before subtype behind,
       msgs = before ++ result_message subtype :: behind
       /\ existsb is_result before = false.
Proof.
  induction msgs as [|m msgs IH]; [now left|].
  destruct m as [ev|sub|].
  - destruct IH as [IH | [before [sub [behind [-> IH]]]]]; [now left|].
    right. now exists (stream_event ev :: before), sub, behind.
  - right. now exists [], sub, msgs.
  - destruct IH as [IH | [before [sub [behind [-> IH]]]]]; [now left|].
    right. now exists (other_message :: before), sub, behind.
Qed.

(** What stands behind the first result plays no part in a plain loop. *)
Lemma plain_loops_stop_at_result
  (before t1 t2 : list SDKMessage) (subtype : jsstring) :
  existsb is_result before = false ->
  run (Generate.respond (before ++ result_message subtype :: t1))
  = run (Generate.respond (before ++ result_message subtype :: t2))
  /\ run (GenerateConsole.respond (before ++ result_message subtype :: t1))
     = run (GenerateConsole.respond (before ++ result_message subtype :: t2)).
Proof.
  intros NoResult. split.
  - destruct (for_await_prefix Generate.on_message Generate_body_appends
                before NoResult []
                [spinner_start (lit "Generating with Claude...")]) as [tr' E].
    unfold run, Generate.respond, bind, emit. cbn [app].
    rewrite (E (result_message subtype :: t1)), (E (result_message subtype :: t2)).
    cbn [for_await Generate.on_message]. unfold bind.
    destruct (negb (eqb subtype success)); reflexivity.
  - destruct (for_await_prefix GenerateConsole.on_message
                GenerateConsole_body_appends before NoResult []
                [console_log (LF :: lit "Generating with Claude..." ++ [LF])])
      as [tr' E].
    unfold run, GenerateConsole.respond, bind, emit. cbn [app].
    rewrite (E (result_message subtype :: t1)), (E (result_message subtype :: t2)).
    cbn [for_await GenerateConsole.on_message]. unfold bind.
    destruct (negb (eqb subtype success)); reflexivity.
Qed.

(** A plain loop that comes to the end of a stream without a result goes on
    as after the result "success". *)
Lemma plain_loops_at_end_of_stream (msgs : list SDKMessage) :
  existsb is_result msgs = false ->
  run (Generate.respond msgs)
  = run (Generate.respond (msgs ++ [result_message success]))
  /\ run (GenerateConsole.respond msgs)
     = run (GenerateConsole.respond (msgs ++ [result_message success])).
Proof.
  intros NoResult. split.
  - destruct (for_await_prefix Generate.on_message Generate_body_appends
                msgs NoResult []
                [spinner_start (lit "Generating with Claude...")]) as [tr' E].
    unfold run, Generate.respond, bind, emit. cbn [app].
    rewrite (E [result_message success]). rewrite <- (app_nil_r msgs) at 1.
    rewrite (E []). reflexivity.
  - destruct (for_await_prefix GenerateConsole.on_message
                GenerateConsole_body_appends msgs NoResult []
                [console_log (LF :: lit "Generating with Claude..." ++ [LF])])
      as [tr' E].
    unfold run, GenerateConsole.respond, bind, emit. cbn [app].
    rewrite (E [result_message success]). rewrite <- (app_nil_r msgs) at 1.
    rewrite (E []). reflexivity.
Qed.

End Streams.

(** ** The spinner line, the parsed fields, the end of the iteration *)

Section Details.

Lemma replaceNewlines_no_LF (s : jsstring) : ~ In LF (replaceNewlines s).
Proof.
  unfold replaceNewlines. intros H. apply in_map_iff in H as [c [E _]].
  destruct (N.eqb c LF) eqn:Ec; [discriminate E|].
  apply N.eqb_neq in Ec. contradiction.
Qed.

(** X13: while the model thinks, the spinner of [src/generate.ts] shows
    "Thinking: ..." followed by the end of the chunk just received: at most
    60 code units of it, the last ones, with every line feed turned into a
    space, so the message stays on one line; the answer text is left as it
    is. *)
Theorem thinking_snippet_is_one_short_line
  (thinking text : jsstring) (tr : list Effect) :
  exists snippet before,
    Generate.on_message
      (stream_event (content_block_delta (thinking_delta thinking))) text tr
    = (tr ++ [spinner_message (lit "Thinking: ..." ++ snippet)],
       Returned (Continue, text))
    /\ replaceNewlines thinking = before ++ snippet
    /\ List.length snippet = Nat.min 60 (List.length thinking)
    /\ ~ In LF snippet.
Proof.
  exists (sliceLast 60 (replaceNewlines thinking)),
    (firstn (List.length (replaceNewlines thinking) - 60)
       (replaceNewlines thinking)).
  unfold sliceLast. repeat split.
  - symmetry. apply firstn_skipn.
  - rewrite length_skipn. unfold replaceNewlines. rewrite length_map. lia.
  - intros H. apply (@replaceNewlines_no_LF thinking).
    rewrite <- (firstn_skipn (List.length (replaceNewlines thinking) - 60)).
    apply in_or_app. now right.
Qed.

Lemma trimmed_or_default (m : option groups) (dflt : jsstring) :
  group1_trim_or m dflt = dflt
  \/ trim (group1_trim_or m dflt) = group1_trim_or m dflt.
Proof.
  destruct m as [[g|]|]; cbn; auto. right. apply trim_idempotent.
Qed.

(** X14: for every text, the title and the body [parseResponse] returns
    carry no white space at either end, and the commit message is either
    trimmed too or the whole text as it was given. *)
Theorem parsed_fields_are_trimmed (text : jsstring) :
  trim (prTitle (parseResponse text)) = prTitle (parseResponse text)
  /\ trim (prBody (parseResponse text)) = prBody (parseResponse text)
  /\ (commitMessage (parseResponse text) = text
      \/ trim (commitMessage (parseResponse text))
         = commitMessage (parseResponse text)).
Proof.
  unfold parseResponse. cbn [prTitle prBody commitMessage].
  repeat split.
  - destruct (trimmed_or_default (exec prTitleRe text) []) as [-> | E];
      [reflexivity | exact E].
  - destruct (trimmed_or_default (exec prBodyRe text) []) as [-> | E];
      [reflexivity | exact E].
  - apply trimmed_or_default.
Qed.

Lemma section_between_unclosed (text opener closer : jsstring) :
  ~ Occurs closer text -> section_between text opener closer = None.
Proof.
  intros No. unfold section_between.
  destruct (indexOf text opener) as [i|]; [|reflexivity].
  cbv zeta. rewrite (proj2 (indexOf_None _ closer)); [reflexivity|].
  intros H. apply No. eapply Occurs_skipn, H.
Qed.

(** X15: a section needs the marker line that closes it.  When no line
    [PR_TITLE] with a line feed before and behind it occurs in the text, the
    commit message is the whole text as it is, the [COMMIT_MESSAGE] marker
    included if there is one; when no such line [PR_BODY] occurs, the title
    is empty. *)
Theorem unclosed_sections_fall_back (text : jsstring) :
  (~ Occurs (LF :: PR_TITLE ++ [LF]) text ->
   commitMessage (parseResponse text) = text)
  /\ (~ Occurs (LF :: PR_BODY ++ [LF]) text ->
      prTitle (parseResponse text) = []).
Proof.
  rewrite parseResponse_sections. cbn [commitMessage prTitle].
  split; intros No; now rewrite section_between_unclosed.
Qed.

Lemma unclosed_sections_fall_back_witness :
  commitMessage
    (parseResponse (COMMIT_MESSAGE ++ [LF] ++ lit "fix: typo"))
  = COMMIT_MESSAGE ++ [LF] ++ lit "fix: typo"
  /\ prTitle
       (parseResponse
          (PR_TITLE ++ [LF] ++ lit "Fix typo" ++ [LF] ++ PR_BODY))
     = [].
Proof.
  assert (No : forall m s, includes s m = false -> ~ Occurs m s).
  { intros m s E H. apply includes_true in H. rewrite H in E. discriminate E. }
  split.
  - apply (unclosed_sections_fall_back
             (COMMIT_MESSAGE ++ [LF] ++ lit "fix: typo")).
    apply No. vm_compute. reflexivity.
  - apply (unclosed_sections_fall_back
             (PR_TITLE ++ [LF] ++ lit "Fix typo" ++ [LF] ++ PR_BODY)).
    apply No. vm_compute. reflexivity.
Defined.

(** X16: the iterator keeps to the protocol of an iteration whatever the
    stream and the consumer do: what it has delivered is a run of chunks
    followed by done at most once, nothing comes after done, and done is
    reported only once [endThinking] has been called and never while a
    request of the consumer is open. *)
Theorem done_is_reported_once_and_last (ops : list op) :
  let q := run_ops ops ThinkingQueue.empty in
  delivered q
  = map Value (chunks (delivered q))
      ++ (if reported_done q then [Finished] else [])
  /\ (reported_done q = true ->
      thinkingDone q = true /\ thinkingResolve q = false).
Proof.
  intros q. assert (W : WF q) by apply WF_run_ops, WF_empty.
  split; [apply (wf_delivered W)|].
  intros R. split; [apply (wf_reported W R)|].
  destruct (thinkingResolve q) eqn:Ew; [|reflexivity].
  destruct (wf_waiting W Ew) as [_ [_ R']]. congruence.
Qed.

Lemma done_is_reported_once_and_last_witness :
  thinkingDone
    (run_ops [Pull; End; Pull; Push (lit "late"); End; Pull]
       ThinkingQueue.empty) = true
  /\ thinkingResolve
       (run_ops [Pull; End; Pull; Push (lit "late"); End; Pull]
          ThinkingQueue.empty) = false.
Proof.
  apply (done_is_reported_once_and_last
           [Pull; End; Pull; Push (lit "late"); End; Pull]).
  reflexivity.
Defined.

End Details.

(** ** After the answer: committing and opening the PR *)

Section Acting.

Import Act.

(** What is shown before the first question. *)
Definition shown (parsed : ParsedResponse) (question : jsstring) : list Event :=
  [note (commitMessage parsed) (lit "Commit Message");
   note (prTitle parsed) (lit "PR Title");
   note (prBody parsed) (lit "PR Body");
   confirm question].

Definition git_add_all : Event := sh [lit "git"; lit "add"; lit "-A"].

Definition git_commit_m (message : jsstring) : Event :=
  sh [lit "git"; lit "commit"; lit "-m"; message].

Definition landed : Event :=
  log_warning (lit "Commit already landed. Push/PR failed:").

(** Every way [act] can go. *)
Lemma act_cases (w : World) (parsed : ParsedResponse) :
  act w parsed []
  = match confirm_commit w with
    | No | Cancelled =>
        (shown parsed (lit "Commit and open PR?") ++ [outro (lit "Done!")],
         Exited 0)
    | Yes =>
        match git_add w with
        | Some err =>
            (shown parsed (lit "Commit and open PR?")
               ++ [ui (spinner_start (lit "Committing changes..."));
                   git_add_all;
                   ui (spinner_stop (lit "Commit failed."));
                   ui (log_error err)], Exited 1)
        | None =>
            match git_commit w (commitMessage parsed) with
            | Some err =>
                (shown parsed (lit "Commit and open PR?")
                   ++ [ui (spinner_start (lit "Committing changes..."));
                       git_add_all; git_commit_m (commitMessage parsed);
                       ui (spinner_stop (lit "Commit failed."));
                       ui (log_error err)], Exited 1)
            | None =>
                match gitPushAndCreatePR_outcome w (prTitle parsed)
                        (prBody parsed) with
                | Some err =>
                    (shown parsed (lit "Commit and open PR?")
                       ++ [ui (spinner_start (lit "Committing changes..."));
                           git_add_all; git_commit_m (commitMessage parsed);
                           ui (spinner_stop (lit "Changes committed."));
                           ui (spinner_start (lit "Pushing and creating PR..."));
                           push_and_create_pr (prTitle parsed) (prBody parsed);
                           ui (spinner_stop (lit "PR creation failed."));
                           landed; ui (log_error err)], Exited 1)
                | None =>
                    (shown parsed (lit "Commit and open PR?")
                       ++ [ui (spinner_start (lit "Committing changes..."));
                           git_add_all; git_commit_m (commitMessage parsed);
                           ui (spinner_stop (lit "Changes committed."));
                           ui (spinner_start (lit "Pushing and creating PR..."));
                           push_and_create_pr (prTitle parsed) (prBody parsed);
                           ui (spinner_stop (lit "PR created."));
                           outro (lit "All done!")], Returned tt)
                end
            end
        end
    end.
Proof.
  unfold act, show_parsed, ask, commit_step, pr_step, gitCommit,
    gitPushAndCreatePR, command, try_catch, abind, say, leave, raise, aret.
  cbn [app].
  destruct (confirm_commit w); try reflexivity.
  destruct (git_add w); [reflexivity|].
  destruct (git_commit w (commitMessage parsed)); [reflexivity|].
  destruct (gitPushAndCreatePR_outcome w (prTitle parsed) (prBody parsed));
    reflexivity.
Qed.

(** Every way [act_streamed] can go. *)
Lemma act_streamed_cases (w : World) (parsed : ParsedResponse) :
  act_streamed w parsed []
  = match confirm_commit w with
    | No | Cancelled =>
        (shown parsed (lit "Commit changes?") ++ [outro (lit "Done!")],
         Exited 0)
    | Yes =>
        match git_add w with
        | Some err =>
            (shown parsed (lit "Commit changes?")
               ++ [ui (spinner_start (lit "Committing changes..."));
                   git_add_all;
                   ui (spinner_stop (lit "Commit failed."));
                   ui (log_error err)], Exited 1)
        | None =>
            match git_commit w (commitMessage parsed) with
            | Some err =>
                (shown parsed (lit "Commit changes?")
                   ++ [ui (spinner_start (lit "Committing changes..."));
                       git_add_all; git_commit_m (commitMessage parsed);
                       ui (spinner_stop (lit "Commit failed."));
                       ui (log_error err)], Exited 1)
            | None =>
                match confirm_pr w with
                | No | Cancelled =>
                    (shown parsed (lit "Commit changes?")
                       ++ [ui (spinner_start (lit "Committing changes..."));
                           git_add_all; git_commit_m (commitMessage parsed);
                           ui (spinner_stop (lit "Changes committed."));
                           confirm (lit "Push and open PR?");
                           outro (lit "Done!")], Exited 0)
                | Yes =>
                    match gitPushAndCreatePR_outcome w (prTitle parsed)
                            (prBody parsed) with
                    | Some err =>
                        (shown parsed (lit "Commit changes?")
                           ++ [ui (spinner_start (lit "Committing changes..."));
                               git_add_all; git_commit_m (commitMessage parsed);
                               ui (spinner_stop (lit "Changes committed."));
                               confirm (lit "Push and open PR?");
                               ui (spinner_start
                                     (lit "Pushing and creating PR..."));
                               push_and_create_pr (prTitle parsed)
                                 (prBody parsed);
                               ui (spinner_stop (lit "PR creation failed."));
                               landed; ui (log_error err)], Exited 1)
                    | None =>
                        (shown parsed (lit "Commit changes?")
                           ++ [ui (spinner_start (lit "Committing changes..."));
                               git_add_all; git_commit_m (commitMessage parsed);
                               ui (spinner_stop (lit "Changes committed."));
                               confirm (lit "Push and open PR?");
                               ui (spinner_start
                                     (lit "Pushing and creating PR..."));
                               push_and_create_pr (prTitle parsed)
                                 (prBody parsed);
                               ui (spinner_stop (lit "PR created."));
                               outro (lit "All done!")], Returned tt)
                    end
                end
            end
        end
    end.
Proof.
  unfold act_streamed, show_parsed, ask, commit_step, pr_step, gitCommit,
    gitPushAndCreatePR, command, try_catch, abind, say, leave, raise, aret.
  cbn [app].
  destruct (confirm_commit w); try reflexivity.
  destruct (git_add w); [reflexivity|].
  destruct (git_commit w (commitMessage parsed)); [reflexivity|].
  destruct (confirm_pr w); try reflexivity.
  destruct (gitPushAndCreatePR_outcome w (prTitle parsed) (prBody parsed));
    reflexivity.
Qed.

(** A command handed to the shell, or the push and the PR. *)
Definition is_command (e : Event) : bool :=
  match e with
  | sh _ | push_and_create_pr _ _ => true
  | _ => false
  end.

(** X17: unless the first question is answered with yes, nothing is run:
    after a no or a cancel both front ends write "Done!" and end with exit
    status 0 without any command. *)
Theorem declined_runs_nothing (w : World) (parsed : ParsedResponse) :
  confirm_commit w <> Yes ->
  act w parsed []
  = (shown parsed (lit "Commit and open PR?") ++ [outro (lit "Done!")],
     Exited 0)
  /\ act_streamed w parsed []
     = (shown parsed (lit "Commit changes?") ++ [outro (lit "Done!")],
        Exited 0)
  /\ existsb is_command (fst (act w parsed [])) = false
  /\ existsb is_command (fst (act_streamed w parsed [])) = false.
Proof.
  intros H. rewrite act_cases, act_streamed_cases.
  destruct (confirm_commit w); [contradiction | |]; repeat split.
Qed.

(** Everything succeeds, the user says no. *)
Definition says_no : World :=
  {| confirm_commit := No; confirm_pr := Yes; git_add := None;
     git_commit := fun _ => None;
     gitPushAndCreatePR_outcome := fun _ _ => None |}.

Definition some_answer : ParsedResponse :=
  {| commitMessage := lit "fix: typo"; prTitle := lit "Fix typo";
     prBody := lit "## Summary" |}.

Lemma declined_runs_nothing_witness :
  existsb is_command (fst (act says_no some_answer [])) = false
  /\ existsb is_command (fst (act_streamed says_no some_answer [])) = false.
Proof.
  destruct (@declined_runs_nothing says_no some_answer) as [_ [_ H]].
  - discriminate.
  - exact H.
Defined.

Ltac not_among :=
  unfold not; intros;
  repeat match goal with
         | H : In _ _ |- _ => progress cbn in H
         | H : _ \/ _ |- _ => destruct H
         | H : False |- _ => contradiction
         | H : _ = _ |- _ => discriminate H
         end.

(** X18: a commit that fails ends the run with exit status 1 before the
    push: when [git add -A] fails, [git commit] is not run; in either case
    the error is logged, the push and the PR are not attempted, and no
    "Commit already landed" is written. *)
Theorem failed_commit_stops_the_run
  (w : World) (parsed : ParsedResponse) (err : jsstring) :
  confirm_commit w = Yes ->
  git_add w = Some err
  \/ (git_add w = None /\ git_commit w (commitMessage parsed) = Some err) ->
  exists tr,
    act w parsed [] = (tr ++ [ui (log_error err)], Exited 1)
    /\ (git_add w = Some err -> ~ In (git_commit_m (commitMessage parsed)) tr)
    /\ ~ In (push_and_create_pr (prTitle parsed) (prBody parsed)) tr
    /\ ~ In landed tr.
Proof.
  intros Hy Hfail. rewrite act_cases, Hy.
  destruct Hfail as [Ha | [Ha Hc]]; rewrite Ha; [|rewrite Hc].
  - exists (shown parsed (lit "Commit and open PR?")
              ++ [ui (spinner_start (lit "Committing changes..."));
                  git_add_all; ui (spinner_stop (lit "Commit failed."))]).
    split; [now rewrite <- app_assoc|].
    repeat split; not_among.
  - exists (shown parsed (lit "Commit and open PR?")
              ++ [ui (spinner_start (lit "Committing changes..."));
                  git_add_all; git_commit_m (commitMessage parsed);
                  ui (spinner_stop (lit "Commit failed."))]).
    split; [now rewrite <- app_assoc|].
    repeat split; not_among.
Qed.

(** Nothing can be added to the index. *)
Definition add_fails : World :=
  {| confirm_commit := Yes; confirm_pr := Yes;
     git_add := Some (lit "ShellError: exit code 128");
     git_commit := fun _ => None;
     gitPushAndCreatePR_outcome := fun _ _ => None |}.

Lemma failed_commit_stops_the_run_witness :
  exists tr,
    act add_fails some_answer []
    = (tr ++ [ui (log_error (lit "ShellError: exit code 128"))], Exited 1)
    /\ (git_add add_fails = Some (lit "ShellError: exit code 128") ->
        ~ In (git_commit_m (commitMessage some_answer)) tr)
    /\ ~ In (push_and_create_pr (prTitle some_answer) (prBody some_answer)) tr
    /\ ~ In landed tr.
Proof.
  apply (@failed_commit_stops_the_run add_fails some_answer
           (lit "ShellError: exit code 128")); [reflexivity | now left].
Defined.

(** X19: "Commit already landed" is written exactly when the commit went
    through and the push or the PR then failed.  When the user said yes,
    [git add -A] and [git commit] went through and the push/PR step fails,
    the run writes "PR creation failed.", the warning and the error, and
    ends with exit status 1 (in the streamed front end when the second
    question was answered with yes as well); and the warning is written in
    no other run. *)
Theorem landed_commit_is_reported (w : World) (parsed : ParsedResponse) :
  (forall err,
     confirm_commit w = Yes ->
     git_add w = None ->
     git_commit w (commitMessage parsed) = None ->
     gitPushAndCreatePR_outcome w (prTitle parsed) (prBody parsed) = Some err ->
     act w parsed []
     = (shown parsed (lit "Commit and open PR?")
          ++ [ui (spinner_start (lit "Committing changes..."));
              git_add_all; git_commit_m (commitMessage parsed);
              ui (spinner_stop (lit "Changes committed."));
              ui (spinner_start (lit "Pushing and creating PR..."));
              push_and_create_pr (prTitle parsed) (prBody parsed);
              ui (spinner_stop (lit "PR creation failed."));
              landed; ui (log_error err)], Exited 1)
     /\ (confirm_pr w = Yes ->
         act_streamed w parsed []
         = (shown parsed (lit "Commit changes?")
              ++ [ui (spinner_start (lit "Committing changes..."));
                  git_add_all; git_commit_m (commitMessage parsed);
                  ui (spinner_stop (lit "Changes committed."));
                  confirm (lit "Push and open PR?");
                  ui (spinner_start (lit "Pushing and creating PR..."));
                  push_and_create_pr (prTitle parsed) (prBody parsed);
                  ui (spinner_stop (lit "PR creation failed."));
                  landed; ui (log_error err)], Exited 1)))
  /\ (In landed (fst (act w parsed [])) ->
      confirm_commit w = Yes
      /\ git_add w = None
      /\ git_commit w (commitMessage parsed) = None
      /\ gitPushAndCreatePR_outcome w (prTitle parsed) (prBody parsed) <> None)
  /\ (In landed (fst (act_streamed w parsed [])) ->
      confirm_commit w = Yes
      /\ confirm_pr w = Yes
      /\ git_add w = None
      /\ git_commit w (commitMessage parsed) = None
      /\ gitPushAndCreatePR_outcome w (prTitle parsed) (prBody parsed) <> None).
Proof.
  rewrite act_cases, act_streamed_cases.
  split; [|split].
  - intros err Hy Ha Hc Hp. rewrite Hy, Ha, Hc, Hp.
    split; [reflexivity|]. intros Hq. now rewrite Hq.
  - destruct (confirm_commit w); [|not_among|not_among].
    destruct (git_add w); [not_among|].
    destruct (git_commit w (commitMessage parsed)); [not_among|].
    destruct (gitPushAndCreatePR_outcome w (prTitle parsed) (prBody parsed));
      [|not_among].
    intros _. repeat split; discriminate.
  - destruct (confirm_commit w); [|not_among|not_among].
    destruct (git_add w); [not_among|].
    destruct (git_commit w (commitMessage parsed)); [not_among|].
    destruct (confirm_pr w); [|not_among|not_among].
    destruct (gitPushAndCreatePR_outcome w (prTitle parsed) (prBody parsed));
      [|not_among].
    intros _. repeat split; discriminate.
Qed.

(** The commit goes through, the push is refused. *)
Definition push_fails : World :=
  {| confirm_commit := Yes; confirm_pr := Yes; git_add := None;
     git_commit := fun _ => None;
     gitPushAndCreatePR_outcome := fun _ _ => Some (lit "ShellError: exit code 1") |}.

Lemma landed_commit_is_reported_witness :
  act push_fails some_answer []
  = (shown some_answer (lit "Commit and open PR?")
       ++ [ui (spinner_start (lit "Committing changes..."));
           git_add_all; git_commit_m (commitMessage some_answer);
           ui (spinner_stop (lit "Changes committed."));
           ui (spinner_start (lit "Pushing and creating PR..."));
           push_and_create_pr (prTitle some_answer) (prBody some_answer);
           ui (spinner_stop (lit "PR creation failed."));
           landed; ui (log_error (lit "ShellError: exit code 1"))], Exited 1).
Proof.
  destruct (@landed_commit_is_reported push_fails some_answer) as [H _].
  apply (H (lit "ShellError: exit code 1")); reflexivity.
Defined.

(** X20: in the streamed front end, a no (or a cancel) to the second
    question after a commit that went through ends the run with exit status
    0: the two commit commands have run, the push and the PR have not. *)
Theorem second_no_keeps_the_commit (w : World) (parsed : ParsedResponse) :
  confirm_commit w = Yes ->
  git_add w = None ->
  git_commit w (commitMessage parsed) = None ->
  confirm_pr w <> Yes ->
  act_streamed w parsed []
  = (shown parsed (lit "Commit changes?")
       ++ [ui (spinner_start (lit "Committing changes..."));
           git_add_all; git_commit_m (commitMessage parsed);
           ui (spinner_stop (lit "Changes committed."));
           confirm (lit "Push and open PR?");
           outro (lit "Done!")], Exited 0).
Proof.
  intros Hy Ha Hc Hn. rewrite act_streamed_cases, Hy, Ha, Hc.
  destruct (confirm_pr w); [contradiction | reflexivity | reflexivity].
Qed.

(** Yes to the commit, no to the PR. *)
Definition commit_only : World :=
  {| confirm_commit := Yes; confirm_pr := No; git_add := None;
     git_commit := fun _ => None;
     gitPushAndCreatePR_outcome := fun _ _ => Some (lit "not asked") |}.

Lemma second_no_keeps_the_commit_witness :
  act_streamed commit_only some_answer []
  = (shown some_answer (lit "Commit changes?")
       ++ [ui (spinner_start (lit "Committing changes..."));
           git_add_all; git_commit_m (commitMessage some_answer);
           ui (spinner_stop (lit "Changes committed."));
           confirm (lit "Push and open PR?");
           outro (lit "Done!")], Exited 0).
Proof.
  apply (@second_no_keeps_the_commit commit_only some_answer);
    try reflexivity; discriminate.
Defined.

End Acting.

Section WholeRun.

Import Act.

Lemma act_from (w : World) (parsed : ParsedResponse) (tr : list Event) :
  act w parsed tr = (tr ++ fst (act w parsed []), snd (act w parsed [])).
Proof.
  unfold act, show_parsed, ask, commit_step, pr_step, gitCommit,
    gitPushAndCreatePR, command, try_catch, abind, say, leave, raise, aret.
  destruct (confirm_commit w);
    [destruct (git_add w);
       [|destruct (git_commit w (commitMessage parsed));
           [|destruct (gitPushAndCreatePR_outcome w (prTitle parsed)
                         (prBody parsed))]] | |];
    cbn [fst snd app]; rewrite <- ?app_assoc; reflexivity.
Qed.

(** A computation of the front end only adds to what is written. *)
Definition Framed {A : Type} (m : Run A) : Prop :=
  forall tr, m tr = (tr ++ fst (m []), snd (m [])).

Lemma Framed_ret (A : Type) (a : A) : Framed (ret a).
Proof. intros tr. cbn. now rewrite app_nil_r. Qed.

Lemma Framed_emit (e : Effect) : Framed (emit e).
Proof. intros tr. reflexivity. Qed.

Lemma Framed_exit (A : Type) (code : nat) : Framed (@exit A code).
Proof. intros tr. cbn. now rewrite app_nil_r. Qed.

Lemma Framed_throw (A : Type) (err : jsstring) : Framed (@throw A err).
Proof. intros tr. cbn. now rewrite app_nil_r. Qed.

Lemma Framed_bind (A B : Type) (m : Run A) (k : A -> Run B) :
  Framed m -> (forall a, Framed (k a)) -> Framed (bind m k).
Proof.
  intros Hm Hk tr. unfold bind. rewrite (Hm tr).
  destruct (m []) as [es [a|code|err]]; cbn [fst snd]; try reflexivity.
  rewrite (Hk a (tr ++ es)), (Hk a es). cbn [fst snd].
  now rewrite app_assoc.
Qed.

Lemma Framed_for_await (S : Type) (body : SDKMessage -> S -> Run (flow * S))
  (stream : list SDKMessage) :
  (forall message st, Framed (body message st)) ->
  forall st, Framed (for_await body stream st).
Proof.
  intros Hbody. induction stream as [|message rest IH]; intros st.
  - apply Framed_ret.
  - cbn [for_await]. apply Framed_bind; [apply Hbody|].
    intros [[|] st']; [apply IH | apply Framed_ret].
Qed.

Ltac framed :=
  repeat first
    [ apply Framed_ret | apply Framed_emit | apply Framed_exit
    | apply Framed_throw
    | apply Framed_bind; [|intros ?] ].

Lemma Framed_on_message (message : SDKMessage) (text : jsstring) :
  Framed (Generate.on_message message text).
Proof.
  destruct message as [[[chunk|answer|]| |]|sub|]; cbn [Generate.on_message];
    try destruct (negb (eqb sub success)); framed.
Qed.

Lemma Framed_detect (env : Env) : Framed (Generate.detect env).
Proof.
  unfold Generate.detect.
  destruct (detectCompany env) as [company|];
    [destruct (truthy company)|]; framed; destruct (prompts env); framed.
Qed.

Lemma Framed_with_changes (env : Env) (company : jsstring)
  (changes : jsstring * jsstring) :
  Framed (Generate.with_changes env company changes).
Proof.
  destruct changes as [diff changedFiles]. unfold Generate.with_changes.
  framed.
  - match goal with |- Framed (if ?c then _ else _) => destruct c end; framed.
  - destruct (ticket env); framed.
  - unfold file_text.
    destruct (prompt_text env (Prompts.prompt_file company)); framed.
  - apply Framed_for_await. intros message st. apply Framed_on_message.
  - match goal with |- Framed (if ?c then _ else _) => destruct c end; framed.
Qed.

(** [collect] writes nothing. *)
Lemma collect_silent (env : Env) (tr : list Effect) :
  collect env tr = (tr, snd (collect env [])).
Proof.
  unfold collect, getGitDiff, getChangedFiles, shell, bind, ret, throw.
  destruct (status_ends env);
    destruct (git_diff_cached (repo env)) as [staged|e1];
    destruct (git_status_short (repo env)) as [status|e2]; cbn [fst snd];
    try destruct (truthy (trim staged)); cbn [fst snd];
    try destruct (git_diff (repo env)); reflexivity.
Qed.

(** The commands [collect_sh] hands over are the reads, the first two in
    every case, and it comes back as [collect] does. *)
Lemma collect_sh_reads (env : Env) (tr : list Event) :
  exists more,
    collect_sh env tr
    = (tr ++ sh GIT_DIFF_CACHED :: sh GIT_STATUS_SHORT :: more,
       snd (collect env []))
    /\ (more = [] \/ more = [sh GIT_DIFF]).
Proof.
  unfold collect_sh, collect, getGitDiff, getChangedFiles, shell, outcome,
    abind, say, aret, raise, bind, ret, throw.
  rewrite <- app_assoc. cbn [app].
  destruct (status_ends env);
    destruct (git_diff_cached (repo env)) as [staged|e1];
    destruct (git_status_short (repo env)) as [status|e2]; cbn [fst snd];
    try destruct (truthy (trim staged)); cbn [fst snd];
    try destruct (git_diff (repo env)); cbn [fst snd];
    rewrite <- ?app_assoc; cbn [app];
    first [ exists []; split; [reflexivity | now left]
          | exists [sh GIT_DIFF]; split; [reflexivity | now right] ].
Qed.

(** The whole run next to [generate] of the front end: what is written is
    the same, with the reads between the name of the project and the
    checks, and with what [act] does after a parsed answer. *)
Lemma whole_run (env : Env) (w : World) :
  exists (before after : list Effect) (reads : list Event),
    (reads = []
     \/ exists more,
          reads = sh GIT_DIFF_CACHED :: sh GIT_STATUS_SHORT :: more
          /\ (more = [] \/ more = [sh GIT_DIFF]))
    /\ fst (run (Generate.generate env)) = before ++ after
    /\ generate_and_act env w []
       = match snd (run (Generate.generate env)) with
         | Returned parsed =>
             (map ui before ++ reads ++ map ui after ++ fst (act w parsed []),
              snd (act w parsed []))
         | Exited code => (map ui before ++ reads ++ map ui after, Exited code)
         | Thrown err => (map ui before ++ reads ++ map ui after, Thrown err)
         end.
Proof.
  unfold run, generate_and_act, Generate.generate, abind, bind, lift, say, emit.
  cbn [app].
  rewrite (Framed_detect env [intro (lit "git-gen")]).
  destruct (Generate.detect env []) as [es [company|code|err]]; cbn [fst snd].
  2, 3: exists (intro (lit "git-gen") :: es), [], []; rewrite !app_nil_r;
    repeat split; auto.
  destruct (@collect_sh_reads env
              ((ui (intro (lit "git-gen")) :: map ui es)
                 ++ [ui (log_info (lit "Detected project: " ++ company))]))
    as [more [E Hmore]].
  rewrite E, collect_silent.
  destruct (snd (collect env [])) as [changes|code|err]; cbn [fst snd].
  2, 3: exists ((intro (lit "git-gen") :: es)
                  ++ [log_info (lit "Detected project: " ++ company)]), [],
          (sh GIT_DIFF_CACHED :: sh GIT_STATUS_SHORT :: more);
    rewrite !app_nil_r, map_app; cbn [map app];
    repeat split; eauto.
  rewrite (Framed_with_changes env company changes
             (([intro (lit "git-gen")] ++ es)
                ++ [log_info (lit "Detected project: " ++ company)])).
  cbn [app].
  exists ((intro (lit "git-gen") :: es)
            ++ [log_info (lit "Detected project: " ++ company)]),
    (fst (Generate.with_changes env company changes [])),
    (sh GIT_DIFF_CACHED :: sh GIT_STATUS_SHORT :: more).
  split; [eauto|]. split; [reflexivity|].
  destruct (Generate.with_changes env company changes [])
    as [after [parsed|code|err]]; cbn [fst snd];
    rewrite map_app; cbn [map app]; rewrite <- ?app_assoc; cbn [app];
    try reflexivity.
  rewrite act_from. f_equal. cbn [app]. f_equal.
  rewrite <- !app_assoc. cbn [app]. now rewrite <- !app_assoc.
Qed.

(** X21: in a whole run of [src/generate.ts] the only commands handed to the
    shell before a parsed answer and a yes are the three that read the
    repository, [git diff --cached], [git status --short] and [git diff];
    the first two are handed over, in this order, as soon as the project is
    named, in every run that names one.  [git add -A], [git commit] and the
    push come only after [generate] got a parsed answer and the user said
    yes, and the message of every [git commit] that is run is the commit
    message of that answer, after a [git add -A] that went through. *)
Theorem only_reads_before_the_yes (env : Env) (w : World) :
  (forall e, is_command e = true ->
     In e (fst (generate_and_act env w [])) ->
     e = sh GIT_DIFF_CACHED \/ e = sh GIT_STATUS_SHORT \/ e = sh GIT_DIFF
     \/ exists tr parsed,
          run (Generate.generate env) = (tr, Returned parsed)
          /\ confirm_commit w = Yes)
  /\ (forall message,
        In (git_commit_m message) (fst (generate_and_act env w [])) ->
        exists tr parsed,
          run (Generate.generate env) = (tr, Returned parsed)
          /\ message = commitMessage parsed
          /\ confirm_commit w = Yes
          /\ git_add w = None)
  /\ (forall company,
        detectCompany env = Some company -> company <> [] ->
        exists rest,
          fst (generate_and_act env w [])
          = ui (intro (lit "git-gen"))
              :: ui (log_info (lit "Detected project: " ++ company))
              :: sh GIT_DIFF_CACHED :: sh GIT_STATUS_SHORT :: rest).
Proof.
  assert (NotUi : forall e es, is_command e = true -> ~ In e (map ui es)).
  { intros e es He H. apply in_map_iff in H as [x [<- _]]. discriminate He. }
  assert (Reads : forall e reads,
            (reads = []
             \/ exists more,
                  reads = sh GIT_DIFF_CACHED :: sh GIT_STATUS_SHORT :: more
                  /\ (more = [] \/ more = [sh GIT_DIFF])) ->
            In e reads ->
            e = sh GIT_DIFF_CACHED \/ e = sh GIT_STATUS_SHORT \/ e = sh GIT_DIFF).
  { intros e reads [-> | [more [-> [-> | ->]]]] H; cbn in H;
      intuition auto. }
  split; [|split].
  - intros e He H.
    destruct (whole_run env w) as [before [after [reads [Hr [Ht E]]]]].
    rewrite E in H. clear E.
    destruct (Generate.generate env []) as [tr r] eqn:G. unfold run in *.
    rewrite G in *. cbn [fst snd] in *.
    assert (Pre : In e (map ui before ++ reads ++ map ui after) ->
                  e = sh GIT_DIFF_CACHED \/ e = sh GIT_STATUS_SHORT
                  \/ e = sh GIT_DIFF).
    { intros Hin. apply in_app_or in Hin as [Hin | Hin];
        [now apply NotUi in Hin|].
      apply in_app_or in Hin as [Hin | Hin];
        [now apply (Reads e reads) | now apply NotUi in Hin]. }
    destruct r as [parsed|code|err]; cbn [fst] in H.
    2, 3: apply Pre in H; tauto.
    rewrite !app_assoc in H. apply in_app_or in H as [H | H].
    + rewrite <- !app_assoc in H. apply Pre in H. tauto.
    + right. right. right. exists tr, parsed. split; [reflexivity|].
      rewrite act_cases in H.
      destruct (confirm_commit w); [reflexivity | |];
        cbn in H; repeat destruct H as [H | H]; try contradiction;
        subst e; discriminate He.
  - intros message H.
    destruct (whole_run env w) as [before [after [reads [Hr [Ht E]]]]].
    rewrite E in H. clear E.
    destruct (Generate.generate env []) as [tr r] eqn:G. unfold run in *.
    rewrite G in *. cbn [fst snd] in *.
    assert (Pre : ~ In (git_commit_m message)
                      (map ui before ++ reads ++ map ui after)).
    { intros Hin. apply in_app_or in Hin as [Hin | Hin];
        [now apply NotUi in Hin|].
      apply in_app_or in Hin as [Hin | Hin]; [|now apply NotUi in Hin].
      apply (Reads _ reads Hr) in Hin.
      destruct Hin as [Hin | [Hin | Hin]]; discriminate Hin. }
    destruct r as [parsed|code|err]; cbn [fst] in H.
    2, 3: contradiction.
    rewrite !app_assoc in H. apply in_app_or in H as [H | H];
      [rewrite <- !app_assoc in H; contradiction|].
    exists tr, parsed. split; [reflexivity|].
    rewrite act_cases in H.
    destruct (confirm_commit w);
      [destruct (git_add w);
         [|destruct (git_commit w (commitMessage parsed));
             [|destruct (gitPushAndCreatePR_outcome w (prTitle parsed)
                           (prBody parsed))]] | |];
      cbn in H; repeat destruct H as [H | H]; try contradiction;
      try discriminate H; injection H as H; auto.
  - intros company Hd Hc.
    unfold generate_and_act, abind, lift, say, Generate.detect.
    rewrite Hd. destruct company as [|c company]; [contradiction|].
    cbn [truthy ret app map].
    destruct (@collect_sh_reads env
                [ui (intro (lit "git-gen"));
                 ui (log_info (lit "Detected project: " ++ c :: company))])
      as [more [E _]].
    rewrite E. cbn [app].
    destruct (snd (collect env [])) as [changes|code|err]; cbn [fst];
      [|eexists; reflexivity|eexists; reflexivity].
    destruct (Generate.with_changes env (c :: company) changes [])
      as [after [parsed|code|err]]; cbn [fst app].
    + rewrite act_from. cbn [fst app]. eexists. reflexivity.
    + eexists. reflexivity.
    + eexists. reflexivity.
Qed.

(** Staged changes and an answer in three sections. *)
Definition full_run : Env :=
  {| cwd := lit "/home/u/acme/app";
     prompts := [lit "acme"];
     repo := {| git_diff_cached := inl (lit "diff --git a/x b/x");
                git_diff := inl [];
                git_status_short := inl (lit "M  x") |};
     status_ends := BeforeStaged;
     ticket := Some [];
     typed := [lit "Fix the typo in the header"];
     prompt_text := fun _ => inl (lit "# Commit format");
     query := fun _ =>
       [stream_event
          (content_block_delta
             (text_delta (answer_of (lit "fix: typo") (lit "Fix typo")
                            (lit "## Summary"))));
        result_message success] |}.

Lemma only_reads_before_the_yes_witness :
  (exists tr parsed,
     run (Generate.generate full_run) = (tr, Returned parsed)
     /\ lit "fix: typo" = commitMessage parsed
     /\ confirm_commit commit_only = Yes
     /\ git_add commit_only = None)
  /\ exists rest,
       fst (generate_and_act full_run commit_only [])
       = ui (intro (lit "git-gen"))
           :: ui (log_info (lit "Detected project: " ++ lit "acme"))
           :: sh GIT_DIFF_CACHED :: sh GIT_STATUS_SHORT :: rest.
Proof.
  destruct (only_reads_before_the_yes full_run commit_only) as [_ [H2 H3]].
  split.
  - apply (H2 (lit "fix: typo")). vm_compute. auto 25.
  - apply (H3 (lit "acme")); [reflexivity | discriminate].
Defined.

End WholeRun.

(** ** The front end that asks for the whole answer at once, and the command
    line *)

Section OneShotAndCli.

Lemma blank_has_no_marker (text marker : jsstring) (c : N) :
  blank text = true -> isWhiteSpace c = false ->
  ~ Occurs (c :: marker) text.
Proof.
  intros B Hc [pre [post E]]. rewrite E, blank_app in B.
  apply andb_true_iff in B as [_ B]. cbn in B. now rewrite Hc in B.
Qed.

(** X22: the front end that asks for the whole answer at once has no check
    for an empty answer: with the subtype "success" and an answer that is
    empty or white space it returns that answer as the commit message, with
    an empty title and body; with any other subtype, the empty one included,
    it reports the subtype and ends with exit status 1. *)
Theorem one_shot_shows_a_blank_answer (r : GenerateOneShot.PromptResult) :
  (GenerateOneShot.subtype r = success ->
   blank (GenerateOneShot.result_text r) = true ->
   run (GenerateOneShot.respond r)
   = ([console_log (LF :: lit "Generating with Claude..." ++ [LF])],
      Returned {| commitMessage := GenerateOneShot.result_text r;
                  prTitle := []; prBody := [] |}))
  /\ (GenerateOneShot.subtype r <> success ->
      run (GenerateOneShot.respond r)
      = ([console_log (LF :: lit "Generating with Claude..." ++ [LF]);
          console_error
            (lit "Generation failed: " ++ GenerateOneShot.subtype r)],
         Exited 1)).
Proof.
  unfold run, GenerateOneShot.respond, bind, emit, ret, exit. cbn [app].
  split.
  - intros -> B. change (eqb success success) with true. cbn [negb].
    rewrite parseResponse_sections.
    rewrite !section_between_absent, section_to_end_absent; [reflexivity| | |];
      now apply blank_has_no_marker.
  - intros H. now rewrite (eqb_neq H).
Qed.

Lemma one_shot_shows_a_blank_answer_witness :
  run (GenerateOneShot.respond
         {| GenerateOneShot.subtype := success;
            GenerateOneShot.result_text := [LF] |})
  = ([console_log (LF :: lit "Generating with Claude..." ++ [LF])],
     Returned {| commitMessage := [LF]; prTitle := []; prBody := [] |})
  /\ run (GenerateOneShot.respond
            {| GenerateOneShot.subtype := [];
               GenerateOneShot.result_text := lit "x" |})
     = ([console_log (LF :: lit "Generating with Claude..." ++ [LF]);
         console_error (lit "Generation failed: " ++ [])],
        Exited 1).
Proof.
  split.
  - apply (proj1 (one_shot_shows_a_blank_answer
                    {| GenerateOneShot.subtype := success;
                       GenerateOneShot.result_text := [LF] |}));
      reflexivity.
  - apply (proj2 (one_shot_shows_a_blank_answer
                    {| GenerateOneShot.subtype := [];
                       GenerateOneShot.result_text := lit "x" |})).
    discriminate.
Defined.

(** X23: the command line looks at its first argument only: "help" prints
    the usage and ends with exit status 0 without running [generate]; any
    other word that is not empty and not "generate" is reported as unknown
    and ends with exit status 1, again without running [generate]; no
    argument, an empty one and "generate" all run [generate]. *)
Theorem command_line_dispatch
  (A : Type) (generate : Run A) (c : jsstring) (more : list jsstring) :
  run (Cli.main (lit "help" :: more) generate) = (Cli.usage, Exited 0)
  /\ (c <> [] -> c <> lit "help" -> c <> lit "generate" ->
      run (Cli.main (c :: more) generate)
      = ([console_log (lit "Unknown command: " ++ c)], Exited 1))
  /\ run (Cli.main (lit "generate" :: more) generate)
     = run (a <- generate ;; ret (Some a))
  /\ run (Cli.main ([] :: more) generate) = run (a <- generate ;; ret (Some a))
  /\ run (Cli.main [] generate) = run (a <- generate ;; ret (Some a)).
Proof.
  repeat split; try reflexivity.
  intros H1 H2 H3. unfold run, Cli.main, bind. cbn [hd_error].
  rewrite (eqb_neq H2), (eqb_neq H3).
  destruct c as [|x c]; [contradiction | reflexivity].
Qed.

Lemma command_line_dispatch_witness :
  run (Cli.main [lit "Help"; lit "generate"] (Generate.generate clean_tree))
  = ([console_log (lit "Unknown command: " ++ lit "Help")], Exited 1).
Proof.
  apply (proj1 (proj2 (@command_line_dispatch ParsedResponse
                         (Generate.generate clean_tree) (lit "Help")
                         [lit "generate"]))); discriminate.
Defined.

End OneShotAndCli.

(** ** The streamed front end and the end of the stream *)

Section StreamedTails.

(** A session without the messages it has still to read. *)
Definition forget (s : Session) : Session := set_incoming [] s.

Lemma set_incoming_forget (s : Session) :
  set_incoming (incoming s) (forget s) = s.
Proof. destruct s; reflexivity. Qed.

Lemma on_message_set_incoming (m : SDKMessage) (x : list SDKMessage)
  (s : Session) :
  GenerateStreamed.on_message m (set_incoming x s)
  = (fst (GenerateStreamed.on_message m s),
     set_incoming x (snd (GenerateStreamed.on_message m s))).
Proof.
  destruct m as [[[chunk|answer|]| |]|sub|];
    cbn [GenerateStreamed.on_message thinkingStarted thinking responseText
         set_incoming]; try reflexivity.
  - destruct (negb (thinkingStarted s)); reflexivity.
  - destruct (thinkingStarted s && negb (thinkingDone (thinking s)));
      reflexivity.
  - destruct (negb (eqb sub success)); reflexivity.
Qed.

Lemma finish_set_incoming (x : list SDKMessage) (s : Session) :
  finish (set_incoming x s) = set_incoming x (finish s).
Proof.
  unfold finish. cbn [thinking set_incoming].
  destruct (negb (thinkingDone (thinking s))); reflexivity.
Qed.

Lemma resume_set_incoming (x : list SDKMessage) (s : Session) :
  resume (set_incoming x s) = set_incoming x (resume s).
Proof.
  unfold resume. cbn [main thinking streamDone set_incoming].
  destruct (main s), (reported_done (thinking s)), (streamDone s); reflexivity.
Qed.

(** One turn of [consumeStream] in terms of the message at the head. *)
Lemma turn_cons (s : Session) (m : SDKMessage) (r : list SDKMessage) :
  streamDone s = false -> incoming s = m :: r ->
  consumeStream_turn s
  = match fst (GenerateStreamed.on_message m (forget s)) with
    | Continue => set_incoming r (snd (GenerateStreamed.on_message m (forget s)))
    | Break =>
        set_incoming r (finish (snd (GenerateStreamed.on_message m (forget s))))
    end.
Proof.
  intros Hd Hi. unfold consumeStream_turn. rewrite Hd, Hi.
  rewrite <- (set_incoming_forget s) at 1.
  change (set_incoming r (set_incoming (incoming s) (forget s)))
    with (set_incoming r (forget s)).
  rewrite on_message_set_incoming.
  destruct (fst (GenerateStreamed.on_message m (forget s)));
    [reflexivity | apply finish_set_incoming].
Qed.

Lemma turn_nil (s : Session) :
  streamDone s = false -> incoming s = [] ->
  consumeStream_turn s = finish (forget s).
Proof.
  intros Hd Hi. unfold consumeStream_turn. rewrite Hd, Hi.
  rewrite <- (set_incoming_forget s) at 1. rewrite Hi. reflexivity.
Qed.

Variables ta tb : list SDKMessage.

(** The two ends [ta] and [tb] of a stream end the loop alike. *)
Hypothesis ends_alike :
  forall a b, forget a = forget b -> streamDone a = false ->
    incoming a = ta -> incoming b = tb ->
    forget (consumeStream_turn a) = forget (consumeStream_turn b)
    /\ streamDone (consumeStream_turn a) = true.

Definition Alike (a b : Session) : Prop :=
  forget a = forget b
  /\ (streamDone a = true
      \/ exists ahead, incoming a = ahead ++ ta /\ incoming b = ahead ++ tb).

Lemma forget_streamDone (a b : Session) :
  forget a = forget b -> streamDone a = streamDone b.
Proof. intros E. apply (f_equal streamDone) in E. exact E. Qed.

Lemma Alike_turn (a b : Session) :
  Alike a b -> Alike (consumeStream_turn a) (consumeStream_turn b).
Proof.
  intros [E H]. pose proof (@forget_streamDone a b E) as Ed.
  destruct (streamDone a) eqn:Da.
  { unfold consumeStream_turn. rewrite Da, <- Ed. split; [exact E | now left]. }
  destruct H as [H | [ahead [Ia Ib]]]; [discriminate H|].
  destruct ahead as [|m ahead]; cbn [app] in Ia, Ib.
  - destruct (@ends_alike a b E Da Ia Ib) as [E2 D2]. split; [exact E2 | now left].
  - rewrite (@turn_cons a m (ahead ++ ta) Da Ia).
    rewrite (@turn_cons b m (ahead ++ tb) (eq_sym Ed) Ib), <- E.
    destruct (GenerateStreamed.on_message m (forget a)) as [[|] s0];
      cbn [fst snd].
    + split; [reflexivity|]. right. exists ahead. split; reflexivity.
    + split; [reflexivity|]. left. cbn [streamDone set_incoming].
      apply finish_fields.
Qed.

Lemma Alike_step (a b : Session) (t : turn) :
  Alike a b -> Alike (step a t) (step b t).
Proof.
  intros H. unfold step.
  assert (Keep : forall a' b', Alike a' b' -> Alike (resume a') (resume b')).
  { intros a' b' [E H']. destruct (resume_fields a') as [R1 [_ [_ [R4 _]]]].
    destruct (resume_fields b') as [_ [_ [_ [R4' _]]]].
    split.
    - unfold forget. rewrite <- !resume_set_incoming. fold (forget a').
      fold (forget b'). now rewrite E.
    - rewrite R1, R4, R4'. exact H'. }
  apply Keep. destruct t; [now apply Alike_turn|].
  destruct H as [E H]. split; [|exact H].
  unfold render, forget.
  apply (f_equal thinking) in E as Et. cbn in Et. rewrite Et.
  apply (f_equal (set_thinking (pull (thinking b)))) in E. exact E.
Qed.

Lemma Alike_run (sched : list turn) (a b : Session) :
  Alike a b -> Alike (run_turns sched a) (run_turns sched b).
Proof.
  revert a b. induction sched as [|t sched IH]; intros a b H; [exact H|].
  cbn [run_turns fold_left]. apply IH, Alike_step, H.
Qed.

Lemma respond_alike (common : list SDKMessage) (sched : list turn) :
  run (respond (common ++ ta) sched) = run (respond (common ++ tb) sched).
Proof.
  assert (H : Alike (run_turns sched (start (common ++ ta)))
                (run_turns sched (start (common ++ tb)))).
  { apply Alike_run. split; [reflexivity|]. right. now exists common. }
  destruct H as [E _]. unfold run, respond, bind, emit, emit_all.
  apply (f_equal main) in E as Em.
  apply (f_equal terminal) in E as Et.
  apply (f_equal streamError) in E as Ee.
  apply (f_equal responseText) in E as Er.
  cbn in Em, Et, Ee, Er. now rewrite Em, Et, Ee, Er.
Qed.

End StreamedTails.

Section EndOfStream.

Lemma result_ends_alike (subtype : jsstring) (rest : list SDKMessage)
  (a b : Session) :
  forget a = forget b -> streamDone a = false ->
  incoming a = [result_message subtype] ->
  incoming b = result_message subtype :: rest ->
  forget (consumeStream_turn a) = forget (consumeStream_turn b)
  /\ streamDone (consumeStream_turn a) = true.
Proof.
  intros E Da Ia Ib.
  rewrite (@turn_cons a (result_message subtype) [] Da Ia).
  rewrite (@turn_cons b (result_message subtype) rest
             (eq_trans (eq_sym (forget_streamDone E)) Da) Ib), <- E.
  cbn [GenerateStreamed.on_message].
  destruct (negb (eqb subtype success)); cbn [fst snd];
    (split; [reflexivity | apply finish_fields]).
Qed.

Lemma exhaustion_ends_alike (a b : Session) :
  forget a = forget b -> streamDone a = false ->
  incoming a = [] ->
  incoming b = [result_message success] ->
  forget (consumeStream_turn a) = forget (consumeStream_turn b)
  /\ streamDone (consumeStream_turn a) = true.
Proof.
  intros E Da Ia Ib.
  rewrite (@turn_nil a Da Ia).
  rewrite (@turn_cons b (result_message success) []
             (eq_trans (eq_sym (forget_streamDone E)) Da) Ib), <- E.
  cbn [GenerateStreamed.on_message].
  change (negb (eqb success success)) with false. cbn [fst snd].
  split; [reflexivity | apply finish_fields].
Qed.

(** X11: every front end stops reading at the first result: whatever the
    stream holds behind a result, a second result included, plays no part in
    the run, in the streamed front end under every order of turns. *)
Theorem nothing_is_read_after_the_result
  (msgs rest : list SDKMessage) (subtype : jsstring) (sched : list turn) :
  run (Generate.respond (msgs ++ result_message subtype :: rest))
  = run (Generate.respond (msgs ++ [result_message subtype]))
  /\ run (GenerateConsole.respond (msgs ++ result_message subtype :: rest))
     = run (GenerateConsole.respond (msgs ++ [result_message subtype]))
  /\ run (respond (msgs ++ result_message subtype :: rest) sched)
     = run (respond (msgs ++ [result_message subtype]) sched).
Proof.
  assert (Plain :
            run (Generate.respond (msgs ++ result_message subtype :: rest))
            = run (Generate.respond (msgs ++ [result_message subtype]))
            /\ run (GenerateConsole.respond
                      (msgs ++ result_message subtype :: rest))
               = run (GenerateConsole.respond
                        (msgs ++ [result_message subtype]))).
  { destruct (first_result msgs) as [No | [before [sub [behind [-> No]]]]].
    - now apply plain_loops_stop_at_result.
    - rewrite <- !app_assoc. cbn [app]. now apply plain_loops_stop_at_result. }
  destruct Plain as [P1 P2]. repeat split; [exact P1 | exact P2 |].
  symmetry.
  apply (@respond_alike [result_message subtype]
           (result_message subtype :: rest)
           (@result_ends_alike subtype rest) msgs sched).
Qed.

(** X12: a stream that ends without any result is taken by every front end
    exactly like the same stream followed by the result "success": the run
    goes on to the check for an empty answer and to the parser. *)
Theorem stream_without_result_counts_as_success
  (msgs : list SDKMessage) (sched : list turn) :
  run (Generate.respond msgs)
  = run (Generate.respond (msgs ++ [result_message success]))
  /\ run (GenerateConsole.respond msgs)
     = run (GenerateConsole.respond (msgs ++ [result_message success]))
  /\ run (respond msgs sched)
     = run (respond (msgs ++ [result_message success]) sched).
Proof.
  assert (Plain :
            run (Generate.respond msgs)
            = run (Generate.respond (msgs ++ [result_message success]))
            /\ run (GenerateConsole.respond msgs)
               = run (GenerateConsole.respond
                        (msgs ++ [result_message success]))).
  { destruct (first_result msgs) as [No | [before [sub [behind [-> No]]]]].
    - now apply plain_loops_at_end_of_stream.
    - rewrite <- !app_assoc. cbn [app]. now apply plain_loops_stop_at_result. }
  destruct Plain as [P1 P2]. repeat split; [exact P1 | exact P2 |].
  rewrite <- (app_nil_r msgs) at 1.
  apply (@respond_alike [] [result_message success] exhaustion_ends_alike
           msgs sched).
Qed.

End EndOfStream.

(** ** Where a section ends *)

Section SectionEnds.

Lemma indexOf_least (s search : jsstring) (k : nat) :
  indexOf s search = Some k ->
  forall pre post, s = pre ++ search ++ post -> k <= List.length pre.
Proof.
  revert k. induction s as [|x s IH]; intros k H pre post E.
  - cbn in H. destruct (startsWith [] search); [|discriminate H].
    injection H as <-. lia.
  - cbn [indexOf] in H.
    destruct (startsWith (x :: s) search) eqn:S0.
    + injection H as <-. lia.
    + destruct (indexOf s search) as [k'|] eqn:Ek; [|discriminate H].
      injection H as <-. destruct pre as [|y pre].
      * cbn [app] in E. rewrite E, startsWith_app in S0. discriminate S0.
      * injection E as _ E. cbn [List.length].
        specialize (IH k' eq_refl pre post E). lia.
Qed.

Lemma nothing_before_first (s search : jsstring) (k : nat) :
  indexOf s search = Some k -> search <> [] ->
  ~ Occurs search (firstn k s).
Proof.
  intros H Hne [pre [post E]].
  assert (L : List.length (firstn k s) <= k) by apply firstn_le_length.
  rewrite E, !length_app in L.
  assert (Es : s = pre ++ search ++ (post ++ skipn k s)).
  { rewrite <- (firstn_skipn k s) at 1. rewrite E, <- !app_assoc. reflexivity. }
  pose proof (@indexOf_least s search k H pre _ Es).
  destruct search; [contradiction|]. cbn [List.length] in L. lia.
Qed.

Lemma Occurs_trim (search s : jsstring) :
  Occurs search (trim s) -> Occurs search s.
Proof.
  intros [pre [post E]].
  destruct (trim_split s) as [w1 [w2 [Es _]]].
  exists (w1 ++ pre), (post ++ w2).
  rewrite Es at 1. rewrite E, <- !app_assoc. reflexivity.
Qed.

Lemma section_between_closed (text opener closer g : jsstring) :
  closer <> [] ->
  section_between text opener closer = Some g -> ~ Occurs closer g.
Proof.
  intros Hne. unfold section_between.
  destruct (indexOf text opener) as [i|]; [|discriminate].
  cbv zeta.
  destruct (indexOf (skipn (i + List.length opener) text) closer) as [k|] eqn:Ek;
    [|discriminate].
  intros [= <-]. now apply nothing_before_first.
Qed.

(** X24: a section never runs over the marker line that closes it: a commit
    message taken from its section holds no line [PR_TITLE] with a line feed
    before and behind it (otherwise the commit message is the whole text),
    and the title holds no such line [PR_BODY]. *)
Theorem sections_stop_at_the_next_marker (text : jsstring) :
  (commitMessage (parseResponse text) = text
   \/ ~ Occurs (LF :: PR_TITLE ++ [LF]) (commitMessage (parseResponse text)))
  /\ ~ Occurs (LF :: PR_BODY ++ [LF]) (prTitle (parseResponse text)).
Proof.
  rewrite parseResponse_sections. cbn [commitMessage prTitle]. split.
  - destruct (section_between text (COMMIT_MESSAGE ++ [LF])
                (LF :: PR_TITLE ++ [LF])) as [g|] eqn:E; [|now left].
    right. intros H. apply Occurs_trim in H.
    revert H. apply (@section_between_closed text (COMMIT_MESSAGE ++ [LF])
                       (LF :: PR_TITLE ++ [LF]) g); [discriminate | exact E].
  - destruct (section_between text (PR_TITLE ++ [LF])
                (LF :: PR_BODY ++ [LF])) as [g|] eqn:E.
    + intros H. apply Occurs_trim in H.
      revert H. apply (@section_between_closed text (PR_TITLE ++ [LF])
                         (LF :: PR_BODY ++ [LF]) g); [discriminate | exact E].
    + intros H. apply Occurs_length in H. cbn in H. lia.
Qed.

End SectionEnds.

(** ** The streamed front end comes to an end; its spinners without thinking *)

Section StreamedEnd.

(** X25: the streamed front end cannot hang on a finite stream: for every
    stream, with or without thinking, with or without a result, once
    [consumeStream] has had more turns than the stream has messages and the
    renderer then more turns than that, [consumeStream] is through and
    [generate] is past both awaits. *)
Theorem streamed_run_comes_to_an_end
  (stream : list SDKMessage) (sched1 sched2 : list turn) :
  List.length stream < ingests sched1 ->
  List.length stream < renders sched2 ->
  main (run_turns (sched1 ++ sched2) (start stream)) = Resumed
  /\ streamDone (run_turns (sched1 ++ sched2) (start stream)) = true.
Proof.
  intros H1 H2. pose proof (@enough_turns stream sched1 sched2 H1 H2) as R.
  split; [exact R|]. apply resumed_after_stream; [discriminate | exact R].
Qed.

(** Thinking in two blocks, an answer in two pieces, and a result that is
    not the last message. *)
Definition busy_stream : list SDKMessage :=
  [stream_event (content_block_delta (thinking_delta (lit "The diff renames")));
   stream_event (content_block_delta (thinking_delta (lit " a helper.")));
   stream_event content_block_stop;
   stream_event (content_block_delta (thinking_delta (lit "Title next.")));
   stream_event content_block_stop;
   other_message;
   stream_event (content_block_delta (text_delta (lit "COMMIT_MESSAGE")));
   stream_event (content_block_delta (text_delta (LF :: lit "refactor: rename")));
   stream_event content_block_stop;
   result_message success;
   stream_event (content_block_delta (text_delta (lit "late")))].

Lemma streamed_run_comes_to_an_end_witness :
  main
    (run_turns
       ([Render; Ingest; Render; Ingest; Ingest; Render; Ingest; Ingest;
         Ingest; Ingest; Ingest; Ingest; Ingest; Ingest; Ingest]
          ++ [Render; Render; Render; Render; Render; Render; Render; Render;
              Render; Render; Render; Render])
       (start busy_stream)) = Resumed
  /\ streamDone
       (run_turns
          ([Render; Ingest; Render; Ingest; Ingest; Render; Ingest; Ingest;
            Ingest; Ingest; Ingest; Ingest; Ingest; Ingest; Ingest]
             ++ [Render; Render; Render; Render; Render; Render; Render; Render;
                 Render; Render; Render; Render])
          (start busy_stream)) = true.
Proof.
  apply (@streamed_run_comes_to_an_end busy_stream
           [Render; Ingest; Render; Ingest; Ingest; Render; Ingest; Ingest;
            Ingest; Ingest; Ingest; Ingest; Ingest; Ingest; Ingest]
           [Render; Render; Render; Render; Render; Render; Render; Render;
            Render; Render; Render; Render]);
    vm_compute; lia.
Defined.

Definition is_thinking (m : SDKMessage) : bool :=
  match m with
  | stream_event (content_block_delta (thinking_delta _)) => true
  | _ => false
  end.

(** What holds of every session on a stream without thinking. *)
Record Quiet (s : Session) : Prop := {
  quiet_incoming : existsb is_thinking (incoming s) = false;
  quiet_started : thinkingStarted s = false;
  quiet_terminal : terminal s = [];
  quiet_main : main s <> AwaitingStream;
  quiet_queue : WF (thinking s);
  quiet_closed : thinkingDone (thinking s) = true -> streamDone s = true;
  quiet_empty : thinkingQueue (thinking s) = [];
  quiet_chunks : chunks (delivered (thinking s)) = []
}.

Lemma endThinking_chunks (q : ThinkingQueue.t) :
  thinkingQueue (endThinking q) = thinkingQueue q
  /\ chunks (delivered (endThinking q)) = chunks (delivered q).
Proof.
  unfold endThinking. destruct (thinkingResolve q); cbn; [|auto].
  rewrite chunks_app. cbn. now rewrite app_nil_r.
Qed.

Lemma pull_chunks (q : ThinkingQueue.t) :
  thinkingQueue q = [] ->
  thinkingQueue (pull q) = []
  /\ chunks (delivered (pull q)) = chunks (delivered q).
Proof.
  intros Hq. unfold pull.
  destruct (thinkingResolve q || reported_done q); [auto|].
  unfold next. rewrite Hq. destruct (thinkingDone q); cbn; [|auto].
  rewrite chunks_app. cbn. now rewrite app_nil_r.
Qed.

Lemma Quiet_finish (s : Session) :
  thinkingStarted s = false -> terminal s = [] -> main s <> AwaitingStream ->
  WF (thinking s) -> existsb is_thinking (incoming s) = false ->
  thinkingQueue (thinking s) = [] -> chunks (delivered (thinking s)) = [] ->
  Quiet (finish s).
Proof.
  intros H1 H2 H3 H4 H5 H6 H7. unfold finish.
  destruct (endThinking_chunks (thinking s)) as [E1 E2].
  destruct (negb (thinkingDone (thinking s))); split; cbn; auto.
  - now apply WF_endThinking.
  - now rewrite E1.
  - now rewrite E2.
Qed.

Lemma Quiet_turn (s : Session) : Quiet s -> Quiet (consumeStream_turn s).
Proof.
  intros Q. unfold consumeStream_turn.
  destruct (streamDone s) eqn:Ed; [exact Q|].
  destruct Q as [Qi Qs Qt Qm Qq Qc Qe Qk].
  destruct (incoming s) as [|m rest] eqn:Ei;
    [apply Quiet_finish; auto; now rewrite Ei|].
  cbn [existsb] in Qi. apply orb_false_iff in Qi as [Hm Hrest].
  destruct m as [[[chunk|answer|]| |]|sub|]; try discriminate Hm;
    cbn [GenerateStreamed.on_message thinkingStarted set_incoming].
  - split; cbn; auto.
  - split; cbn; auto.
  - rewrite Qs. cbn [andb]. split; cbn; auto.
  - split; cbn; auto.
  - destruct (negb (eqb sub success)); apply Quiet_finish; cbn; auto.
  - split; cbn; auto.
Qed.

Lemma Quiet_step (s : Session) (t : turn) : Quiet s -> Quiet (step s t).
Proof.
  intros Q. unfold step.
  assert (Q' : Quiet (match t with
                      | Ingest => consumeStream_turn s
                      | Render => render s
                      end)).
  { destruct t; [now apply Quiet_turn|].
    destruct Q as [Qi Qs Qt Qm Qq Qc Qe Qk].
    destruct (pull_chunks (thinking s) Qe) as [P1 P2].
    split; cbn; auto.
    - now apply WF_pull.
    - intros Hd. apply Qc.
      unfold pull in Hd.
      destruct (thinkingResolve (thinking s) || reported_done (thinking s));
        [exact Hd|].
      unfold next in Hd. destruct (thinkingQueue (thinking s)); [|exact Hd].
      destruct (thinkingDone (thinking s)); [reflexivity | discriminate Hd].
    - now rewrite P2. }
  set (x := match t with
            | Ingest => consumeStream_turn s
            | Render => render s
            end) in *.
  destruct Q' as [Qi Qs Qt Qm Qq Qc Qe Qk]. unfold resume.
  destruct (main x) eqn:Em;
    [|contradiction|split; auto; rewrite Em; discriminate].
  destruct (reported_done (thinking x)) eqn:Er;
    [|split; auto; rewrite Em; discriminate].
  rewrite (Qc (wf_reported Qq Er)). cbn [negb].
  split; cbn; auto. discriminate.
Qed.

Lemma Quiet_run (stream : list SDKMessage) (sched : list turn) :
  existsb is_thinking stream = false ->
  Quiet (run_turns sched (start stream)).
Proof.
  intros H.
  assert (Q0 : Quiet (start stream)).
  { split; cbn; auto; try discriminate. apply WF_empty. }
  revert Q0. generalize (start stream).
  induction sched as [|t sched IH]; intros s Q0; [exact Q0|].
  cbn [run_turns fold_left]. apply IH, Quiet_step, Q0.
Qed.

(** X26: on a stream without a [thinking_delta] the spinner started with
    "Generating with Claude..." is never stopped, whatever the order of the
    turns: [s.stop] is called in the [thinking_delta] branch alone.  There
    [generate] makes no spinner call during the stream at all (no stop of
    the first spinner, no "Writing response..." spinner), [thinkingStarted]
    stays false, the iterator hands the renderer no chunk, and it reports
    done only once [consumeStream] has set [streamDone]; so no
    [spinner_stop] is among the effects of the run up to the parsed
    answer. *)
Theorem first_spinner_is_never_stopped_without_thinking
  (stream : list SDKMessage) (sched : list turn) :
  existsb is_thinking stream = false ->
  terminal (run_turns sched (start stream)) = []
  /\ thinkingStarted (run_turns sched (start stream)) = false
  /\ chunks (delivered (thinking (run_turns sched (start stream)))) = []
  /\ (reported_done (thinking (run_turns sched (start stream))) = true ->
      streamDone (run_turns sched (start stream)) = true)
  /\ In (spinner_start (lit "Generating with Claude..."))
       (fst (run (respond stream sched)))
  /\ forall message,
       ~ In (spinner_stop message) (fst (run (respond stream sched))).
Proof.
  intros H. pose proof (@Quiet_run stream sched H) as Q.
  destruct Q as [Qi Qs Qt Qm Qq Qc Qe Qk].
  split; [exact Qt|]. split; [exact Qs|]. split; [exact Qk|].
  split; [intros Hr; apply Qc, (wf_reported Qq Hr)|].
  unfold run, respond, bind, emit, emit_all, ret, exit.
  rewrite Qt. cbn [app].
  destruct (main (run_turns sched (start stream)));
    try (split; [now left | intros message [E | []]; discriminate E]).
  destruct (streamError (run_turns sched (start stream))) as [reason|];
    [destruct (truthy reason)|];
    try destruct (negb (truthy (trim (responseText
                                        (run_turns sched (start stream))))));
    cbn [fst app];
    (split; [now left|]);
    intros message Hin; cbn in Hin;
    repeat destruct Hin as [Hin | Hin]; try discriminate Hin; contradiction.
Qed.

(** An answer in one piece, no thinking. *)
Definition text_only : list SDKMessage :=
  [stream_event other_event;
   stream_event (content_block_delta (text_delta (lit "COMMIT_MESSAGE")));
   stream_event content_block_stop;
   result_message success].

Lemma first_spinner_is_never_stopped_without_thinking_witness :
  main (run_turns [Render; Ingest; Ingest; Render; Ingest; Ingest; Render]
          (start text_only)) = Resumed
  /\ forall message,
       ~ In (spinner_stop message)
           (fst (run (respond text_only
                        [Render; Ingest; Ingest; Render; Ingest; Ingest; Render]))).
Proof.
  split; [reflexivity|].
  destruct (@first_spinner_is_never_stopped_without_thinking text_only
              [Render; Ingest; Ingest; Render; Ingest; Ingest; Render]
              eq_refl) as [_ [_ [_ [_ [_ H]]]]].
  exact H.
Defined.

End StreamedEnd.

(** ** The prompt and the parser *)

Section PromptFormat.

Lemma join_split (sep : jsstring) (n : nat) (parts : list jsstring) :
  0 < n -> n < List.length parts ->
  join sep parts = join sep (firstn n parts) ++ sep ++ join sep (skipn n parts).
Proof.
  revert parts. induction n as [|n IH]; intros parts Hn Hl; [lia|].
  destruct parts as [|x [|y rest]]; cbn [List.length] in Hl; try lia.
  destruct n as [|n].
  - reflexivity.
  - change (join sep (x :: y :: rest)) with (x ++ sep ++ join sep (y :: rest)).
    rewrite (IH (y :: rest)) by (cbn [List.length]; lia).
    cbn [firstn skipn].
    change (join sep (x :: y :: firstn n rest))
      with (x ++ sep ++ join sep (y :: firstn n rest)).
    now rewrite <- !app_assoc.
Qed.

(** X29: the prompt asks for the format the parser reads.  Whatever the
    profile, the diff, the changed files, the ticket and the summary are,
    the prompt ends, after a line feed, with the three marker lines
    [COMMIT_MESSAGE], [PR_TITLE] and [PR_BODY], each followed by its
    placeholder and the first two by an empty line; and [parseResponse]
    reads the three placeholders out of an answer that has exactly this
    shape. *)
Theorem prompt_asks_for_what_the_parser_reads
  (companyPrompt diff changedFiles ticket summary : jsstring) :
  (exists before,
     userPrompt companyPrompt diff changedFiles ticket summary
     = before ++ [LF]
         ++ answer_of (lit "<the commit message>") (lit "<the PR title>")
              (lit "<the PR body in markdown>"))
  /\ parseResponse
       (answer_of (lit "<the commit message>") (lit "<the PR title>")
          (lit "<the PR body in markdown>"))
     = {| commitMessage := lit "<the commit message>";
          prTitle := lit "<the PR title>";
          prBody := lit "<the PR body in markdown>" |}.
Proof.
  split; [|vm_compute; reflexivity].
  unfold userPrompt.
  rewrite (@join_split [LF] 23) by (cbn [List.length]; lia).
  cbn [firstn skipn]. eexists. reflexivity.
Qed.

End PromptFormat.
